(** * WordLang: lexer, parser and tree-walking evaluator

    A shallow embedding of the WordLang interpreter (packages [token],
    [lexer], [ast], [parser], [object] and [interpreter]) together with the
    properties of its specification that concern the three pipeline stages.

    Conventions of the embedding:
    - a Go [string] is a sequence of bytes, modelled by [string] (one [ascii]
      per byte); a Go [int] or [int64] is a [Z], with the 64-bit wrap-around
      written out where the evaluator computes on program data;
    - a Go pointer to a run-time object is an address carried by the object;
      comparing two interface values compares dynamic type and address;
    - a run-time panic of the host language is an explicit outcome;
    - every loop of the source is a [Fixpoint] over a fuel argument. *)

From Stdlib Require Import ZArith String Ascii List Bool Floats Lia DecimalString.
From stdpp Require Import gmap strings.
Import ListNotations.
Local Open Scope string_scope.
Local Open Scope Z_scope.

(** ** Host language: bytes, strings, [unicode], [fmt] *)

Module host.

Definition byte := ascii.

Definition code (c : byte) : Z := Z.of_N (N_of_ascii c).
Definition byte_of (z : Z) : byte := ascii_of_N (Z.to_N z).

Definition NUL : byte := byte_of 0.
Definition newline : byte := byte_of 10.
Definition dquote : byte := byte_of 34.
Definition hash : byte := byte_of 35.
Definition underscore : byte := byte_of 95.
Definition dot : byte := byte_of 46.

(** [len(s)], [s[i]] and [s[lo:hi]].  The last two panic in Go outside the
    string; the lexer only uses them inside (see [lexer.readChar], which
    tests the bound, and the slices between two scanned positions). *)
Definition len (s : string) : Z := Z.of_nat (String.length s).

Definition index (s : string) (i : Z) : byte :=
  match String.get (Z.to_nat i) s with
  | Some c => c
  | None => NUL
  end.

Definition slice (s : string) (lo hi : Z) : string :=
  substring (Z.to_nat lo) (Z.to_nat (hi - lo)) s.

(** [unicode.IsLetter], [unicode.IsDigit] and [unicode.IsSpace] on
    [rune(b)] for a byte [b]: the Latin-1 range of the Unicode tables. *)
Definition between (lo hi n : Z) : bool := (lo <=? n) && (n <=? hi).

Definition IsLetter (c : byte) : bool :=
  let n := code c in
  between 65 90 n || between 97 122 n || (n =? 170) || (n =? 181)
  || (n =? 186) || between 192 214 n || between 216 246 n
  || between 248 255 n.

Definition IsDigit (c : byte) : bool := between 48 57 (code c).

Definition IsSpace (c : byte) : bool :=
  let n := code c in
  between 9 13 n || (n =? 32) || (n =? 133) || (n =? 160).

(** [string(b)] for a byte [b]: the UTF-8 encoding of the code point. *)
Definition string_of_byte (c : byte) : string :=
  let n := code c in
  if n <? 128 then String c EmptyString
  else String (byte_of (192 + n / 64))
         (String (byte_of (128 + n mod 64)) EmptyString).

(** [%d] of an integer. *)
Definition itoa (z : Z) : string := NilZero.string_of_int (Z.to_int z).

(** [%q] of a string without characters that need escaping. *)
Definition quote (s : string) : string :=
  String dquote (s +:+ String dquote EmptyString).

(** [strings.Contains(s, ".")]. *)
Fixpoint contains_dot (s : string) : bool :=
  match s with
  | EmptyString => false
  | String c s' => Ascii.eqb c dot || contains_dot s'
  end.

(** 64-bit two's complement wrap-around of [int64] arithmetic. *)
Definition wrap64 (z : Z) : Z := (z + 2 ^ 63) mod 2 ^ 64 - 2 ^ 63.

(** [float64(v)] for an [int64]: rounding to nearest, ties to even. *)
Definition float64_of_int (v : Z) : float :=
  SF2Prim (binary_normalize 53 1024 v 0 false).

(** [int64(f)] for a [float64]: truncation toward zero.  Where the value does
    not fit (or is not a number) the language leaves the result to the
    implementation; amd64 yields the least [int64]. *)
Definition int_of_float64 (f : float) : Z :=
  match Prim2SF f with
  | S754_zero _ => 0
  | S754_finite s m e =>
      let a := if 0 <=? e then Z.pos m * 2 ^ e else Z.pos m / 2 ^ (- e) in
      let v := if s then - a else a in
      if (- 2 ^ 63 <=? v) && (v <? 2 ^ 63) then v else - 2 ^ 63
  | _ => - 2 ^ 63
  end.

(** [%f] of a [float64]: six digits after the point, the exact binary value
    rounded to nearest, ties to even. *)
Definition round_half_even (num den : Z) : Z :=
  let q := num / den in
  let r := num mod den in
  if 2 * r <? den then q
  else if den <? 2 * r then q + 1
  else if Z.even q then q else q + 1.

Fixpoint pad_zero (n : nat) (s : string) : string :=
  match n with
  | O => s
  | S n' => if (String.length s <? 6)%nat then pad_zero n' ("0" +:+ s) else s
  end.

Definition fmt_f (f : float) : string :=
  match Prim2SF f with
  | S754_nan => "NaN"
  | S754_infinity s => if s then "-Inf" else "+Inf"
  | S754_zero s => (if s then "-" else "") +:+ "0.000000"
  | S754_finite s m e =>
      let num := Z.pos m * 10 ^ 6 in
      let q := if 0 <=? e then num * 2 ^ e
               else round_half_even num (2 ^ (- e)) in
      (if s then "-" else "") +:+ itoa (q / 10 ^ 6) +:+ "."
      +:+ pad_zero 6 (itoa (q mod 10 ^ 6))
  end.

(** [%t] of a [bool]. *)
Definition fmt_t (b : bool) : string := if b then "true" else "false".

(** [strings.Join(elems, sep)]. *)
Fixpoint Join (elems : list string) (sep : string) : string :=
  match elems with
  | [] => ""
  | [e] => e
  | e :: rest => e +:+ sep +:+ Join rest sep
  end.

(** The result of a [strconv] parse: a value or the text of the error. *)
Inductive parsed (A : Type) : Type :=
| Parsed (v : A)
| ParseError (msg : string).
Arguments Parsed {A} v.
Arguments ParseError {A} msg.

End host.

(** ** Host language: [strconv]

    The parser and the evaluator take [strconv.ParseInt(s, 0, 64)] and
    [strconv.ParseFloat(s, 64)] as parameters.  The functions below
    instantiate them where a concrete run is needed. *)

Module strconv.
Import host.

Inductive NumError : Type := ErrSyntax | ErrRange.

Definition lower (c : byte) : Z := Z.lor (code c) 32.

Definition digitVal (c : byte) : option Z :=
  let n := code c in
  if between 48 57 n then Some (n - 48)
  else if between 97 122 (lower c) then Some (lower c - 97 + 10)
  else None.

(** The digit loop of [ParseUint] with [bitSize] 64; [base0] says that the
    base was inferred from the prefix, which allows underscores. *)
Fixpoint digitLoop (base : Z) (base0 : bool) (s : string) (n : Z)
    (underscores : bool) : NumError + Z * bool :=
  match s with
  | EmptyString => inr (n, underscores)
  | String c s' =>
      if Ascii.eqb c underscore && base0 then digitLoop base base0 s' n true
      else
        match digitVal c with
        | None => inl ErrSyntax
        | Some d =>
            if base <=? d then inl ErrSyntax
            else if (2 ^ 64 - 1) / base + 1 <=? n then inl ErrRange
            else
              let n1 := n * base + d in
              if 2 ^ 64 - 1 <? n1 then inl ErrRange
              else digitLoop base base0 s' n1 underscores
        end
  end.

(** [saw]: 0 at the beginning, 1 after a digit or base prefix, 2 after an
    underscore, 3 after anything else. *)
Fixpoint underscoreLoop (hex : bool) (s : string) (saw : Z) : bool :=
  match s with
  | EmptyString => negb (saw =? 2)
  | String c s' =>
      if between 48 57 (code c) || hex && between 97 102 (lower c) then
        underscoreLoop hex s' 1
      else if Ascii.eqb c underscore then
        if saw =? 1 then underscoreLoop hex s' 2 else false
      else if saw =? 2 then false
      else underscoreLoop hex s' 3
  end.

Definition is_sign (c : byte) : bool := (code c =? 43) || (code c =? 45).

Definition underscoreOK (s : string) : bool :=
  let s := match s with
           | String c s' => if is_sign c then s' else s
           | EmptyString => s
           end in
  match s with
  | String c0 (String c1 s') =>
      if (code c0 =? 48)
         && ((lower c1 =? 98) || (lower c1 =? 111) || (lower c1 =? 120))
      then underscoreLoop (lower c1 =? 120) s' 1
      else underscoreLoop false s 0
  | _ => underscoreLoop false s 0
  end.

(** [ParseUint(s, 0, 64)]. *)
Definition ParseUint (s : string) : NumError + Z :=
  match s with
  | EmptyString => inl ErrSyntax
  | String c0 rest =>
      let '(base, digits) :=
        if code c0 =? 48 then
          match rest with
          | String c1 rest' =>
              if (3 <=? len s) && (lower c1 =? 98) then (2, rest')
              else if (3 <=? len s) && (lower c1 =? 111) then (8, rest')
              else if (3 <=? len s) && (lower c1 =? 120) then (16, rest')
              else (8, rest)
          | EmptyString => (8, rest)
          end
        else (10, s) in
      match digitLoop base true digits 0 false with
      | inl e => inl e
      | inr (n, underscores) =>
          if underscores && negb (underscoreOK s) then inl ErrSyntax
          else inr n
      end
  end.

Definition errorText (fn s : string) (e : NumError) : string :=
  "strconv." +:+ fn +:+ ": parsing " +:+ quote s +:+ ": "
  +:+ match e with
      | ErrSyntax => "invalid syntax"
      | ErrRange => "value out of range"
      end.

(** [ParseInt(s, 0, 64)]. *)
Definition ParseInt (s0 : string) : parsed Z :=
  match s0 with
  | EmptyString => ParseError (errorText "ParseInt" s0 ErrSyntax)
  | String c rest =>
      let neg := code c =? 45 in
      let s := if is_sign c then rest else s0 in
      match ParseUint s with
      | inl e => ParseError (errorText "ParseInt" s0 e)
      | inr un =>
          if negb neg && (2 ^ 63 <=? un) then
            ParseError (errorText "ParseInt" s0 ErrRange)
          else if neg && (2 ^ 63 <? un) then
            ParseError (errorText "ParseInt" s0 ErrRange)
          else Parsed (if neg then - un else un)
      end
  end.

(** Plain decimals [[+-]digits[.digits]]: the mantissa and the number of
    digits after the point. *)
Fixpoint decimalLoop (s : string) (m : Z) (seen_dot : bool) (frac : Z)
    (ndigits : Z) : option (Z * Z) :=
  match s with
  | EmptyString => if 0 <? ndigits then Some (m, frac) else None
  | String c s' =>
      if between 48 57 (code c) then
        decimalLoop s' (m * 10 + (code c - 48)) seen_dot
          (if seen_dot then frac + 1 else frac) (ndigits + 1)
      else if Ascii.eqb c dot && negb seen_dot then
        decimalLoop s' m true frac ndigits
      else None
  end.

(** A function that agrees with [ParseFloat(s, 64)] on the plain decimals
    whose mantissa is below [2^53] and that have at most 22 digits after the
    point, where mantissa and power of ten are both exact and one division
    rounds correctly; everything else is reported as a syntax error.  It
    stands for [ParseFloat] in the examples only. *)
Definition ParseFloat_decimal (s0 : string) : parsed float :=
  let '(neg, s) :=
    match s0 with
    | String c rest => if is_sign c then (code c =? 45, rest) else (false, s0)
    | EmptyString => (false, s0)
    end in
  match decimalLoop s 0 false 0 0 with
  | Some (m, frac) =>
      if (m <? 2 ^ 53) && (frac <=? 22) then
        let f := PrimFloat.div (float64_of_int m) (float64_of_int (10 ^ frac)) in
        Parsed (if neg then PrimFloat.opp f else f)
      else ParseError (errorText "ParseFloat" s0 ErrSyntax)
  | None => ParseError (errorText "ParseFloat" s0 ErrSyntax)
  end.

End strconv.

(** ** Package [token] *)

Module token.

Definition TokenType := string.

Record Token := mkToken {
  Type_ : TokenType;
  Literal : string;
  Line : Z;
  Column : Z
}.

Definition ILLEGAL : TokenType := "ILLEGAL".
Definition EOF : TokenType := "EOF".
Definition IDENT : TokenType := "IDENT".
Definition NUMBER : TokenType := "NUMBER".
Definition STRING : TokenType := "STRING".
Definition TRUE : TokenType := "TRUE".
Definition FALSE : TokenType := "FALSE".
Definition LET : TokenType := "LET".
Definition FUNCTION : TokenType := "FUNCTION".
Definition CALL : TokenType := "CALL".
Definition IF_ : TokenType := "IF".
Definition ELSE : TokenType := "ELSE".
Definition ELSEIF : TokenType := "ELSEIF".
Definition ENDIF : TokenType := "ENDIF".
Definition WHILE : TokenType := "WHILE".
Definition ENDWHILE : TokenType := "ENDWHILE".
Definition FOREACH : TokenType := "FOREACH".
Definition IN : TokenType := "IN".
Definition ENDFOREACH : TokenType := "ENDFOREACH".
Definition PRINT : TokenType := "PRINT".
Definition INPUT : TokenType := "INPUT".
Definition ADD : TokenType := "ADD".
Definition SUBTRACT : TokenType := "SUBTRACT".
Definition MULTIPLY : TokenType := "MULTIPLY".
Definition DIVIDE : TokenType := "DIVIDE".
Definition AND : TokenType := "AND".
Definition OR : TokenType := "OR".
Definition NOT : TokenType := "NOT".
Definition EQUALS : TokenType := "EQUALS".
Definition NOTEQUALS : TokenType := "NOTEQUALS".
Definition GREATERTHAN : TokenType := "GREATERTHAN".
Definition LESSTHAN : TokenType := "LESSTHAN".
Definition GREATEREQUAL : TokenType := "GREATEREQUAL".
Definition LESSEQUAL : TokenType := "LESSEQUAL".
Definition THEN : TokenType := "THEN".
Definition DO : TokenType := "DO".
Definition END : TokenType := "END".
Definition LIST : TokenType := "LIST".
Definition FROM : TokenType := "FROM".
Definition INDEX : TokenType := "INDEX".
Definition ISDEFINED : TokenType := "ISDEFINED".
Definition EXIT : TokenType := "EXIT".
Definition RETURN : TokenType := "RETURN".
Definition CONVERTTONUMBER : TokenType := "CONVERTTONUMBER".
Definition CONVERTTOSTRING : TokenType := "CONVERTTOSTRING".
Definition BE : TokenType := "BE".
Definition ENDFUNCTION : TokenType := "ENDFUNCTION".
Definition COMMENT : TokenType := "COMMENT".

(** Modelled from the spec: the constant [token.GETITEMATINDEX] is used by
    the keyword table, the lexer and the parser but is not among the declared
    token kinds; the specification gives one kind per keyword phrase, and
    every declared kind is spelled like its name. *)
Definition GETITEMATINDEX : TokenType := "GETITEMATINDEX".

Definition keywords : gmap string TokenType :=
  list_to_map
    [ ("let", LET); ("function", FUNCTION); ("call", CALL); ("if", IF_);
      ("else", ELSE); ("elseif", ELSEIF); ("endif", ENDIF);
      ("while", WHILE); ("endwhile", ENDWHILE); ("foreach", FOREACH);
      ("in", IN); ("endforeach", ENDFOREACH); ("input", INPUT);
      ("add", ADD); ("sub", SUBTRACT); ("mult", MULTIPLY); ("div", DIVIDE);
      ("and", AND); ("or", OR); ("not", NOT); ("equals", EQUALS);
      ("notequals", NOTEQUALS); ("greater", GREATERTHAN);
      ("less", LESSTHAN); ("greater or equal", GREATEREQUAL);
      ("less or equal", LESSEQUAL); ("then", THEN); ("do", DO);
      ("end", END); ("list", LIST); ("get item at index", GETITEMATINDEX);
      ("from", FROM); ("index", INDEX); ("isdefined", ISDEFINED);
      ("exit", EXIT); ("return", RETURN);
      ("convert to number", CONVERTTONUMBER);
      ("convert to string", CONVERTTOSTRING); ("true", TRUE);
      ("false", FALSE); ("be", BE); ("endfunction", ENDFUNCTION) ].

Definition LookupIdent (ident : string) : TokenType :=
  match keywords !! ident with
  | Some tok => tok
  | None => IDENT
  end.

End token.

(** ** Package [lexer] *)

Module lexer.
Import host.

Record Lexer := mkLexer {
  input : string;
  position : Z;
  readPosition : Z;
  ch : byte;
  line : Z;
  column : Z;
  errors : list string
}.

Definition readChar (l : Lexer) : Lexer :=
  {| input := input l;
     position := readPosition l;
     readPosition := readPosition l + 1;
     ch := if readPosition l >=? len (input l) then NUL
           else index (input l) (readPosition l);
     line := line l;
     column := column l + 1;
     errors := errors l |}.

Definition New (inp : string) : Lexer :=
  readChar {| input := inp; position := 0; readPosition := 0; ch := NUL;
              line := 1; column := 1; errors := [] |}.

Definition peekChar (l : Lexer) : byte :=
  if readPosition l >=? len (input l) then NUL
  else index (input l) (readPosition l).

(** The scanning loops of the lexer all have the shape
    [for cond(l.ch) { pre; l.readChar() }]. *)
Fixpoint scan (cond : byte -> bool) (pre : Lexer -> Lexer) (fuel : nat)
    (l : Lexer) : Lexer :=
  if cond (ch l) then
    match fuel with
    | O => l
    | S fuel' => scan cond pre fuel' (readChar (pre l))
    end
  else l.

(** Every iteration reads one byte and the byte read past the end of the
    input is NUL, on which every loop condition of the lexer is false: the
    loops run at most [len(input) - readPosition + 1] times. *)
Definition scan_fuel (l : Lexer) : nat :=
  S (Z.to_nat (len (input l) - readPosition l)).

Definition bump_line (l : Lexer) : Lexer :=
  if Ascii.eqb (ch l) newline then
    {| input := input l; position := position l;
       readPosition := readPosition l; ch := ch l;
       line := line l + 1; column := 0; errors := errors l |}
  else l.

Definition skipWhitespace (l : Lexer) : Lexer :=
  scan IsSpace bump_line (scan_fuel l) l.

Definition no_pre (l : Lexer) : Lexer := l.

Definition is_ident_byte (c : byte) : bool :=
  IsLetter c || IsDigit c || Ascii.eqb c underscore.

Definition readIdentifier (l : Lexer) : string * Lexer :=
  let startPos := position l in
  let l' := scan is_ident_byte no_pre (scan_fuel l) l in
  (slice (input l') startPos (position l'), l').

Definition peekKeyword (keyword : string) (l : Lexer) : bool * Lexer :=
  let currentPos := position l in
  let currentReadPos := readPosition l in
  let currentColumn := column l in
  let currentChar := ch l in
  let l1 := skipWhitespace l in
  let startPos := position l1 in
  let l2 := scan IsLetter no_pre (scan_fuel l1) l1 in
  let peekedWord := slice (input l2) startPos (position l2) in
  (String.eqb peekedWord keyword,
   {| input := input l2; position := currentPos;
      readPosition := currentReadPos; ch := currentChar;
      line := line l2; column := currentColumn; errors := errors l2 |}).

Definition is_number_byte (c : byte) : bool :=
  IsDigit c || Ascii.eqb c dot.

Definition readNumber (l : Lexer) : token.Token * Lexer :=
  let startPos := position l in
  let l' := scan is_number_byte no_pre (scan_fuel l) l in
  let lit := slice (input l') startPos (position l') in
  (token.mkToken token.NUMBER lit (line l') (column l' - len lit + 1), l').

Definition in_string (c : byte) : bool :=
  negb (Ascii.eqb c dquote) && negb (Ascii.eqb c NUL).

Definition readString (l : Lexer) : token.Token * Lexer :=
  let startPos := position l + 1 in
  let l1 := readChar l in
  let l' := scan in_string no_pre (scan_fuel l1) l1 in
  let literal := slice (input l') startPos (position l') in
  (token.mkToken token.STRING literal (line l') (column l' - len literal - 1),
   l').

Definition in_comment (c : byte) : bool :=
  negb (Ascii.eqb c newline) && negb (Ascii.eqb c NUL).

Definition readComment (l : Lexer) : token.Token * Lexer :=
  let startPos := position l in
  let l' := scan in_comment no_pre (scan_fuel l) l in
  let literal := slice (input l') startPos (position l') in
  (token.mkToken token.COMMENT literal (line l') (column l' - len literal + 1),
   l').

Definition newToken (tokenType : token.TokenType) (c : byte) : token.Token :=
  token.mkToken tokenType (string_of_byte c) 0 0.

(** A keyword token positioned like the source does it:
    [Line: l.line, Column: l.column - len(text) + 1]. *)
Definition word (t : token.TokenType) (text : string) (l : Lexer)
    : token.Token * Lexer :=
  (token.mkToken t text (line l) (column l - len text + 1), l).

Definition multiWord (ident : string) (l : Lexer)
    : option (token.Token * Lexer) :=
  if String.eqb ident "greater" then
    let (b1, l1) := peekKeyword "or" l in
    if b1 then
      let (_, l2) := readIdentifier l1 in
      let (b2, l3) := peekKeyword "equal" l2 in
      if b2 then
        let (_, l4) := readIdentifier l3 in
        Some (word token.GREATEREQUAL "greater or equal" l4)
      else Some (word token.OR "or" l3)
    else
      let (b3, l2) := peekKeyword "than" l1 in
      if b3 then
        let (_, l3) := readIdentifier l2 in
        Some (word token.GREATERTHAN "greater than" l3)
      else Some (word token.GREATERTHAN "greater" l2)
  else if String.eqb ident "less" then
    let (b1, l1) := peekKeyword "or" l in
    if b1 then
      let (_, l2) := readIdentifier l1 in
      let (b2, l3) := peekKeyword "equal" l2 in
      if b2 then
        let (_, l4) := readIdentifier l3 in
        Some (word token.LESSEQUAL "less or equal" l4)
      else Some (word token.OR "or" l3)
    else
      let (b3, l2) := peekKeyword "than" l1 in
      if b3 then
        let (_, l3) := readIdentifier l2 in
        Some (word token.LESSTHAN "less than" l3)
      else Some (word token.LESSTHAN "less" l2)
  else if String.eqb ident "end" then
    let (b1, l1) := peekKeyword "if" l in
    if b1 then
      let (_, l2) := readIdentifier l1 in
      Some (word token.ENDIF "endif" l2)
    else
      let (b2, l2) := peekKeyword "while" l1 in
      if b2 then
        let (_, l3) := readIdentifier l2 in
        Some (word token.ENDWHILE "endwhile" l3)
      else
        let (b3, l3) := peekKeyword "foreach" l2 in
        if b3 then
          let (_, l4) := readIdentifier l3 in
          Some (word token.ENDFOREACH "endforeach" l4)
        else
          let (b4, l4) := peekKeyword "function" l3 in
          if b4 then
            let (_, l5) := readIdentifier l4 in
            Some (word token.ENDFUNCTION "end function" l5)
          else Some (word token.END "end" l4)
  else if String.eqb ident "get" then
    let (b1, l1) := peekKeyword "item" l in
    if b1 then
      let (_, l2) := readIdentifier l1 in
      let (b2, l3) := peekKeyword "at" l2 in
      if b2 then
        let (_, l4) := readIdentifier l3 in
        let (b3, l5) := peekKeyword "index" l4 in
        if b3 then
          let (_, l6) := readIdentifier l5 in
          Some (word token.GETITEMATINDEX "get item at index" l6)
        else Some (word token.GETITEMATINDEX "get" l5)
      else Some (word token.GETITEMATINDEX "get" l3)
    else Some (word token.GETITEMATINDEX "get" l1)
  else if String.eqb ident "is" then
    let (b1, l1) := peekKeyword "defined" l in
    if b1 then
      let (_, l2) := readIdentifier l1 in
      Some (word token.ISDEFINED "is defined" l2)
    else Some (word token.ISDEFINED "is" l1)
  else if String.eqb ident "convert" then
    let (b1, l1) := peekKeyword "to" l in
    if b1 then
      let (_, l2) := readIdentifier l1 in
      let (b2, l3) := peekKeyword "number" l2 in
      if b2 then
        let (_, l4) := readIdentifier l3 in
        Some (word token.CONVERTTONUMBER "convert to number" l4)
      else
        let (b3, l4) := peekKeyword "string" l3 in
        if b3 then
          let (_, l5) := readIdentifier l4 in
          Some (word token.CONVERTTOSTRING "convert to string" l5)
        else Some (word token.CONVERTTONUMBER "convert" l4)
    else Some (word token.CONVERTTONUMBER "convert" l1)
  else None.

(** [NextToken] calls itself after a comment; every comment holds at least
    its marker, so the input length bounds the depth. *)
Fixpoint NextToken_from (fuel : nat) (l0 : Lexer)
    : option (token.Token * Lexer) :=
  let l := skipWhitespace l0 in
  if Ascii.eqb (ch l) NUL then
    let tok := newToken token.EOF (ch l) in
    Some (token.mkToken (token.Type_ tok) (token.Literal tok)
            (line l) (column l), readChar l)
  else if Ascii.eqb (ch l) hash then
    match fuel with
    | O => None
    | S fuel' => NextToken_from fuel' (snd (readComment l))
    end
  else if Ascii.eqb (ch l) dquote then
    let (tok, l') := readString l in
    Some (tok, readChar l')
  else if IsLetter (ch l) then
    let (ident, l1) := readIdentifier l in
    match multiWord ident l1 with
    | Some r => Some r
    | None =>
        let tokType := token.LookupIdent ident in
        Some (token.mkToken tokType ident (line l1)
                (column l1 - len ident + 1), l1)
    end
  else if IsDigit (ch l) then Some (readNumber l)
  else
    let tok := newToken token.ILLEGAL (ch l) in
    Some (token.mkToken (token.Type_ tok) (token.Literal tok)
            (line l) (column l), readChar l).

Definition NextToken (l : Lexer) : option (token.Token * Lexer) :=
  NextToken_from (S (String.length (input l))) l.

Definition Errors (l : Lexer) : list string := errors l.

End lexer.

(** ** Package [ast] *)

Module ast.

(** [*ast.Identifier] and [*ast.StringLiteral] also occur as typed fields. *)
Record Identifier := mkIdentifier {
  id_Token : token.Token;
  id_Value : string
}.

Record StringLiteral := mkStringLiteral {
  sl_Token : token.Token;
  sl_Value : string
}.

(** The node structs, as the parser builds them.  [NilExpression] is the nil
    [ast.Expression] that the parser stores after a diagnostic, and the
    code of an [exit] without one.  [ElseBlock] and [Prompt] are tested
    against nil by the evaluator and are optional.  The other pointer
    fields, [Name] of a let statement, [Variable] of a for each statement,
    [Identifier] of [is defined], [ThenBlock], [Block] and [Body], are set
    by every parse method that returns the node, and are not optional here.
    A tree made by hand that leaves one of them nil, or that holds a nil
    pointer of a node type in an interface, has no counterpart in these
    types: what is said below about panics of the evaluator is said of
    trees that the parser returns. *)
#[local] Unset Elimination Schemes.
Inductive Expression : Type :=
| NilExpression
| IdentifierExpr (i : Identifier)
| IntegerLiteral (Token : token.Token) (Value : Z)
| FloatLiteral (Token : token.Token) (Value : float)
| StringLiteralExpr (s : StringLiteral)
| BooleanLiteral (Token : token.Token) (Value : bool)
| PrefixExpression (Token : token.Token) (Operator : string)
    (Right : Expression)
| InfixExpression (Token : token.Token) (Left : Expression)
    (Operator : string) (Right : Expression)
| FunctionLiteral (Token : token.Token) (Parameters : list Identifier)
    (Body : BlockStatement)
| CallExpression (Token : token.Token) (Function_ : Expression)
    (Arguments : list Expression)
| ListLiteral (Token : token.Token) (Elements : list Expression)
| GetItemAtIndexExpression (Token : token.Token) (List_ : Expression)
    (Index : Expression)
| IsDefinedExpression (Token : token.Token) (Ident : Identifier)
| ConvertToNumberExpression (Token : token.Token) (Expr : Expression)
| ConvertToStringExpression (Token : token.Token) (Expr : Expression)
with Statement : Type :=
| LetStatement (Token : token.Token) (Name : Identifier)
    (Value : Expression)
| ReturnStatement (Token : token.Token) (ReturnValue : Expression)
| ExpressionStatement (Token : token.Token) (Expr : Expression)
| IfStatement (Token : token.Token) (Condition : Expression)
    (ThenBlock : BlockStatement) (ElseIfBlocks : list ElseIfBlock)
    (ElseBlock : option BlockStatement)
| BlockStatementStmt (b : BlockStatement)
| WhileStatement (Token : token.Token) (Condition : Expression)
    (Body : BlockStatement)
| ForEachStatement (Token : token.Token) (Variable_ : Identifier)
    (Iterable : Expression) (Body : BlockStatement)
| PrintStatement (Token : token.Token) (Value : Expression)
| InputStatement (Token : token.Token) (Prompt : option StringLiteral)
| ExitStatement (Token : token.Token) (Code : Expression)
with BlockStatement : Type :=
| mkBlockStatement (Token : token.Token) (Statements : list Statement)
with ElseIfBlock : Type :=
| mkElseIfBlock (Condition : Expression) (Block : BlockStatement).
#[local] Set Elimination Schemes.

Definition block_Statements (b : BlockStatement) : list Statement :=
  match b with mkBlockStatement _ ss => ss end.

Record Program := mkProgram { Statements : list Statement }.

(** [every_expr P e]: [P] holds of [e] and of every expression inside it,
    through statements and blocks. *)
Fixpoint every_expr (P : Expression -> bool) (e : Expression) : bool :=
  P e &&
  match e with
  | PrefixExpression _ _ r => every_expr P r
  | InfixExpression _ l _ r => every_expr P l && every_expr P r
  | FunctionLiteral _ _ body => every_block P body
  | CallExpression _ f args => every_expr P f && forallb (every_expr P) args
  | ListLiteral _ elems => forallb (every_expr P) elems
  | GetItemAtIndexExpression _ l i => every_expr P l && every_expr P i
  | ConvertToNumberExpression _ x => every_expr P x
  | ConvertToStringExpression _ x => every_expr P x
  | _ => true
  end
with every_stmt (P : Expression -> bool) (s : Statement) : bool :=
  match s with
  | LetStatement _ _ v => every_expr P v
  | ReturnStatement _ v => every_expr P v
  | ExpressionStatement _ e => every_expr P e
  | IfStatement _ c t eifs els =>
      every_expr P c && every_block P t
      && forallb (every_elseif P) eifs
      && match els with
         | Some b => every_block P b
         | None => true
         end
  | BlockStatementStmt b => every_block P b
  | WhileStatement _ c b => every_expr P c && every_block P b
  | ForEachStatement _ _ it b => every_expr P it && every_block P b
  | PrintStatement _ v => every_expr P v
  | InputStatement _ _ => true
  | ExitStatement _ c => every_expr P c
  end
with every_block (P : Expression -> bool) (b : BlockStatement) : bool :=
  match b with
  | mkBlockStatement _ ss => forallb (every_stmt P) ss
  end
with every_elseif (P : Expression -> bool) (b : ElseIfBlock) : bool :=
  match b with
  | mkElseIfBlock c blk => every_expr P c && every_block P blk
  end.

Definition every_program (P : Expression -> bool) (p : Program) : bool :=
  forallb (every_stmt P) (Statements p).

Definition is_InfixExpression (e : Expression) : bool :=
  match e with InfixExpression _ _ _ _ => true | _ => false end.

Definition is_FloatLiteral (e : Expression) : bool :=
  match e with FloatLiteral _ _ => true | _ => false end.

Definition is_CallExpression (e : Expression) : bool :=
  match e with CallExpression _ _ _ => true | _ => false end.

Definition is_FunctionLiteral (e : Expression) : bool :=
  match e with FunctionLiteral _ _ _ => true | _ => false end.

Definition is_PrefixExpression (e : Expression) : bool :=
  match e with PrefixExpression _ _ _ => true | _ => false end.

(** The [ast.Node] interface, as far as [Eval] receives it. *)
Inductive Node : Type :=
| ProgramNode (p : Program)
| StatementNode (s : Statement)
| ExpressionNode (e : Expression).

End ast.

(** ** Package [parser] *)

Module parser.
Import host.

(** The parse methods that the tables of the parser can hold, by name. *)
Inductive prefixParseFn : Type :=
| fn_parseIdentifier
| fn_parseIntegerLiteral
| fn_parseFloatLiteral
| fn_parseStringLiteral
| fn_parseBoolean
| fn_parsePrefixExpression
| fn_parseGroupedExpression
| fn_parseFunctionStatement
| fn_parseListLiteral
| fn_parseGetItemAtIndexPrefix
| fn_parseIsDefinedExpression
| fn_parseConvertToNumberExpression
| fn_parseConvertToStringExpression.

Inductive infixParseFn : Type :=
| fn_parseInfixExpression
| fn_parseGetItemAtIndexExpression
| fn_parseGetItemAtIndexInfix
| fn_parseCallExpressionInfix.

Inductive statementParseFn : Type :=
| fn_parseLetStatement
| fn_parseIfStatement
| fn_parsePrintStatement
| fn_parseWhileStatement
| fn_parseForEachStatement
| fn_parseReturnStatement
| fn_parseExitStatement
| fn_parseInputStatement.

Record Parser := mkParser {
  l : lexer.Lexer;
  curToken : token.Token;
  peekToken : token.Token;
  errors : list string;
  prefixParseFns : gmap token.TokenType prefixParseFn;
  infixParseFns : gmap token.TokenType infixParseFn;
  statementParseFns : gmap token.TokenType statementParseFn
}.

(** Parser methods: state passing over the parser; [None] when the fuel of a
    loop or of the recursion is used up. *)
Definition P (A : Type) : Type := Parser -> option (A * Parser).

Definition ret {A : Type} (a : A) : P A := fun p => Some (a, p).

Definition bind {A B : Type} (m : P A) (k : A -> P B) : P B :=
  fun p => match m p with
           | Some (a, p') => k a p'
           | None => None
           end.

Definition get : P Parser := fun p => Some (p, p).

Definition stop {A : Type} : P A := fun _ => None.

#[global] Instance P_ret : MRet P := @ret.
#[global] Instance P_bind : MBind P := fun A B k m => bind m k.

Definition set_errors (es : list string) (p : Parser) : Parser :=
  mkParser (l p) (curToken p) (peekToken p) es (prefixParseFns p)
    (infixParseFns p) (statementParseFns p).

Definition addError (msg : string) : P unit :=
  fun p => Some (tt, set_errors (errors p ++ [msg]) p).

Definition registerPrefix (tokenType : token.TokenType) (fn : prefixParseFn)
    (p : Parser) : Parser :=
  mkParser (l p) (curToken p) (peekToken p) (errors p)
    (<[tokenType := fn]> (prefixParseFns p)) (infixParseFns p)
    (statementParseFns p).

Definition registerInfix (tokenType : token.TokenType) (fn : infixParseFn)
    (p : Parser) : Parser :=
  mkParser (l p) (curToken p) (peekToken p) (errors p) (prefixParseFns p)
    (<[tokenType := fn]> (infixParseFns p)) (statementParseFns p).

Definition registerStatement (tokenType : token.TokenType)
    (fn : statementParseFn) (p : Parser) : Parser :=
  mkParser (l p) (curToken p) (peekToken p) (errors p) (prefixParseFns p)
    (infixParseFns p) (<[tokenType := fn]> (statementParseFns p)).

Definition registerParseFunctions (p : Parser) : Parser :=
  let p := mkParser (l p) (curToken p) (peekToken p) (errors p) ∅ ∅
             (statementParseFns p) in
  let p := registerPrefix token.IDENT fn_parseIdentifier p in
  let p := registerPrefix token.NUMBER fn_parseIntegerLiteral p in
  let p := registerPrefix token.STRING fn_parseStringLiteral p in
  let p := registerPrefix token.TRUE fn_parseBoolean p in
  let p := registerPrefix token.FALSE fn_parseBoolean p in
  let p := registerPrefix token.FUNCTION fn_parseFunctionStatement p in
  let p := registerPrefix token.LIST fn_parseListLiteral p in
  let p := registerPrefix token.GETITEMATINDEX fn_parseGetItemAtIndexPrefix p in
  let p := registerPrefix token.ISDEFINED fn_parseIsDefinedExpression p in
  let p := registerPrefix token.CONVERTTONUMBER
             fn_parseConvertToNumberExpression p in
  let p := registerPrefix token.CONVERTTOSTRING
             fn_parseConvertToStringExpression p in
  let p := registerStatement token.LET fn_parseLetStatement p in
  let p := registerStatement token.IF_ fn_parseIfStatement p in
  let p := registerStatement token.PRINT fn_parsePrintStatement p in
  let p := registerStatement token.WHILE fn_parseWhileStatement p in
  let p := registerStatement token.FOREACH fn_parseForEachStatement p in
  let p := registerStatement token.RETURN fn_parseReturnStatement p in
  let p := registerStatement token.EXIT fn_parseExitStatement p in
  registerStatement token.INPUT fn_parseInputStatement p.

Definition nextToken : P unit :=
  fun p =>
    match lexer.NextToken (l p) with
    | Some (tok, l') =>
        Some (tt, mkParser l' (peekToken p) tok (errors p)
                    (prefixParseFns p) (infixParseFns p)
                    (statementParseFns p))
    | None => None
    end.

Definition zeroToken : token.Token := token.mkToken "" "" 0 0.

(** The tables after [registerParseFunctions]; no method changes them. *)
Definition prefixTable : gmap token.TokenType prefixParseFn :=
  prefixParseFns
    (registerParseFunctions
       (mkParser (lexer.New "") zeroToken zeroToken [] ∅ ∅ ∅)).

Definition statementTable : gmap token.TokenType statementParseFn :=
  statementParseFns
    (registerParseFunctions
       (mkParser (lexer.New "") zeroToken zeroToken [] ∅ ∅ ∅)).

Definition registered (p : Parser) : Prop :=
  prefixParseFns p = prefixTable /\ infixParseFns p = ∅
  /\ statementParseFns p = statementTable.

Definition New (lx : lexer.Lexer) : option Parser :=
  let p := mkParser lx zeroToken zeroToken [] ∅ ∅ ∅ in
  let p := registerParseFunctions p in
  match (nextToken;; nextToken) p with
  | Some (_, p') => Some p'
  | None => None
  end.

Definition curTokenIs (p : Parser) (t : token.TokenType) : bool :=
  String.eqb (token.Type_ (curToken p)) t.

Definition peekTokenIs (p : Parser) (t : token.TokenType) : bool :=
  String.eqb (token.Type_ (peekToken p)) t.

Definition peekError (t : token.TokenType) : P unit :=
  p ← get;
  addError ("expected next token to be " +:+ t +:+ ", got "
            +:+ token.Type_ (peekToken p) +:+ " instead at line "
            +:+ itoa (token.Line (peekToken p)) +:+ ", column "
            +:+ itoa (token.Column (peekToken p))).

Definition expectPeek (t : token.TokenType) : P bool :=
  p ← get;
  if peekTokenIs p t then nextToken;; ret true
  else peekError t;; ret false.

Definition LOWEST : Z := 1.
Definition EQUALS_PREC : Z := 2.
Definition LESSGREATER_PREC : Z := 3.
Definition SUM_PREC : Z := 4.
Definition PRODUCT_PREC : Z := 5.
Definition PREFIX_PREC : Z := 6.
Definition CALL_PREC : Z := 7.
Definition INDEX_PREC : Z := 8.

Definition precedence : gmap token.TokenType Z :=
  list_to_map
    [ (token.EQUALS, EQUALS_PREC); (token.NOTEQUALS, EQUALS_PREC);
      (token.GREATERTHAN, LESSGREATER_PREC);
      (token.LESSTHAN, LESSGREATER_PREC);
      (token.GREATEREQUAL, LESSGREATER_PREC);
      (token.LESSEQUAL, LESSGREATER_PREC); (token.ADD, SUM_PREC);
      (token.SUBTRACT, SUM_PREC); (token.MULTIPLY, PRODUCT_PREC);
      (token.DIVIDE, PRODUCT_PREC); (token.OR, EQUALS_PREC);
      (token.AND, EQUALS_PREC); (token.CALL, CALL_PREC);
      (token.GETITEMATINDEX, INDEX_PREC) ].

Definition peekPrecedence (p : Parser) : Z :=
  match precedence !! token.Type_ (peekToken p) with
  | Some v => v
  | None => LOWEST
  end.

Definition curPrecedence (p : Parser) : Z :=
  match precedence !! token.Type_ (curToken p) with
  | Some v => v
  | None => LOWEST
  end.

Definition noPrefixParseFnError (t : token.TokenType) : P unit :=
  p ← get;
  addError ("no prefix parse function for " +:+ t +:+ " found at line "
            +:+ itoa (token.Line (curToken p)) +:+ ", column "
            +:+ itoa (token.Column (curToken p))).

Definition Errors (p : Parser) : list string := errors p.

Definition identOfCur (p : Parser) : ast.Identifier :=
  ast.mkIdentifier (curToken p) (token.Literal (curToken p)).

(** The parse methods call each other through [parseStatement] and
    [parseExpression]; these two are section variables here and are tied
    into a recursion on fuel below.  [fuel] also bounds each loop.  A
    statement method answers [None] where the source returns nil.  The
    lines that [parseLetStatement] prints while it runs are left out. *)
Section Methods.

(** [strconv.ParseInt(s, 0, 64)] and [strconv.ParseFloat(s, 64)]. *)
Variable ParseInt : string -> parsed Z.
Variable ParseFloat : string -> parsed float.

Variable parseStatement_ : P (option ast.Statement).
Variable parseExpression_ : Z -> P ast.Expression.
Variable fuel : nat.

Definition parseLetStatement : P (option ast.Statement) :=
  p ← get;
  let tok := curToken p in
  ok ← expectPeek token.IDENT;
  if negb ok then ret None
  else
    p ← get;
    let name := identOfCur p in
    ok ← expectPeek token.BE;
    if negb ok then ret None
    else
      nextToken;;
      v ← parseExpression_ LOWEST;
      ret (Some (ast.LetStatement tok name v)).

Definition parseReturnStatement : P (option ast.Statement) :=
  p ← get;
  let tok := curToken p in
  nextToken;;
  v ← parseExpression_ LOWEST;
  ret (Some (ast.ReturnStatement tok v)).

Definition parseExpressionStatement : P ast.Statement :=
  p ← get;
  let tok := curToken p in
  e ← parseExpression_ LOWEST;
  ret (ast.ExpressionStatement tok e).

Definition parseIdentifier : P ast.Expression :=
  p ← get;
  ret (ast.IdentifierExpr (identOfCur p)).

Definition parseIntegerLiteral : P ast.Expression :=
  p ← get;
  match ParseInt (token.Literal (curToken p)) with
  | ParseError _ =>
      addError ("could not parse " +:+ quote (token.Literal (curToken p))
                +:+ " as integer at line "
                +:+ itoa (token.Line (curToken p)) +:+ ", column "
                +:+ itoa (token.Column (curToken p)));;
      ret ast.NilExpression
  | Parsed value => ret (ast.IntegerLiteral (curToken p) value)
  end.

Definition parseFloatLiteral : P ast.Expression :=
  p ← get;
  match ParseFloat (token.Literal (curToken p)) with
  | ParseError _ =>
      addError ("could not parse " +:+ quote (token.Literal (curToken p))
                +:+ " as float at line "
                +:+ itoa (token.Line (curToken p)) +:+ ", column "
                +:+ itoa (token.Column (curToken p)));;
      ret ast.NilExpression
  | Parsed value => ret (ast.FloatLiteral (curToken p) value)
  end.

Definition parseStringLiteralStruct : P ast.StringLiteral :=
  p ← get;
  ret (ast.mkStringLiteral (curToken p) (token.Literal (curToken p))).

Definition parseStringLiteral : P ast.Expression :=
  sl ← parseStringLiteralStruct;
  ret (ast.StringLiteralExpr sl).

Definition parseBoolean : P ast.Expression :=
  p ← get;
  ret (ast.BooleanLiteral (curToken p) (curTokenIs p token.TRUE)).

Definition parsePrefixExpression : P ast.Expression :=
  p ← get;
  let tok := curToken p in
  nextToken;;
  right ← parseExpression_ PREFIX_PREC;
  ret (ast.PrefixExpression tok (token.Literal tok) right).

Definition parseInfixExpression (left : ast.Expression) : P ast.Expression :=
  p ← get;
  let tok := curToken p in
  let precedence := curPrecedence p in
  nextToken;;
  right ← parseExpression_ precedence;
  ret (ast.InfixExpression tok left (token.Literal tok) right).

Definition parseGroupedExpression : P ast.Expression :=
  nextToken;;
  parseExpression_ LOWEST.

Definition appendStmt (acc : list ast.Statement) (stmt : option ast.Statement)
    : list ast.Statement :=
  match stmt with
  | Some s => acc ++ [s]
  | None => acc
  end.

Definition blockEnds (p : Parser) : bool :=
  curTokenIs p token.ENDIF || curTokenIs p token.ELSE
  || curTokenIs p token.ELSEIF || curTokenIs p token.ENDWHILE
  || curTokenIs p token.ENDFOREACH || curTokenIs p token.END
  || curTokenIs p token.EOF.

Fixpoint blockLoop (n : nat) (acc : list ast.Statement)
    : P (list ast.Statement) :=
  p ← get;
  if blockEnds p then ret acc
  else
    match n with
    | O => stop
    | S n' =>
        stmt ← parseStatement_;
        nextToken;;
        blockLoop n' (appendStmt acc stmt)
    end.

Definition parseBlockStatement : P ast.BlockStatement :=
  p ← get;
  let tok := curToken p in
  nextToken;;
  stmts ← blockLoop fuel [];
  ret (ast.mkBlockStatement tok stmts).

(** The [elseif] loop; [None] where the source returns nil from inside. *)
Fixpoint elseifLoop (n : nat) (acc : list ast.ElseIfBlock)
    : P (option (list ast.ElseIfBlock)) :=
  p ← get;
  if peekTokenIs p token.ELSEIF then
    match n with
    | O => stop
    | S n' =>
        nextToken;;
        cond ← parseExpression_ LOWEST;
        ok ← expectPeek token.THEN;
        if negb ok then ret None
        else
          blk ← parseBlockStatement;
          elseifLoop n' (acc ++ [ast.mkElseIfBlock cond blk])
    end
  else ret (Some acc).

Definition parseIfStatement : P (option ast.Statement) :=
  p ← get;
  let tok := curToken p in
  nextToken;;
  cond ← parseExpression_ LOWEST;
  ok ← expectPeek token.THEN;
  if negb ok then ret None
  else
    thenBlock ← parseBlockStatement;
    branches ← elseifLoop fuel [];
    match branches with
    | None => ret None
    | Some elseIfBlocks =>
        p ← get;
        elseBlock ← (if peekTokenIs p token.ELSE then
                       nextToken;;
                       blk ← parseBlockStatement;
                       ret (Some blk)
                     else ret None);
        ok ← expectPeek token.ENDIF;
        if negb ok then ret None
        else ret (Some (ast.IfStatement tok cond thenBlock elseIfBlocks
                          elseBlock))
    end.

Definition parseWhileStatement : P (option ast.Statement) :=
  p ← get;
  let tok := curToken p in
  nextToken;;
  cond ← parseExpression_ LOWEST;
  ok ← expectPeek token.DO;
  if negb ok then ret None
  else
    body ← parseBlockStatement;
    ok ← expectPeek token.ENDWHILE;
    if negb ok then ret None
    else ret (Some (ast.WhileStatement tok cond body)).

Definition parseForEachStatement : P (option ast.Statement) :=
  p ← get;
  let tok := curToken p in
  ok ← expectPeek token.IDENT;
  if negb ok then ret None
  else
    p ← get;
    let variable := identOfCur p in
    ok ← expectPeek token.IN;
    if negb ok then ret None
    else
      nextToken;;
      iterable ← parseExpression_ LOWEST;
      ok ← expectPeek token.DO;
      if negb ok then ret None
      else
        body ← parseBlockStatement;
        ok ← expectPeek token.ENDFOREACH;
        if negb ok then ret None
        else ret (Some (ast.ForEachStatement tok variable iterable body)).

Fixpoint paramLoop (n : nat) (acc : list ast.Identifier)
    : P (list ast.Identifier) :=
  p ← get;
  if peekTokenIs p token.IDENT then
    match n with
    | O => stop
    | S n' =>
        nextToken;;
        p ← get;
        paramLoop n' (acc ++ [identOfCur p])
    end
  else ret acc.

Definition parseFunctionParameters : P (list ast.Identifier) :=
  p ← get;
  if negb (curTokenIs p token.IDENT) then ret []
  else paramLoop fuel [identOfCur p].

Definition parseFunctionStatement : P ast.Expression :=
  p ← get;
  let tok := curToken p in
  params ← (if peekTokenIs p token.IDENT then
              nextToken;;
              parseFunctionParameters
            else ret []);
  body ← parseBlockStatement;
  ok ← expectPeek token.ENDFUNCTION;
  if (ok : bool) then ret (ast.FunctionLiteral tok params body)
  else
    ok ← expectPeek token.END;
    if (ok : bool) then ret (ast.FunctionLiteral tok params body)
    else ret ast.NilExpression.

Definition startsArgument (p : Parser) : bool :=
  peekTokenIs p token.IDENT || peekTokenIs p token.NUMBER
  || peekTokenIs p token.STRING || peekTokenIs p token.TRUE
  || peekTokenIs p token.FALSE || peekTokenIs p token.LIST
  || peekTokenIs p token.GETITEMATINDEX
  || peekTokenIs p token.CONVERTTONUMBER
  || peekTokenIs p token.CONVERTTOSTRING.

Fixpoint argLoop (n : nat) (acc : list ast.Expression)
    : P (list ast.Expression) :=
  p ← get;
  if startsArgument p then
    match n with
    | O => stop
    | S n' =>
        nextToken;;
        e ← parseExpression_ LOWEST;
        argLoop n' (acc ++ [e])
    end
  else ret acc.

Definition parseCallArguments : P (list ast.Expression) :=
  p ← get;
  if peekTokenIs p token.END then nextToken;; ret []
  else
    nextToken;;
    e ← parseExpression_ LOWEST;
    argLoop fuel [e].

Definition parseCallStatement : P ast.Expression :=
  p ← get;
  let tok := curToken p in
  nextToken;;
  function ← parseExpression_ CALL_PREC;
  arguments ← parseCallArguments;
  ret (ast.CallExpression tok function arguments).

Definition parsePrintStatement : P (option ast.Statement) :=
  p ← get;
  let tok := curToken p in
  nextToken;;
  v ← parseExpression_ LOWEST;
  ret (Some (ast.PrintStatement tok v)).

Definition parseInputStatement : P (option ast.Statement) :=
  p ← get;
  let tok := curToken p in
  if peekTokenIs p token.STRING then
    nextToken;;
    sl ← parseStringLiteralStruct;
    ret (Some (ast.InputStatement tok (Some sl)))
  else ret (Some (ast.InputStatement tok None)).

Definition parseListLiteral : P ast.Expression :=
  p ← get;
  let tok := curToken p in
  if peekTokenIs p token.END then nextToken;; ret (ast.ListLiteral tok [])
  else
    nextToken;;
    e ← parseExpression_ LOWEST;
    elements ← argLoop fuel [e];
    ret (ast.ListLiteral tok elements).

Definition parseGetItemAtIndexExpression (list : ast.Expression)
    : P ast.Expression :=
  p ← get;
  let tok := curToken p in
  ok ← expectPeek token.INDEX;
  if negb ok then ret ast.NilExpression
  else
    nextToken;;
    index ← parseExpression_ LOWEST;
    ok ← expectPeek token.FROM;
    if negb ok then ret ast.NilExpression
    else nextToken;; ret (ast.GetItemAtIndexExpression tok list index).

Definition parseIsDefinedExpression : P ast.Expression :=
  p ← get;
  let tok := curToken p in
  ok ← expectPeek token.IDENT;
  if negb ok then ret ast.NilExpression
  else
    p ← get;
    ret (ast.IsDefinedExpression tok (identOfCur p)).

Definition parseExitStatement : P (option ast.Statement) :=
  p ← get;
  let tok := curToken p in
  if negb (peekTokenIs p token.END) && negb (peekTokenIs p token.EOF) then
    nextToken;;
    code ← parseExpression_ LOWEST;
    ret (Some (ast.ExitStatement tok code))
  else ret (Some (ast.ExitStatement tok ast.NilExpression)).

Definition parseConvertToNumberExpression : P ast.Expression :=
  p ← get;
  let tok := curToken p in
  nextToken;;
  e ← parseExpression_ LOWEST;
  ret (ast.ConvertToNumberExpression tok e).

Definition parseConvertToStringExpression : P ast.Expression :=
  p ← get;
  let tok := curToken p in
  nextToken;;
  e ← parseExpression_ LOWEST;
  ret (ast.ConvertToStringExpression tok e).

Definition parseGetItemAtIndexPrefix : P ast.Expression :=
  nextToken;;
  indexExp ← parseExpression_ LOWEST;
  ok ← expectPeek token.FROM;
  if negb ok then ret ast.NilExpression
  else
    nextToken;;
    listExp ← parseExpression_ LOWEST;
    p ← get;
    ret (ast.GetItemAtIndexExpression (curToken p) listExp indexExp).

Definition parseGetItemAtIndexInfix (left : ast.Expression)
    : P ast.Expression :=
  parseGetItemAtIndexExpression left.

Definition parseCallExpressionInfix (function : ast.Expression)
    : P ast.Expression :=
  p ← get;
  let tok := curToken p in
  arguments ← parseCallArguments;
  ret (ast.CallExpression tok function arguments).

(** Calling a method value taken from a table. *)
Definition callPrefix (fn : prefixParseFn) : P ast.Expression :=
  match fn with
  | fn_parseIdentifier => parseIdentifier
  | fn_parseIntegerLiteral => parseIntegerLiteral
  | fn_parseFloatLiteral => parseFloatLiteral
  | fn_parseStringLiteral => parseStringLiteral
  | fn_parseBoolean => parseBoolean
  | fn_parsePrefixExpression => parsePrefixExpression
  | fn_parseGroupedExpression => parseGroupedExpression
  | fn_parseFunctionStatement => parseFunctionStatement
  | fn_parseListLiteral => parseListLiteral
  | fn_parseGetItemAtIndexPrefix => parseGetItemAtIndexPrefix
  | fn_parseIsDefinedExpression => parseIsDefinedExpression
  | fn_parseConvertToNumberExpression => parseConvertToNumberExpression
  | fn_parseConvertToStringExpression => parseConvertToStringExpression
  end.

Definition callInfix (fn : infixParseFn) (left : ast.Expression)
    : P ast.Expression :=
  match fn with
  | fn_parseInfixExpression => parseInfixExpression left
  | fn_parseGetItemAtIndexExpression => parseGetItemAtIndexExpression left
  | fn_parseGetItemAtIndexInfix => parseGetItemAtIndexInfix left
  | fn_parseCallExpressionInfix => parseCallExpressionInfix left
  end.

Definition callStatement (fn : statementParseFn) : P (option ast.Statement) :=
  match fn with
  | fn_parseLetStatement => parseLetStatement
  | fn_parseIfStatement => parseIfStatement
  | fn_parsePrintStatement => parsePrintStatement
  | fn_parseWhileStatement => parseWhileStatement
  | fn_parseForEachStatement => parseForEachStatement
  | fn_parseReturnStatement => parseReturnStatement
  | fn_parseExitStatement => parseExitStatement
  | fn_parseInputStatement => parseInputStatement
  end.

(** The body of [parseExpression(precedence)]: the prefix method of the
    current token, and nothing after it. *)
Definition parseExpression_body (precedence : Z) : P ast.Expression :=
  p ← get;
  match prefixParseFns p !! token.Type_ (curToken p) with
  | None =>
      noPrefixParseFnError (token.Type_ (curToken p));;
      ret ast.NilExpression
  | Some prefixFn =>
      leftExp ← callPrefix prefixFn;
      ret leftExp
  end.

Definition parseStatement_body : P (option ast.Statement) :=
  p ← get;
  match statementParseFns p !! token.Type_ (curToken p) with
  | Some parseStatementFn => callStatement parseStatementFn
  | None =>
      stmt ← parseExpressionStatement;
      ret (Some stmt)
  end.

End Methods.

Section Recursion.

Variable ParseInt : string -> parsed Z.
Variable ParseFloat : string -> parsed float.

Fixpoint parseStatement (fuel : nat) : P (option ast.Statement) :=
  match fuel with
  | O => stop
  | S fuel' =>
      parseStatement_body (parseStatement fuel') (parseExpression fuel')
        fuel'
  end
with parseExpression (fuel : nat) (precedence : Z) : P ast.Expression :=
  match fuel with
  | O => stop
  | S fuel' =>
      parseExpression_body ParseInt ParseFloat (parseStatement fuel')
        (parseExpression fuel') fuel' precedence
  end.

Fixpoint programLoop (fuel n : nat) (acc : list ast.Statement)
    : P (list ast.Statement) :=
  p ← get;
  if curTokenIs p token.EOF then ret acc
  else
    match n with
    | O => stop
    | S n' =>
        stmt ← parseStatement fuel;
        nextToken;;
        programLoop fuel n' (appendStmt acc stmt)
    end.

Definition ParseProgram (fuel : nat) : P ast.Program :=
  stmts ← programLoop fuel fuel [];
  ret (ast.mkProgram stmts).

End Recursion.

End parser.

(** ** Package [object] *)

Module object.
Import host.

Definition ObjectType := string.

Definition INTEGER_OBJ : ObjectType := "INTEGER".
Definition FLOAT_OBJ : ObjectType := "FLOAT".
Definition BOOLEAN_OBJ : ObjectType := "BOOLEAN".
Definition STRING_OBJ : ObjectType := "STRING".
Definition NULL_OBJ : ObjectType := "NULL".
Definition RETURN_VALUE_OBJ : ObjectType := "RETURN_VALUE".
Definition ERROR_OBJ : ObjectType := "ERROR".
Definition LIST_OBJ : ObjectType := "LIST".

(** An address of the host heap. *)
Definition addr := Z.

(** A value of the interface [object.Object]: nil, or a pointer to one of
    the object structs.  The pointer is the address [ptr] together with the
    struct it points to; no object is modified after its allocation. *)
#[local] Unset Elimination Schemes.
Inductive Object : Type :=
| nil
| Integer (ptr : addr) (Value : Z)
| Float (ptr : addr) (Value : float)
| Boolean (ptr : addr) (Value : bool)
| String_ (ptr : addr) (Value : string)
| Null (ptr : addr)
| ReturnValue (ptr : addr) (Value : Object)
| Error (ptr : addr) (Message : string)
| List (ptr : addr) (Elements : list Object).
#[local] Set Elimination Schemes.

(** [o.Type()]; [None] is the panic of a method call on nil. *)
Definition Type_ (o : Object) : option ObjectType :=
  match o with
  | nil => None
  | Integer _ _ => Some INTEGER_OBJ
  | Float _ _ => Some FLOAT_OBJ
  | Boolean _ _ => Some BOOLEAN_OBJ
  | String_ _ _ => Some STRING_OBJ
  | Null _ => Some NULL_OBJ
  | ReturnValue _ _ => Some RETURN_VALUE_OBJ
  | Error _ _ => Some ERROR_OBJ
  | List _ _ => Some LIST_OBJ
  end.

(** [o.Inspect()], the display rendering; [None] is the panic of a method
    call on nil. *)
Fixpoint Inspect (o : Object) : option string :=
  match o with
  | nil => None
  | Integer _ v => Some (itoa v)
  | Float _ v => Some (fmt_f v)
  | Boolean _ v => Some (fmt_t v)
  | String_ _ v => Some v
  | Null _ => Some "null"
  | ReturnValue _ v => Inspect v
  | Error _ m => Some ("ERROR: " +:+ m)
  | List _ elems =>
      let fix all (es : list Object) : option (list string) :=
        match es with
        | [] => Some []
        | e :: rest =>
            match Inspect e, all rest with
            | Some x, Some xs => Some (x :: xs)
            | _, _ => None
            end
        end in
      match all elems with
      | Some elements => Some ("[" +:+ Join elements ", " +:+ "]")
      | None => None
      end
  end.

(** [a == b] on interface values: the same dynamic type and the same
    pointer. *)
Definition same (a b : Object) : bool :=
  match a, b with
  | nil, nil => true
  | Integer p _, Integer q _ => p =? q
  | Float p _, Float q _ => p =? q
  | Boolean p _, Boolean q _ => p =? q
  | String_ p _, String_ q _ => p =? q
  | Null p, Null q => p =? q
  | ReturnValue p _, ReturnValue q _ => p =? q
  | Error p _, Error q _ => p =? q
  | List p _, List q _ => p =? q
  | _, _ => false
  end.

(** The predefined objects, allocated once when the package is loaded. *)
Definition TRUE : Object := Boolean 0 true.
Definition FALSE : Object := Boolean 1 false.
Definition NULL : Object := Null 2.

(** The first address that later allocations use. *)
Definition first_free : addr := 3.

End object.

(** ** Package [interpreter] *)

Module interpreter.
Import host.
Import object.

(** A [*Environment] is an index into the frames allocated so far. *)
Definition envptr := nat.

Record Environment := mkEnvironment {
  store : gmap string Object;
  outer : option envptr
}.

(** What the evaluator acts on: the frames, the next free object address,
    what was written to standard output, and the words that successive
    [fmt.Scanln] calls will read. *)
Record State := mkState {
  envs : list Environment;
  next : addr;
  stdout : list string;
  stdin : list string
}.

(** Outcomes: a result, a host panic, [os.Exit], or loop fuel used up. *)
Inductive Res (A : Type) : Type :=
| Done (a : A) (st : State)
| Panic (msg : string)
| Exited (code : Z) (st : State)
| OutOfFuel.
Arguments Done {A} a st.
Arguments Panic {A} msg.
Arguments Exited {A} code st.
Arguments OutOfFuel {A}.

Definition M (A : Type) : Type := State -> Res A.

Definition ret {A : Type} (a : A) : M A := fun st => Done a st.

Definition bind {A B : Type} (m : M A) (k : A -> M B) : M B :=
  fun st => match m st with
            | Done a st' => k a st'
            | Panic msg => Panic msg
            | Exited code st' => Exited code st'
            | OutOfFuel => OutOfFuel
            end.

#[global] Instance M_ret : MRet M := @ret.
#[global] Instance M_bind : MBind M := fun A B k m => bind m k.

Definition panic {A : Type} (msg : string) : M A := fun _ => Panic msg.
Definition out_of_fuel {A : Type} : M A := fun _ => OutOfFuel.

Definition os_Exit {A : Type} (code : Z) : M A := fun st => Exited code st.

Definition nil_dereference : string :=
  "invalid memory address or nil pointer dereference".
Definition bad_conversion : string := "interface conversion".

(** Allocation of an object: [&object.T{...}]. *)
Definition alloc (mk : addr -> Object) : M Object :=
  fun st => Done (mk (next st))
              (mkState (envs st) (next st + 1) (stdout st) (stdin st)).

Definition NewError (msg : string) : M Object :=
  alloc (fun a => Error a msg).

(** [fmt.Print] and [fmt.Println] of one string. *)
Definition Print (s : string) : M unit :=
  fun st => Done tt (mkState (envs st) (next st) (stdout st ++ [s]) (stdin st)).

Definition Println (s : string) : M unit :=
  Print (s +:+ String newline EmptyString).

(** [fmt.Scanln(&input)]: the next word, or nothing at the end of input. *)
Definition Scanln : M string :=
  fun st => match stdin st with
            | [] => Done "" st
            | w :: rest =>
                Done w (mkState (envs st) (next st) (stdout st) rest)
            end.

Definition NewEnvironment : M envptr :=
  fun st => Done (length (envs st))
              (mkState (envs st ++ [mkEnvironment ∅ None]) (next st)
                 (stdout st) (stdin st)).

Definition NewEnclosedEnvironment (outer : envptr) : M envptr :=
  fun st => Done (length (envs st))
              (mkState (envs st ++ [mkEnvironment ∅ (Some outer)]) (next st)
                 (stdout st) (stdin st)).

(** [e.Get(name)]; the recursion follows the [outer] pointers, which lead
    to frames allocated earlier. *)
Fixpoint Get_from (fuel : nat) (e : envptr) (name : string)
    : M (Object * bool) :=
  fun st =>
    match envs st !! e with
    | None => Panic nil_dereference
    | Some frame =>
        match store frame !! name with
        | Some obj => Done (obj, true) st
        | None =>
            match outer frame with
            | None => Done (nil, false) st
            | Some o =>
                match fuel with
                | O => OutOfFuel
                | S fuel' => Get_from fuel' o name st
                end
            end
        end
    end.

Definition Get (e : envptr) (name : string) : M (Object * bool) :=
  fun st => Get_from (length (envs st)) e name st.

Definition Set_ (e : envptr) (name : string) (val : Object) : M Object :=
  fun st =>
    match envs st !! e with
    | None => Panic nil_dereference
    | Some frame =>
        Done val
          (mkState
             (<[e := mkEnvironment (<[name := val]> (store frame))
                       (outer frame)]> (envs st))
             (next st) (stdout st) (stdin st))
    end.

(** Method calls and type assertions on an interface value. *)
Definition TypeOf (o : Object) : M ObjectType :=
  match Type_ o with
  | Some t => ret t
  | None => panic nil_dereference
  end.

Definition InspectOf (o : Object) : M string :=
  match Inspect o with
  | Some s => ret s
  | None => panic nil_dereference
  end.

Definition asInteger (o : Object) : M Z :=
  match o with
  | Integer _ v => ret v
  | _ => panic bad_conversion
  end.

Definition asFloat (o : Object) : M float :=
  match o with
  | Float _ v => ret v
  | _ => panic bad_conversion
  end.

Definition asString (o : Object) : M string :=
  match o with
  | String_ _ v => ret v
  | _ => panic bad_conversion
  end.

Definition asBoolean (o : Object) : M bool :=
  match o with
  | Boolean _ v => ret v
  | _ => panic bad_conversion
  end.

(** [a.Type() == ta && b.Type() == tb], the right side only when needed. *)
Definition hasTypes (a : Object) (ta : ObjectType) (b : Object)
    (tb : ObjectType) : M bool :=
  t ← TypeOf a;
  if String.eqb t ta then
    t' ← TypeOf b;
    ret (String.eqb t' tb)
  else ret false.

Definition isError (obj : Object) : bool :=
  match obj with
  | Error _ _ => true
  | _ => false
  end.

(** [obj != nil && obj.Type() == object.RETURN_VALUE_OBJ]. *)
Definition isReturnValue (obj : Object) : bool :=
  match obj with
  | ReturnValue _ _ => true
  | _ => false
  end.

Definition nativeBoolToBooleanObject (input : bool) : Object :=
  if input then TRUE else FALSE.

Definition evalNotOperatorExpression (right : Object) : Object :=
  if same right TRUE then FALSE
  else if same right FALSE then TRUE
  else if same right NULL then TRUE
  else FALSE.

Definition isTruthy (obj : Object) : bool :=
  if same obj NULL then false
  else if same obj TRUE then true
  else if same obj FALSE then false
  else true.

Definition typeMismatch (operator : string) (left right : Object)
    : M Object :=
  lt ← TypeOf left;
  rt ← TypeOf right;
  NewError ("Eval: Type mismatch for '" +:+ operator +:+ "' operator: "
            +:+ lt +:+ " " +:+ operator +:+ " " +:+ rt).

(** The four numeric branches that the arithmetic and comparison operators
    share: integer with integer, float with float, and the two mixed pairs
    with the integer widened; [otherwise] is what follows them. *)
Definition numericCases (left right : Object) (ints : Z -> Z -> M Object)
    (floats : float -> float -> M Object) (otherwise : M Object)
    : M Object :=
  c ← hasTypes left INTEGER_OBJ right INTEGER_OBJ;
  if c : bool then
    leftVal ← asInteger left;
    rightVal ← asInteger right;
    ints leftVal rightVal
  else
    c ← hasTypes left FLOAT_OBJ right FLOAT_OBJ;
    if c : bool then
      leftVal ← asFloat left;
      rightVal ← asFloat right;
      floats leftVal rightVal
    else
      c ← hasTypes left FLOAT_OBJ right INTEGER_OBJ;
      if c : bool then
        leftVal ← asFloat left;
        rightVal ← asInteger right;
        floats leftVal (float64_of_int rightVal)
      else
        c ← hasTypes left INTEGER_OBJ right FLOAT_OBJ;
        if c : bool then
          leftVal ← asInteger left;
          rightVal ← asFloat right;
          floats (float64_of_int leftVal) rightVal
        else otherwise.

Definition newInteger (v : Z) : M Object := alloc (fun a => Integer a v).
Definition newFloat (v : float) : M Object := alloc (fun a => Float a v).
Definition newString (v : string) : M Object := alloc (fun a => String_ a v).

Definition evalAddInfixExpression (operator : string) (left right : Object)
    : M Object :=
  numericCases left right
    (fun a b => newInteger (wrap64 (a + b)))
    (fun a b => newFloat (a + b)%float)
    (c ← hasTypes left STRING_OBJ right STRING_OBJ;
     if c : bool then
       leftVal ← asString left;
       rightVal ← asString right;
       newString (leftVal +:+ rightVal)
     else typeMismatch operator left right).

Definition evalSubtractInfixExpression (operator : string)
    (left right : Object) : M Object :=
  numericCases left right
    (fun a b => newInteger (wrap64 (a - b)))
    (fun a b => newFloat (a - b)%float)
    (typeMismatch operator left right).

Definition evalMultiplyInfixExpression (operator : string)
    (left right : Object) : M Object :=
  numericCases left right
    (fun a b => newInteger (wrap64 (a * b)))
    (fun a b => newFloat (a * b)%float)
    (typeMismatch operator left right).

(** The guard of [evalDivideInfixExpression]: [right] asserted to be an
    Integer with [Value == 0] and [right.Type() == INTEGER_OBJ], or else
    [right] asserted to be a Float with [Value == 0] and
    [right.Type() == FLOAT_OBJ].  Both type assertions are of the
    single-result form, which panics on another dynamic type, and the
    second one is evaluated whenever the first conjunction is false. *)
Definition divisorIsZero (right : Object) : M bool :=
  v ← asInteger right;
  c ← (if v =? 0 then
         t ← TypeOf right;
         ret (String.eqb t INTEGER_OBJ)
       else ret false);
  if c : bool then ret true
  else
    f ← asFloat right;
    if PrimFloat.eqb f 0%float then
      t ← TypeOf right;
      ret (String.eqb t FLOAT_OBJ)
    else ret false.

Definition evalDivideInfixExpression (operator : string)
    (left right : Object) : M Object :=
  z ← divisorIsZero right;
  if z : bool then NewError "Eval: Division by zero error"
  else
    numericCases left right
      (fun a b => newInteger (wrap64 (Z.quot a b)))
      (fun a b => newFloat (a / b)%float)
      (typeMismatch operator left right).

Definition evalEqualsInfixExpression (operator : string)
    (left right : Object) : M Object :=
  numericCases left right
    (fun a b => ret (nativeBoolToBooleanObject (a =? b)))
    (fun a b => ret (nativeBoolToBooleanObject (PrimFloat.eqb a b)))
    (c ← hasTypes left STRING_OBJ right STRING_OBJ;
     if c : bool then
       leftVal ← asString left;
       rightVal ← asString right;
       ret (nativeBoolToBooleanObject (String.eqb leftVal rightVal))
     else
       c ← hasTypes left BOOLEAN_OBJ right BOOLEAN_OBJ;
       if c : bool then
         leftVal ← asBoolean left;
         rightVal ← asBoolean right;
         ret (nativeBoolToBooleanObject (Bool.eqb leftVal rightVal))
       else ret (nativeBoolToBooleanObject (same left right))).

Definition evalNotEqualsInfixExpression (operator : string)
    (left right : Object) : M Object :=
  equalsResult ← evalEqualsInfixExpression "equals" left right;
  if isError equalsResult then ret equalsResult
  else ret (evalNotOperatorExpression equalsResult).

Definition evalGreaterThanInfixExpression (operator : string)
    (left right : Object) : M Object :=
  numericCases left right
    (fun a b => ret (nativeBoolToBooleanObject (b <? a)))
    (fun a b => ret (nativeBoolToBooleanObject (PrimFloat.ltb b a)))
    (typeMismatch operator left right).

Definition evalLessThanInfixExpression (operator : string)
    (left right : Object) : M Object :=
  numericCases left right
    (fun a b => ret (nativeBoolToBooleanObject (a <? b)))
    (fun a b => ret (nativeBoolToBooleanObject (PrimFloat.ltb a b)))
    (typeMismatch operator left right).

Definition evalGreaterOrEqualInfixExpression (operator : string)
    (left right : Object) : M Object :=
  numericCases left right
    (fun a b => ret (nativeBoolToBooleanObject (b <=? a)))
    (fun a b => ret (nativeBoolToBooleanObject (PrimFloat.leb b a)))
    (typeMismatch operator left right).

Definition evalLessOrEqualInfixExpression (operator : string)
    (left right : Object) : M Object :=
  numericCases left right
    (fun a b => ret (nativeBoolToBooleanObject (a <=? b)))
    (fun a b => ret (nativeBoolToBooleanObject (PrimFloat.leb a b)))
    (typeMismatch operator left right).

Definition evalAndInfixExpression (operator : string) (left right : Object)
    : M Object :=
  let leftBool := isTruthy left in
  let rightBool := isTruthy right in
  ret (nativeBoolToBooleanObject (leftBool && rightBool)).

Definition evalOrInfixExpression (operator : string) (left right : Object)
    : M Object :=
  let leftBool := isTruthy left in
  let rightBool := isTruthy right in
  ret (nativeBoolToBooleanObject (leftBool || rightBool)).

Definition evalIntegerLiteral (value : Z) : M Object := newInteger value.
Definition evalFloatLiteral (value : float) : M Object := newFloat value.
Definition evalStringLiteral (value : string) : M Object := newString value.
Definition evalBooleanLiteral (value : bool) : M Object :=
  ret (nativeBoolToBooleanObject value).

Definition evalIdentifier (node : ast.Identifier) (env : envptr)
    : M Object :=
  '(val, ok) ← Get env (ast.id_Value node);
  if ok : bool then ret val
  else NewError ("Eval: Identifier not found: " +:+ ast.id_Value node).

Definition evalIsDefinedExpression (ident : ast.Identifier) (env : envptr)
    : M Object :=
  '(_, ok) ← Get env (ast.id_Value ident);
  ret (nativeBoolToBooleanObject ok).

Definition evalInputStatement (prompt : option ast.StringLiteral)
    : M Object :=
  match prompt with
  | Some sl => Print (ast.sl_Value sl)
  | None => ret tt
  end;;
  input ← Scanln;
  newString input.

(** [%T] of the nodes that [Eval] has no case for. *)
Definition typeName (e : ast.Expression) : string :=
  match e with
  | ast.FunctionLiteral _ _ _ => "*ast.FunctionLiteral"
  | ast.CallExpression _ _ _ => "*ast.CallExpression"
  | _ => "<nil>"
  end.

(** The evaluation functions call [Eval] on their children; [Eval_] stands
    for it here and is tied into a recursion on fuel below.  [fuel] also
    bounds the iterations of [while]. *)
Section Evaluation.

(** [strconv.ParseFloat(s, 64)]. *)
Variable ParseFloat : string -> parsed float.

Variable Eval_ : ast.Node -> envptr -> M Object.
Variable fuel : nat.

Fixpoint evalProgram_loop (stmts : list ast.Statement) (env : envptr)
    (result : Object) : M Object :=
  match stmts with
  | [] => ret result
  | statement :: rest =>
      r ← Eval_ (ast.StatementNode statement) env;
      match r with
      | ReturnValue _ v => ret v
      | Error _ _ => ret r
      | _ => evalProgram_loop rest env r
      end
  end.

Definition evalProgram (program : ast.Program) (env : envptr) : M Object :=
  evalProgram_loop (ast.Statements program) env nil.

Fixpoint evalBlockStatement_loop (stmts : list ast.Statement) (env : envptr)
    (result : Object) : M Object :=
  match stmts with
  | [] => ret result
  | statement :: rest =>
      r ← Eval_ (ast.StatementNode statement) env;
      if isReturnValue r || isError r then ret r
      else evalBlockStatement_loop rest env r
  end.

Definition evalBlockStatement (block : ast.BlockStatement) (env : envptr)
    : M Object :=
  evalBlockStatement_loop (ast.block_Statements block) env nil.

Definition evalBlock (block : ast.BlockStatement) (env : envptr)
    : M Object :=
  Eval_ (ast.StatementNode (ast.BlockStatementStmt block)) env.

Definition evalPrefixExpression (operator : string) (right : ast.Expression)
    (env : envptr) : M Object :=
  right ← Eval_ (ast.ExpressionNode right) env;
  if isError right then ret right
  else if String.eqb operator "not" then ret (evalNotOperatorExpression right)
  else
    t ← TypeOf right;
    NewError ("Eval: Unknown prefix operator: " +:+ operator +:+ t).

Definition evalInfixExpression (left : ast.Expression) (operator : string)
    (right : ast.Expression) (env : envptr) : M Object :=
  left ← Eval_ (ast.ExpressionNode left) env;
  if isError left then ret left
  else
    right ← Eval_ (ast.ExpressionNode right) env;
    if isError right then ret right
    else if String.eqb operator "add" then
      evalAddInfixExpression operator left right
    else if String.eqb operator "subtract" then
      evalSubtractInfixExpression operator left right
    else if String.eqb operator "multiply" then
      evalMultiplyInfixExpression operator left right
    else if String.eqb operator "divide" then
      evalDivideInfixExpression operator left right
    else if String.eqb operator "equals" then
      evalEqualsInfixExpression operator left right
    else if String.eqb operator "notequals" then
      evalNotEqualsInfixExpression operator left right
    else if String.eqb operator "greater" then
      evalGreaterThanInfixExpression operator left right
    else if String.eqb operator "less" then
      evalLessThanInfixExpression operator left right
    else if String.eqb operator "greater or equal" then
      evalGreaterOrEqualInfixExpression operator left right
    else if String.eqb operator "less or equal" then
      evalLessOrEqualInfixExpression operator left right
    else if String.eqb operator "and" then
      evalAndInfixExpression operator left right
    else if String.eqb operator "or" then
      evalOrInfixExpression operator left right
    else
      lt ← TypeOf left;
      rt ← TypeOf right;
      NewError ("Eval: Unknown infix operator: " +:+ lt +:+ " " +:+ operator
                +:+ " " +:+ rt).

Fixpoint evalElseIfBlocks (blocks : list ast.ElseIfBlock)
    (elseBlock : option ast.BlockStatement) (env : envptr) : M Object :=
  match blocks with
  | ast.mkElseIfBlock cond blk :: rest =>
      elseifCondition ← Eval_ (ast.ExpressionNode cond) env;
      if isError elseifCondition then ret elseifCondition
      else if isTruthy elseifCondition then evalBlock blk env
      else evalElseIfBlocks rest elseBlock env
  | [] =>
      match elseBlock with
      | Some blk => evalBlock blk env
      | None => ret NULL
      end
  end.

Definition evalIfStatement (cond : ast.Expression)
    (thenBlock : ast.BlockStatement) (elseIfBlocks : list ast.ElseIfBlock)
    (elseBlock : option ast.BlockStatement) (env : envptr) : M Object :=
  condition ← Eval_ (ast.ExpressionNode cond) env;
  if isError condition then ret condition
  else if isTruthy condition then evalBlock thenBlock env
  else evalElseIfBlocks elseIfBlocks elseBlock env.

Fixpoint evalWhileStatement_loop (n : nat) (cond : ast.Expression)
    (body : ast.BlockStatement) (env : envptr) (result : Object)
    : M Object :=
  match n with
  | O => out_of_fuel
  | S n' =>
      condition ← Eval_ (ast.ExpressionNode cond) env;
      if isError condition then ret condition
      else if negb (isTruthy condition) then ret result
      else
        blockResult ← evalBlock body env;
        if isReturnValue blockResult then ret blockResult
        else if isError blockResult then ret blockResult
        else evalWhileStatement_loop n' cond body env blockResult
  end.

Definition evalWhileStatement (cond : ast.Expression)
    (body : ast.BlockStatement) (env : envptr) : M Object :=
  evalWhileStatement_loop fuel cond body env NULL.

Fixpoint evalForEachStatement_loop (elements : list Object)
    (variable : ast.Identifier) (body : ast.BlockStatement) (env : envptr)
    (result : Object) : M Object :=
  match elements with
  | [] => ret result
  | element :: rest =>
      currentEnv ← NewEnclosedEnvironment env;
      Set_ currentEnv (ast.id_Value variable) element;;
      blockResult ← evalBlock body currentEnv;
      if isReturnValue blockResult then ret blockResult
      else if isError blockResult then ret blockResult
      else evalForEachStatement_loop rest variable body env blockResult
  end.

Definition evalForEachStatement (variable : ast.Identifier)
    (iterable : ast.Expression) (body : ast.BlockStatement) (env : envptr)
    : M Object :=
  iterable ← Eval_ (ast.ExpressionNode iterable) env;
  if isError iterable then ret iterable
  else
    match iterable with
    | List _ elements =>
        evalForEachStatement_loop elements variable body env NULL
    | _ =>
        t ← TypeOf iterable;
        NewError ("Eval: 'for each' loop requires a list as iterable, got "
                  +:+ t)
    end.

Definition evalLetStatement (name : ast.Identifier) (value : ast.Expression)
    (env : envptr) : M Object :=
  val ← Eval_ (ast.ExpressionNode value) env;
  if isError val then ret val
  else
    Set_ env (ast.id_Value name) val;;
    ret val.

Definition evalReturnStatement (returnValue : ast.Expression) (env : envptr)
    : M Object :=
  val ← Eval_ (ast.ExpressionNode returnValue) env;
  if isError val then ret val
  else alloc (fun a => ReturnValue a val).

Definition evalPrintStatement (value : ast.Expression) (env : envptr)
    : M Object :=
  value ← Eval_ (ast.ExpressionNode value) env;
  if isError value then ret value
  else
    text ← InspectOf value;
    Println text;;
    ret NULL.

Fixpoint evalExpressions (exps : list ast.Expression) (env : envptr)
    (results : list Object) : M (list Object) :=
  match exps with
  | [] => ret results
  | exp :: rest =>
      evaluated ← Eval_ (ast.ExpressionNode exp) env;
      if isError evaluated then ret [evaluated]
      else evalExpressions rest env (results ++ [evaluated])
  end.

Definition evalListLiteral (elems : list ast.Expression) (env : envptr)
    : M Object :=
  elements ← evalExpressions elems env [];
  match elements with
  | first :: _ =>
      if isError first then ret first
      else alloc (fun a => List a elements)
  | [] => alloc (fun a => List a elements)
  end.

Definition evalGetItemAtIndexExpression (listExp indexExp : ast.Expression)
    (env : envptr) : M Object :=
  listObj ← Eval_ (ast.ExpressionNode listExp) env;
  if isError listObj then ret listObj
  else
    match listObj with
    | List _ elements =>
        indexObj ← Eval_ (ast.ExpressionNode indexExp) env;
        if isError indexObj then ret indexObj
        else
          match indexObj with
          | Integer _ index =>
              if (index <? 0) || (index >=? Z.of_nat (length elements)) then
                NewError ("Eval: Index out of bounds: " +:+ itoa index
                          +:+ ", list length: "
                          +:+ itoa (Z.of_nat (length elements)))
              else
                match elements !! Z.to_nat index with
                | Some element => ret element
                | None => panic "index out of range"
                end
          | _ =>
              t ← TypeOf indexObj;
              NewError
                ("Eval: 'get item at index' index must be a number, got "
                 +:+ t)
          end
    | _ =>
        t ← TypeOf listObj;
        NewError ("Eval: 'get item at index' expected a list, got " +:+ t)
    end.

(** [os.Exit(code)] ends the run; the statement never returns. *)
Definition exitCode (code : ast.Expression) (env : envptr) : M Z :=
  match code with
  | ast.NilExpression => ret 0
  | _ =>
      codeObj ← Eval_ (ast.ExpressionNode code) env;
      if isError codeObj then
        text ← InspectOf codeObj;
        Println text;;
        ret 1
      else
        match codeObj with
        | Integer _ v => ret v
        | _ =>
            t ← TypeOf codeObj;
            e ← NewError ("Eval: Exit code must be an integer, got " +:+ t);
            text ← InspectOf e;
            Println text;;
            ret 1
        end
  end.

Definition evalExitStatement (code : ast.Expression) (env : envptr)
    : M Object :=
  code ← exitCode code env;
  os_Exit code.

Definition evalConvertToNumberExpression (exp : ast.Expression)
    (env : envptr) : M Object :=
  expValue ← Eval_ (ast.ExpressionNode exp) env;
  if isError expValue then ret expValue
  else
    match expValue with
    | String_ _ value =>
        match ParseFloat value with
        | ParseError err =>
            NewError ("Eval: Cannot convert string '" +:+ value
                      +:+ "' to number: " +:+ err)
        | Parsed floatVal =>
            if contains_dot value then newFloat floatVal
            else newInteger (int_of_float64 floatVal)
        end
    | Integer _ _ => ret expValue
    | Float _ _ => ret expValue
    | _ =>
        t ← TypeOf expValue;
        NewError ("Eval: Cannot convert type " +:+ t +:+ " to number")
    end.

Definition evalConvertToStringExpression (exp : ast.Expression)
    (env : envptr) : M Object :=
  expValue ← Eval_ (ast.ExpressionNode exp) env;
  if isError expValue then ret expValue
  else
    text ← InspectOf expValue;
    newString text.

(** The type switch of [Eval]. *)
Definition Eval_body (node : ast.Node) (env : envptr) : M Object :=
  match node with
  | ast.ProgramNode program => evalProgram program env
  | ast.StatementNode stmt =>
      match stmt with
      | ast.ExpressionStatement _ e => Eval_ (ast.ExpressionNode e) env
      | ast.BlockStatementStmt block => evalBlockStatement block env
      | ast.IfStatement _ cond thenBlock elseIfBlocks elseBlock =>
          evalIfStatement cond thenBlock elseIfBlocks elseBlock env
      | ast.WhileStatement _ cond body => evalWhileStatement cond body env
      | ast.ForEachStatement _ variable iterable body =>
          evalForEachStatement variable iterable body env
      | ast.LetStatement _ name value => evalLetStatement name value env
      | ast.ReturnStatement _ returnValue =>
          evalReturnStatement returnValue env
      | ast.PrintStatement _ value => evalPrintStatement value env
      | ast.InputStatement _ prompt => evalInputStatement prompt
      | ast.ExitStatement _ code => evalExitStatement code env
      end
  | ast.ExpressionNode e =>
      match e with
      | ast.IntegerLiteral _ value => evalIntegerLiteral value
      | ast.FloatLiteral _ value => evalFloatLiteral value
      | ast.StringLiteralExpr sl => evalStringLiteral (ast.sl_Value sl)
      | ast.BooleanLiteral _ value => evalBooleanLiteral value
      | ast.PrefixExpression _ operator rhs =>
          evalPrefixExpression operator rhs env
      | ast.InfixExpression _ lhs operator rhs =>
          evalInfixExpression lhs operator rhs env
      | ast.IdentifierExpr ident => evalIdentifier ident env
      | ast.ListLiteral _ elements => evalListLiteral elements env
      | ast.GetItemAtIndexExpression _ listExp indexExp =>
          evalGetItemAtIndexExpression listExp indexExp env
      | ast.IsDefinedExpression _ ident => evalIsDefinedExpression ident env
      | ast.ConvertToNumberExpression _ exp =>
          evalConvertToNumberExpression exp env
      | ast.ConvertToStringExpression _ exp =>
          evalConvertToStringExpression exp env
      | ast.NilExpression
      | ast.FunctionLiteral _ _ _
      | ast.CallExpression _ _ _ =>
          NewError ("Eval: Node type not handled: " +:+ typeName e)
      end
  end.

End Evaluation.

Fixpoint Eval (ParseFloat : string -> parsed float) (fuel : nat)
    (node : ast.Node) (env : envptr) : M Object :=
  match fuel with
  | O => out_of_fuel
  | S fuel' => Eval_body ParseFloat (Eval ParseFloat fuel') fuel' node env
  end.

Definition initial (input : list string) : State :=
  mkState [] first_free [] input.

End interpreter.

(** ** The driver: source text through the three stages *)

Module driver.
Import host.

(** What [runFile] does with the text of a file, apart from printing: the
    parser diagnostics when there are any (the program is then not
    evaluated), otherwise the outcome of [Eval] on the program in a new
    environment.  [None]: the parser ran out of fuel. *)
Definition parse (ParseInt : string -> parsed Z)
    (ParseFloat : string -> parsed float) (fuel : nat) (content : string)
    : option (ast.Program * list string) :=
  match parser.New (lexer.New content) with
  | None => None
  | Some p =>
      match parser.ParseProgram ParseInt ParseFloat fuel p with
      | None => None
      | Some (program, p') => Some (program, parser.Errors p')
      end
  end.

Definition runFile (ParseInt : string -> parsed Z)
    (ParseFloat : string -> parsed float) (fuel : nat) (content : string)
    (input : list string)
    : option (list string + interpreter.Res object.Object) :=
  match parse ParseInt ParseFloat fuel content with
  | None => None
  | Some (program, []) =>
      Some (inr ((env ← interpreter.NewEnvironment;
                  interpreter.Eval ParseFloat fuel (ast.ProgramNode program)
                    env)
                   (interpreter.initial input)))
  | Some (_, errs) => Some (inl errs)
  end.

End driver.

(** ** Definitions that follow the words of the specification *)

Module spec.
Import host object.

(** Truthiness: a value is truthy unless it is Null or boolean false. *)
Definition truthy (o : Object) : bool :=
  match o with
  | Null _ => false
  | Boolean _ false => false
  | _ => true
  end.

(** Prefix [not]: true to false, false to true, null to true, everything
    else to false. *)
Definition not_ (o : Object) : bool :=
  match o with
  | Boolean _ true => false
  | Boolean _ false => true
  | Null _ => true
  | _ => false
  end.

(** Two floats that are the same datum: the same zero, the same infinity,
    both not a number, or the same sign, mantissa and exponent. *)
Definition same_float (a b : float) : bool :=
  match Prim2SF a, Prim2SF b with
  | S754_zero s, S754_zero s' => Bool.eqb s s'
  | S754_infinity s, S754_infinity s' => Bool.eqb s s'
  | S754_nan, S754_nan => true
  | S754_finite s m e, S754_finite s' m' e' =>
      Bool.eqb s s' && Pos.eqb m m' && (e =? e')
  | _, _ => false
  end.

(** The float [f] is a number, and that number is the integer [z]: with
    sign [s], mantissa [m] and exponent [e] it is [(-1)^s * m * 2^e]. *)
Definition float_is (f : float) (z : Z) : bool :=
  match Prim2SF f with
  | S754_zero _ => z =? 0
  | S754_finite s m e =>
      let v := if s then Z.neg m else Z.pos m in
      if 0 <=? e then z =? v * 2 ^ e else z * 2 ^ (- e) =? v
  | _ => false
  end.

(** [equals] in the words of the specification: structural equality on two
    operands of the same primitive kind, equality of the numeric values
    between an integer and a float, identity otherwise. *)
Definition equals (l r : Object) : bool :=
  match l, r with
  | Integer _ a, Integer _ b => a =? b
  | Float _ a, Float _ b => same_float a b
  | String_ _ a, String_ _ b => String.eqb a b
  | Boolean _ a, Boolean _ b => Bool.eqb a b
  | Integer _ a, Float _ b => float_is b a
  | Float _ a, Integer _ b => float_is a b
  | _, _ => same l r
  end.

(** The float64 that a numeric operand is compared as once a float is
    involved: the value of a Float, [float64(v)] for an Integer. *)
Definition as_float64 (o : Object) : option float :=
  match o with
  | Integer _ v => Some (float64_of_int v)
  | Float _ v => Some v
  | _ => None
  end.

Definition is_zero (f : float) : bool :=
  match Prim2SF f with S754_zero _ => true | _ => false end.

Definition is_nan (f : float) : bool :=
  match Prim2SF f with S754_nan => true | _ => false end.

(** Equality of two floats as the standard for floating-point arithmetic
    has it: a float that is not a number equals nothing, itself included;
    the two zeros are equal; otherwise equal floats are the same datum. *)
Definition float_equal (a b : float) : bool :=
  negb (is_nan a) && ((is_zero a && is_zero b) || same_float a b).

(** The values that the evaluator creates: a Boolean is one of the two
    predefined objects and a Null is the predefined one. *)
Definition canonical (o : Object) : Prop :=
  match o with
  | Boolean p v => p = (if v then 0 else 1)
  | Null p => p = 2
  | _ => True
  end.

Definition is_List (o : Object) : bool :=
  match o with List _ _ => true | _ => false end.

(** An Error value, and a ReturnSignal: the wrapper of a returned value. *)
Definition is_Error (o : Object) : bool :=
  match o with Error _ _ => true | _ => false end.

Definition is_ReturnSignal (o : Object) : bool :=
  match o with ReturnValue _ _ => true | _ => false end.

Definition is_Integer (o : Object) : bool :=
  match o with Integer _ _ => true | _ => false end.

Definition is_Float (o : Object) : bool :=
  match o with Float _ _ => true | _ => false end.

Definition is_String (o : Object) : bool :=
  match o with String_ _ _ => true | _ => false end.

(** The state after one allocation. *)
Definition bump (st : interpreter.State) : interpreter.State :=
  interpreter.mkState (interpreter.envs st) (interpreter.next st + 1)
    (interpreter.stdout st) (interpreter.stdin st).

(** The kinds of the binary operator tokens: equals, notequals, greater,
    less, greater or equal, less or equal, add, subtract, multiply, divide,
    and, or. *)
Definition binary_operators : list token.TokenType :=
  [ token.EQUALS; token.NOTEQUALS; token.GREATERTHAN; token.LESSTHAN;
    token.GREATEREQUAL; token.LESSEQUAL; token.ADD; token.SUBTRACT;
    token.MULTIPLY; token.DIVIDE; token.AND; token.OR ].

(** The diagnostic of [noPrefixParseFnError] for the token [tok]. *)
Definition no_prefix_message (tok : token.Token) : string :=
  "no prefix parse function for " +:+ token.Type_ tok
  +:+ " found at line " +:+ itoa (token.Line tok)
  +:+ ", column " +:+ itoa (token.Column tok).

(** The node kinds that the registered parse methods build. *)
Definition produced (e : ast.Expression) : bool :=
  match e with
  | ast.InfixExpression _ _ _ _ | ast.PrefixExpression _ _ _
  | ast.FloatLiteral _ _ | ast.CallExpression _ _ _ => false
  | _ => true
  end.

Definition builds_produced (fn : parser.prefixParseFn) : bool :=
  match fn with
  | parser.fn_parseFloatLiteral | parser.fn_parsePrefixExpression => false
  | _ => true
  end.

Definition not_infix (e : ast.Expression) : bool :=
  negb (ast.is_InfixExpression e).

Definition not_float (e : ast.Expression) : bool :=
  negb (ast.is_FloatLiteral e).

Definition not_call (e : ast.Expression) : bool :=
  negb (ast.is_CallExpression e).

End spec.

(** ** Invariants and triples used in the proofs *)

Module logic.
Import host object.

(** A parser method keeps the tables registered and, when it returns,
    returns something that satisfies [Q]. *)
Definition ok {A : Type} (Q : A -> Prop) (m : parser.P A) : Prop :=
  forall p a p',
    parser.registered p -> m p = Some (a, p') -> Q a /\ parser.registered p'.

Definition Qe (Pb : ast.Expression -> bool) (e : ast.Expression) : Prop :=
  ast.every_expr Pb e = true.

Definition Qs (Pb : ast.Expression -> bool) (s : ast.Statement) : Prop :=
  ast.every_stmt Pb s = true.

Definition Qos (Pb : ast.Expression -> bool) (o : option ast.Statement)
    : Prop :=
  match o with
  | Some s => Qs Pb s
  | None => True
  end.

Definition Qss (Pb : ast.Expression -> bool) (ss : list ast.Statement)
    : Prop :=
  forallb (ast.every_stmt Pb) ss = true.

Definition Qb (Pb : ast.Expression -> bool) (b : ast.BlockStatement) : Prop :=
  ast.every_block Pb b = true.

Definition Qes (Pb : ast.Expression -> bool) (es : list ast.Expression)
    : Prop :=
  forallb (ast.every_expr Pb) es = true.

(** A well-formed run-time value: not nil, its Booleans and Nulls the
    predefined objects, and so on inside lists and return wrappers. *)
Fixpoint wf (o : Object) : bool :=
  match o with
  | nil => false
  | Boolean p v => p =? (if v then 0 else 1)
  | Null p => p =? 2
  | ReturnValue _ v => wf v
  | List _ elems => forallb wf elems
  | _ => true
  end.

Definition wf_state (st : interpreter.State) : Prop :=
  forall e frame name v,
    interpreter.envs st !! e = Some frame ->
    interpreter.store frame !! name = Some v -> wf v = true.

Definition Qv (v : Object) : Prop := wf v = true.

(** A statement may also yield nil (an empty block). *)
Definition wf_res (v : Object) : Prop := v = nil \/ wf v = true.

Definition Qnode (node : ast.Node) (v : Object) : Prop :=
  match node with
  | ast.ExpressionNode _ => wf v = true
  | _ => wf_res v
  end.

(** An evaluation step keeps the environments well formed and, when it
    returns, returns something that satisfies [Q]. *)
Definition okM {A : Type} (Q : A -> Prop) (m : interpreter.M A) : Prop :=
  forall st a st',
    wf_state st -> m st = interpreter.Done a st' -> Q a /\ wf_state st'.

End logic.

(** ** Relations between two states of the lexer *)

Module lexing.
Import host lexer.

(** [keeps l l']: the same input and error list, and no step back. *)
Definition keeps (l l' : Lexer) : Prop :=
  input l' = input l /\ errors l' = errors l
  /\ readPosition l <= readPosition l'.

(** [same_place l l']: the two states differ at most in the line count. *)
Definition same_place (l l' : Lexer) : Prop :=
  input l' = input l /\ position l' = position l
  /\ readPosition l' = readPosition l /\ ch l' = ch l
  /\ column l' = column l /\ errors l' = errors l.

(** [parked l0 l]: [l] stands where [l0] stands, on a byte that no
    identifier can start with or continue with. *)
Definition parked (l0 l : Lexer) : Prop :=
  same_place l0 l /\ is_ident_byte (ch l0) = false.

End lexing.

(** ** The text of a node: the [String] methods of package [ast]

    [None] is the panic of a method call on a nil interface value: the
    methods call [String] on their children without a test, except where
    the source tests the field against nil first. *)

Module ast_String.
Import host ast.

(** The [String()] of each element of a slice, in order. *)
Definition each {A : Type} (f : A -> option string)
    : list A -> option (list string) :=
  fix go (xs : list A) : option (list string) :=
    match xs with
    | [] => Some []
    | x :: rest =>
        match f x, go rest with
        | Some s, Some ss => Some (s :: ss)
        | _, _ => None
        end
    end.

(** [a + b] where either operand may have panicked. *)
Definition cat (a b : option string) : option string :=
  match a, b with
  | Some x, Some y => Some (x +:+ y)
  | _, _ => None
  end.

Definition concat (parts : option (list string)) : option string :=
  match parts with
  | Some ss => Some (fold_left (fun out s => out +:+ s) ss "")
  | None => None
  end.

Definition Identifier_String (i : Identifier) : string := id_Value i.

Definition StringLiteral_String (sl : StringLiteral) : string :=
  token.Literal (sl_Token sl).

Fixpoint Expression_String (e : Expression) : option string :=
  match e with
  | NilExpression => None
  | IdentifierExpr i => Some (Identifier_String i)
  | IntegerLiteral tok _ => Some (token.Literal tok)
  | FloatLiteral tok _ => Some (token.Literal tok)
  | StringLiteralExpr sl => Some (StringLiteral_String sl)
  | BooleanLiteral tok _ => Some (token.Literal tok)
  | PrefixExpression _ operator rhs =>
      cat (Some ("(" +:+ operator)) (cat (Expression_String rhs) (Some ")"))
  | InfixExpression _ lhs operator rhs =>
      cat (Some "(")
        (cat (Expression_String lhs)
           (cat (Some (" " +:+ operator +:+ " "))
              (cat (Expression_String rhs) (Some ")"))))
  | FunctionLiteral _ parameters body =>
      cat (Some ("function("
                 +:+ Join (map Identifier_String parameters) ", " +:+ ") "))
        (cat (BlockStatement_String body) (Some " end function"))
  | CallExpression _ function arguments =>
      match each Expression_String arguments with
      | Some args =>
          cat (Some "call ")
            (cat (Expression_String function)
               (Some ("(" +:+ Join args ", " +:+ ")")))
      | None => None
      end
  | ListLiteral _ elements =>
      match each Expression_String elements with
      | Some elems => Some ("list(" +:+ Join elems ", " +:+ ")")
      | None => None
      end
  | GetItemAtIndexExpression _ list index =>
      cat (Some "get item at index ")
        (cat (Expression_String index)
           (cat (Some " from ") (Expression_String list)))
  | IsDefinedExpression _ ident =>
      Some ("is defined " +:+ Identifier_String ident)
  | ConvertToNumberExpression _ x =>
      cat (Some "convert to number ") (Expression_String x)
  | ConvertToStringExpression _ x =>
      cat (Some "convert to string ") (Expression_String x)
  end
with Statement_String (s : Statement) : option string :=
  match s with
  | LetStatement tok name value =>
      cat (Some (token.Literal tok +:+ " " +:+ Identifier_String name
                 +:+ " be "))
        (Expression_String value)
  | ReturnStatement tok returnValue =>
      cat (Some (token.Literal tok +:+ " ")) (Expression_String returnValue)
  | ExpressionStatement _ e =>
      match e with
      | NilExpression => Some ""
      | _ => Expression_String e
      end
  | IfStatement _ condition thenBlock elseIfBlocks elseBlock =>
      cat (Some "if ")
        (cat (Expression_String condition)
           (cat (Some " then ")
              (cat (BlockStatement_String thenBlock)
                 (cat (concat (each ElseIfBlock_String elseIfBlocks))
                    (cat match elseBlock with
                         | Some blk =>
                             cat (Some " else ") (BlockStatement_String blk)
                         | None => Some ""
                         end
                       (Some " endif"))))))
  | BlockStatementStmt b => BlockStatement_String b
  | WhileStatement _ condition body =>
      cat (Some "while ")
        (cat (Expression_String condition)
           (cat (Some " do ")
              (cat (BlockStatement_String body) (Some " endwhile"))))
  | ForEachStatement _ variable iterable body =>
      cat (Some ("foreach " +:+ Identifier_String variable +:+ " in "))
        (cat (Expression_String iterable)
           (cat (Some " do ")
              (cat (BlockStatement_String body) (Some " endforeach"))))
  | PrintStatement _ value =>
      cat (Some "print ") (Expression_String value)
  | InputStatement _ prompt =>
      match prompt with
      | Some sl => Some ("input " +:+ StringLiteral_String sl)
      | None => Some "input"
      end
  | ExitStatement _ code =>
      match code with
      | NilExpression => Some "exit"
      | _ => cat (Some "exit ") (Expression_String code)
      end
  end
with BlockStatement_String (b : BlockStatement) : option string :=
  match b with
  | mkBlockStatement _ statements =>
      cat (Some ("{" +:+ String newline ""))
        (cat (concat
                (each (fun s => cat (Some "  ")
                                  (cat (Statement_String s)
                                     (Some (String newline ""))))
                   statements))
           (Some ("}" +:+ String newline "")))
  end
with ElseIfBlock_String (b : ElseIfBlock) : option string :=
  match b with
  | mkElseIfBlock condition block =>
      cat (Some " elseif ")
        (cat (Expression_String condition)
           (cat (Some " then ") (BlockStatement_String block)))
  end.

Definition Program_String (p : Program) : option string :=
  concat (each Statement_String (Statements p)).

End ast_String.

(** ** Classes of syntax trees *)

Module shape.
Import host ast.

(** A complete tree: no expression that the grammar asks for is missing
    (nil) in it.  The one nil expression that a complete tree may hold is
    the code of an [exit] statement: the parser leaves it nil, without a
    diagnostic, when no code is written, and the evaluator and [String]
    test it against nil. *)
Fixpoint complete_expr (e : Expression) : bool :=
  match e with
  | NilExpression => false
  | PrefixExpression _ _ r => complete_expr r
  | InfixExpression _ l _ r => complete_expr l && complete_expr r
  | FunctionLiteral _ _ body => complete_block body
  | CallExpression _ f args => complete_expr f && forallb complete_expr args
  | ListLiteral _ elems => forallb complete_expr elems
  | GetItemAtIndexExpression _ l i => complete_expr l && complete_expr i
  | ConvertToNumberExpression _ x => complete_expr x
  | ConvertToStringExpression _ x => complete_expr x
  | _ => true
  end
with complete_stmt (s : Statement) : bool :=
  match s with
  | LetStatement _ _ v => complete_expr v
  | ReturnStatement _ v => complete_expr v
  | ExpressionStatement _ e => complete_expr e
  | IfStatement _ c t eifs els =>
      complete_expr c && complete_block t
      && forallb complete_elseif eifs
      && match els with
         | Some b => complete_block b
         | None => true
         end
  | BlockStatementStmt b => complete_block b
  | WhileStatement _ c b => complete_expr c && complete_block b
  | ForEachStatement _ _ it b => complete_expr it && complete_block b
  | PrintStatement _ v => complete_expr v
  | InputStatement _ _ => true
  | ExitStatement _ c =>
      match c with
      | NilExpression => true
      | _ => complete_expr c
      end
  end
with complete_block (b : BlockStatement) : bool :=
  match b with
  | mkBlockStatement _ ss => forallb complete_stmt ss
  end
with complete_elseif (b : ElseIfBlock) : bool :=
  match b with
  | mkElseIfBlock c blk => complete_expr c && complete_block blk
  end.

Definition complete_program (p : Program) : bool :=
  forallb complete_stmt (Statements p).

End shape.

(** ** Diagnostics of the parser *)

Module diagnostics.
Import host parser.

(** A parser method keeps the tables registered and keeps the diagnostics
    recorded so far, adding to them at the end only; when it returns
    without a new diagnostic, the result satisfies [Q]. *)
Definition okE {A : Type} (Q : A -> Prop) (m : P A) : Prop :=
  forall p a p',
    registered p -> m p = Some (a, p') ->
    registered p'
    /\ errors p `prefix_of` errors p'
    /\ (errors p' = errors p -> Q a).

Definition Ce (e : ast.Expression) : Prop := shape.complete_expr e = true.

(** A statement that is there (not nil) and complete. *)
Definition Cos (o : option ast.Statement) : Prop :=
  match o with
  | Some s => shape.complete_stmt s = true
  | None => False
  end.

Definition Css (ss : list ast.Statement) : Prop :=
  forallb shape.complete_stmt ss = true.

Definition Cb (b : ast.BlockStatement) : Prop :=
  shape.complete_block b = true.

Definition Ces (es : list ast.Expression) : Prop :=
  forallb shape.complete_expr es = true.

Definition Ceifs (o : option (list ast.ElseIfBlock)) : Prop :=
  match o with
  | Some bs => forallb shape.complete_elseif bs = true
  | None => False
  end.

End diagnostics.

(** ** Evaluation: what [Eval] calls itself on, and classes of nodes *)

Module calls.
Import host ast.

Definition block (b : BlockStatement) : Node :=
  StatementNode (BlockStatementStmt b).

(** The nodes that [Eval] may be called on while it evaluates [node], one
    level down. *)
Definition children (node : Node) : list Node :=
  match node with
  | ProgramNode p => map StatementNode (Statements p)
  | StatementNode s =>
      match s with
      | LetStatement _ _ v => [ExpressionNode v]
      | ReturnStatement _ v => [ExpressionNode v]
      | ExpressionStatement _ e => [ExpressionNode e]
      | IfStatement _ c t eifs els =>
          ExpressionNode c :: block t
          :: flat_map (fun b => match b with
                                | mkElseIfBlock c' b' =>
                                    [ExpressionNode c'; block b']
                                end) eifs
          ++ match els with
             | Some b => [block b]
             | None => []
             end
      | BlockStatementStmt b => map StatementNode (block_Statements b)
      | WhileStatement _ c b => [ExpressionNode c; block b]
      | ForEachStatement _ _ it b => [ExpressionNode it; block b]
      | PrintStatement _ v => [ExpressionNode v]
      | InputStatement _ _ => []
      | ExitStatement _ c => [ExpressionNode c]
      end
  | ExpressionNode e =>
      match e with
      | PrefixExpression _ _ r => [ExpressionNode r]
      | InfixExpression _ l _ r => [ExpressionNode l; ExpressionNode r]
      | ListLiteral _ elems => map ExpressionNode elems
      | GetItemAtIndexExpression _ l i => [ExpressionNode l; ExpressionNode i]
      | ConvertToNumberExpression _ x => [ExpressionNode x]
      | ConvertToStringExpression _ x => [ExpressionNode x]
      | _ => []
      end
  end.

(** The node is the operator [divide] applied to two operands. *)
Definition divides (node : Node) : bool :=
  match node with
  | ExpressionNode (InfixExpression _ _ operator _) =>
      String.eqb operator "divide"
  | _ => false
  end.

Definition loops (node : Node) : bool :=
  match node with
  | StatementNode (WhileStatement _ _ _) => true
  | _ => false
  end.

(** [within P n node]: [P] holds of [node] and of everything that [Eval]
    can reach from it in fewer than [n] nested calls. *)
Fixpoint within (P : Node -> bool) (n : nat) (node : Node) : bool :=
  match n with
  | O => true
  | S n' => P node && forallb (within P n') (children node)
  end.

(** [height n node]: [Eval] nests no more than [n] calls on [node]. *)
Fixpoint height (n : nat) (node : Node) : bool :=
  match n with
  | O => false
  | S n' => forallb (height n') (children node)
  end.

(** The nodes that are allowed where operands of [divide] must not occur
    (unless [panics]) and [while] neither (unless [may_loop]). *)
Definition allowed (may_loop panics : bool) (node : Node) : bool :=
  (panics || negb (divides node)) && (may_loop || negb (loops node)).

(** [every P node]: [P] holds of every expression of the tree of [node]. *)
Definition every (P : Expression -> bool) (node : Node) : bool :=
  match node with
  | ProgramNode p => every_program P p
  | StatementNode s => every_stmt P s
  | ExpressionNode e => every_expr P e
  end.

End calls.

(** ** Evaluation: what is kept *)

Module safety.
Import host object interpreter.

(** The values that expressions yield: not nil, not a return wrapper,
    Booleans and Null the predefined objects, and in a list no Error. *)
Fixpoint value_ok (o : Object) : bool :=
  match o with
  | nil => false
  | Boolean p v => p =? (if v then 0 else 1)
  | Null p => p =? 2
  | ReturnValue _ _ => false
  | List _ elems => forallb (fun x => value_ok x && negb (isError x)) elems
  | _ => true
  end.

(** The values that variables and lists hold. *)
Definition storable (o : Object) : bool := value_ok o && negb (isError o).

(** The values that statements yield: also nil (an empty block), and an
    expression value in a return wrapper. *)
Definition result_ok (o : Object) : bool :=
  match o with
  | nil => true
  | ReturnValue _ v => storable v
  | _ => value_ok o
  end.

(** The values that a program yields: the wrapper is taken off. *)
Definition program_ok (o : Object) : bool :=
  match o with
  | nil => true
  | _ => value_ok o
  end.

Definition stored_ok (st : State) : Prop :=
  forall e frame name v,
    envs st !! e = Some frame -> store frame !! name = Some v ->
    storable v = true.

(** The enclosing frame of a frame was allocated before it. *)
Definition linked (st : State) : Prop :=
  forall e frame o,
    envs st !! e = Some frame -> outer frame = Some o -> (o < e)%nat.

Definition inv (st : State) : Prop := stored_ok st /\ linked st.

(** From [st] to [st'] no frame is dropped, the frames of [st] other than
    [touch] are the same in [st'], what was written to standard output is
    still there, and the words left on standard input are words that were
    left before. *)
Definition grows (touch : option envptr) (st st' : State) : Prop :=
  (length (envs st) <= length (envs st'))%nat
  /\ (forall e, (e < length (envs st))%nat -> touch <> Some e ->
                envs st' !! e = envs st !! e)
  /\ stdout st `prefix_of` stdout st'
  /\ stdin st' `suffix_of` stdin st.

(** A step that is run in the frame [env] of a state that satisfies [inv]
    panics only where [panics] allows it and runs out of fuel only where
    [loops] allows it; when it returns, the result satisfies [Q], the state
    satisfies [inv] and has grown from the one before. *)
Definition safe (loops panics : bool) (touch : option envptr) (env : envptr)
    {A : Type} (Q : A -> Prop) (m : M A) : Prop :=
  forall st,
    inv st -> (env < length (envs st))%nat ->
    match m st with
    | Done a st' => Q a /\ inv st' /\ grows touch st st'
    | Panic _ => panics = true
    | Exited _ _ => True
    | OutOfFuel => loops = true
    end.

Definition Qval (v : Object) : Prop := value_ok v = true.
Definition Qres (v : Object) : Prop := result_ok v = true.

(** The values of the elements so far, or the one error that ended the
    evaluation of the elements. *)
Definition elements_ok (rs : list Object) : Prop :=
  forallb storable rs = true
  \/ exists e, rs = [e] /\ isError e = true /\ value_ok e = true.

(** The frames that the evaluation of [node] in [env] may change. *)
Definition touch_of (node : ast.Node) (env : envptr) : option envptr :=
  match node with
  | ast.ProgramNode _ => Some env
  | ast.StatementNode s =>
      match s with
      | ast.LetStatement _ _ _ | ast.IfStatement _ _ _ _ _
      | ast.BlockStatementStmt _ | ast.WhileStatement _ _ _ => Some env
      | _ => None
      end
  | ast.ExpressionNode _ => None
  end.

Definition Q_of (node : ast.Node) (v : Object) : Prop :=
  match node with
  | ast.ProgramNode _ => program_ok v = true
  | ast.StatementNode _ => result_ok v = true
  | ast.ExpressionNode _ => value_ok v = true
  end.

End safety.

(** ** Parsing: what bounds the work *)

Module progress.
Import host.

(** The bytes that the lexer has not read yet, the byte past the end
    included. *)
Definition unread (lx : lexer.Lexer) : nat :=
  Z.to_nat (len (lexer.input lx) + 1 - lexer.readPosition lx).

(** Once the lexer has read past the end, its current byte is NUL. *)
Definition synced (lx : lexer.Lexer) : Prop :=
  0 <= lexer.readPosition lx
  /\ (unread lx = 0%nat -> lexer.ch lx = NUL).

Definition live (t : token.Token) : nat :=
  if String.eqb (token.Type_ t) token.EOF then 0 else 1.

(** A number that every [nextToken] lowers, until the lexer is past the end
    and both tokens of the parser are EOF. *)
Definition potential (p : parser.Parser) : nat :=
  match unread (parser.l p) with
  | O => 2 * live (parser.peekToken p) + live (parser.curToken p)
  | S _ => unread (parser.l p) + 3
  end.

Definition good (p : parser.Parser) : Prop :=
  parser.registered p /\ synced (parser.l p).

Definition within (b : nat) (p : parser.Parser) : Prop :=
  good p /\ (potential p <= b)%nat.

(** The method [m] returns from the state [p], with a result and a state
    that satisfy [Q]. *)
Definition runs {A : Type} (m : parser.P A) (p : parser.Parser)
    (Q : A -> parser.Parser -> Prop) : Prop :=
  exists a p', m p = Some (a, p') /\ Q a p'.

(** The fuel that is enough for a source text of [n] bytes. *)
Definition enough (n : nat) : nat := 2 * n + 8.

End progress.

(** ** Induction principles *)

Module induction.

Section AstInduction.
Import ast.

Variable Pe : Expression -> Prop.
Variable Ps : Statement -> Prop.
Variable Pb : BlockStatement -> Prop.
Variable Pi : ElseIfBlock -> Prop.

Hypothesis H_Nil : Pe NilExpression.
Hypothesis H_Identifier : forall i, Pe (IdentifierExpr i).
Hypothesis H_Integer : forall t v, Pe (IntegerLiteral t v).
Hypothesis H_Float : forall t v, Pe (FloatLiteral t v).
Hypothesis H_String : forall s, Pe (StringLiteralExpr s).
Hypothesis H_Boolean : forall t v, Pe (BooleanLiteral t v).
Hypothesis H_Prefix : forall t o r, Pe r -> Pe (PrefixExpression t o r).
Hypothesis H_Infix : forall t l o r,
  Pe l -> Pe r -> Pe (InfixExpression t l o r).
Hypothesis H_Function : forall t ps b, Pb b -> Pe (FunctionLiteral t ps b).
Hypothesis H_Call : forall t f args,
  Pe f -> Forall Pe args -> Pe (CallExpression t f args).
Hypothesis H_List : forall t es, Forall Pe es -> Pe (ListLiteral t es).
Hypothesis H_GetItem : forall t l i,
  Pe l -> Pe i -> Pe (GetItemAtIndexExpression t l i).
Hypothesis H_IsDefined : forall t i, Pe (IsDefinedExpression t i).
Hypothesis H_ToNumber : forall t x, Pe x -> Pe (ConvertToNumberExpression t x).
Hypothesis H_ToString : forall t x, Pe x -> Pe (ConvertToStringExpression t x).
Hypothesis H_Let : forall t n v, Pe v -> Ps (LetStatement t n v).
Hypothesis H_Return : forall t v, Pe v -> Ps (ReturnStatement t v).
Hypothesis H_Expression : forall t e, Pe e -> Ps (ExpressionStatement t e).
Hypothesis H_If : forall t c th eifs els,
  Pe c -> Pb th -> Forall Pi eifs ->
  (forall b, els = Some b -> Pb b) -> Ps (IfStatement t c th eifs els).
Hypothesis H_BlockStmt : forall b, Pb b -> Ps (BlockStatementStmt b).
Hypothesis H_While : forall t c b, Pe c -> Pb b -> Ps (WhileStatement t c b).
Hypothesis H_ForEach : forall t v it b,
  Pe it -> Pb b -> Ps (ForEachStatement t v it b).
Hypothesis H_Print : forall t v, Pe v -> Ps (PrintStatement t v).
Hypothesis H_Input : forall t p, Ps (InputStatement t p).
Hypothesis H_Exit : forall t c, Pe c -> Ps (ExitStatement t c).
Hypothesis H_Block : forall t ss, Forall Ps ss -> Pb (mkBlockStatement t ss).
Hypothesis H_ElseIf : forall c b, Pe c -> Pb b -> Pi (mkElseIfBlock c b).

Fixpoint Expression_all (e : Expression) : Pe e :=
  match e with
  | NilExpression => H_Nil
  | IdentifierExpr i => H_Identifier i
  | IntegerLiteral t v => H_Integer t v
  | FloatLiteral t v => H_Float t v
  | StringLiteralExpr s => H_String s
  | BooleanLiteral t v => H_Boolean t v
  | PrefixExpression t o r => H_Prefix t o r (Expression_all r)
  | InfixExpression t l o r =>
      H_Infix t l o r (Expression_all l) (Expression_all r)
  | FunctionLiteral t ps b => H_Function t ps b (BlockStatement_all b)
  | CallExpression t f args =>
      H_Call t f args (Expression_all f)
        ((fix go (xs : list Expression) : Forall Pe xs :=
            match xs with
            | [] => @List.Forall_nil _ Pe
            | x :: rest => @List.Forall_cons _ _ x rest (Expression_all x) (go rest)
            end) args)
  | ListLiteral t es =>
      H_List t es
        ((fix go (xs : list Expression) : Forall Pe xs :=
            match xs with
            | [] => @List.Forall_nil _ Pe
            | x :: rest => @List.Forall_cons _ _ x rest (Expression_all x) (go rest)
            end) es)
  | GetItemAtIndexExpression t l i =>
      H_GetItem t l i (Expression_all l) (Expression_all i)
  | IsDefinedExpression t i => H_IsDefined t i
  | ConvertToNumberExpression t x => H_ToNumber t x (Expression_all x)
  | ConvertToStringExpression t x => H_ToString t x (Expression_all x)
  end
with Statement_all (s : Statement) : Ps s :=
  match s with
  | LetStatement t n v => H_Let t n v (Expression_all v)
  | ReturnStatement t v => H_Return t v (Expression_all v)
  | ExpressionStatement t e => H_Expression t e (Expression_all e)
  | IfStatement t c th eifs els =>
      H_If t c th eifs els (Expression_all c) (BlockStatement_all th)
        ((fix go (xs : list ElseIfBlock) : Forall Pi xs :=
            match xs with
            | [] => @List.Forall_nil _ Pi
            | x :: rest => @List.Forall_cons _ _ x rest (ElseIfBlock_all x) (go rest)
            end) eifs)
        (match els as o return forall b, o = Some b -> Pb b with
         | Some b0 =>
             fun b E =>
               match E in _ = o'
                     return match o' with Some b' => Pb b' | None => True end
               with
               | eq_refl => BlockStatement_all b0
               end
         | None => fun b E => match E with end
         end)
  | BlockStatementStmt b => H_BlockStmt b (BlockStatement_all b)
  | WhileStatement t c b =>
      H_While t c b (Expression_all c) (BlockStatement_all b)
  | ForEachStatement t v it b =>
      H_ForEach t v it b (Expression_all it) (BlockStatement_all b)
  | PrintStatement t v => H_Print t v (Expression_all v)
  | InputStatement t p => H_Input t p
  | ExitStatement t c => H_Exit t c (Expression_all c)
  end
with BlockStatement_all (b : BlockStatement) : Pb b :=
  match b with
  | mkBlockStatement t ss =>
      H_Block t ss
        ((fix go (xs : list Statement) : Forall Ps xs :=
            match xs with
            | [] => @List.Forall_nil _ Ps
            | x :: rest => @List.Forall_cons _ _ x rest (Statement_all x) (go rest)
            end) ss)
  end
with ElseIfBlock_all (i : ElseIfBlock) : Pi i :=
  match i with
  | mkElseIfBlock c b => H_ElseIf c b (Expression_all c) (BlockStatement_all b)
  end.

(** Induction over syntax trees, through the slices of children. *)
Definition ast_mutind :
    (forall e, Pe e) /\ (forall s, Ps s) /\ (forall b, Pb b)
    /\ (forall i, Pi i) :=
  conj Expression_all
    (conj Statement_all (conj BlockStatement_all ElseIfBlock_all)).

End AstInduction.

Section ObjectInduction.
Import object.

Variable P : Object -> Prop.
Hypothesis H_nil : P nil.
Hypothesis H_Integer : forall p v, P (Integer p v).
Hypothesis H_Float : forall p v, P (Float p v).
Hypothesis H_Boolean : forall p v, P (Boolean p v).
Hypothesis H_String : forall p v, P (String_ p v).
Hypothesis H_Null : forall p, P (Null p).
Hypothesis H_ReturnValue : forall p v, P v -> P (ReturnValue p v).
Hypothesis H_Error : forall p m, P (Error p m).
Hypothesis H_List : forall p elems, Forall P elems -> P (List p elems).

(** Induction over run-time values, through the elements of lists. *)
Fixpoint Object_all (o : Object) : P o :=
  match o with
  | nil => H_nil
  | Integer p v => H_Integer p v
  | Float p v => H_Float p v
  | Boolean p v => H_Boolean p v
  | String_ p v => H_String p v
  | Null p => H_Null p
  | ReturnValue p v => H_ReturnValue p v (Object_all v)
  | Error p m => H_Error p m
  | List p elems =>
      H_List p elems
        ((fix go (xs : list Object) : Forall P xs :=
            match xs with
            | [] => @List.Forall_nil _ P
            | x :: rest => @List.Forall_cons _ _ x rest (Object_all x) (go rest)
            end) elems)
  end.

End ObjectInduction.

End induction.

(** * Properties *)

(** ** The lexer *)

Section LexerFacts.
Import host lexer.

Lemma scan_input cond pre fuel : forall l,
  (forall x, input (pre x) = input x) ->
  input (scan cond pre fuel l) = input l.
Proof.
  induction fuel as [|n IH]; intros l Hpre; simpl.
  - destruct (cond (ch l)); reflexivity.
  - destruct (cond (ch l)); [|reflexivity].
    rewrite IH by assumption. simpl. apply Hpre.
Qed.

Lemma bump_line_input l : input (bump_line l) = input l.
Proof. unfold bump_line. destruct (Ascii.eqb (ch l) newline); reflexivity. Qed.

Lemma readChar_past_end l :
  len (input l) <= readPosition l -> ch (readChar l) = NUL.
Proof.
  intros H. unfold readChar; cbn [ch].
  destruct (readPosition l >=? len (input l)) eqn:E; [reflexivity|lia].
Qed.

(** The fuel of a scanning loop is enough: the loop ends on a byte that
    fails its condition. *)
Lemma scan_stops cond pre : cond NUL = false ->
  (forall x, input (pre x) = input x) ->
  (forall x, readPosition (pre x) = readPosition x) ->
  forall fuel l,
    (Z.to_nat (len (input l) - readPosition l) < fuel)%nat ->
    cond (ch (scan cond pre fuel l)) = false.
Proof.
  intros Hnul Hin Hrp. induction fuel as [|n IH]; intros l Hf; [lia|].
  cbn [scan]. destruct (cond (ch l)) eqn:Ec; [|exact Ec].
  destruct (Z_le_gt_dec (len (input l)) (readPosition l)) as [Hle|Hgt].
  - assert (E : ch (readChar (pre l)) = NUL).
    { apply readChar_past_end. rewrite Hin, Hrp. exact Hle. }
    destruct n; cbn [scan]; rewrite E, Hnul; cbv iota; rewrite E; exact Hnul.
  - apply IH. unfold readChar; cbn [input readPosition]. rewrite Hin, Hrp. lia.
Qed.

Lemma skipWhitespace_stops l : IsSpace (ch (skipWhitespace l)) = false.
Proof.
  unfold skipWhitespace. apply scan_stops.
  - reflexivity.
  - apply bump_line_input.
  - intros x. unfold bump_line. destruct (Ascii.eqb (ch x) newline); reflexivity.
  - unfold scan_fuel. lia.
Qed.

(** What [peekKeyword] does restore. *)
Lemma peekKeyword_restores keyword l :
  let l' := snd (peekKeyword keyword l) in
  input l' = input l /\ position l' = position l
  /\ readPosition l' = readPosition l /\ ch l' = ch l
  /\ column l' = column l /\ line l' = line (skipWhitespace l).
Proof.
  unfold peekKeyword; cbn [snd input position readPosition ch column line].
  repeat split.
  - rewrite scan_input by reflexivity.
    unfold skipWhitespace. rewrite scan_input; [reflexivity|apply bump_line_input].
  - generalize (scan_fuel (skipWhitespace l)). generalize (skipWhitespace l).
    intros l0 n. revert l0. induction n as [|n IH]; intros l0; simpl.
    + destruct (IsLetter (ch l0)); reflexivity.
    + destruct (IsLetter (ch l0)); [|reflexivity]. rewrite IH. reflexivity.
Qed.

(** C9 (the code departs from it).  A failed peek for a keyword leaves the
    position, the read position, the current byte and the column as they
    were, but not the line: the line feeds that the peek skipped stay
    counted.  After the word [end] on line 1, followed by a line feed and
    [x], the failed peek for [if] leaves the line at 2; [NextToken] peeks
    four times there and reports the token [end] on line 5. *)
Theorem C9_peekKeyword_keeps_skipped_lines :
  let src := "end" +:+ String newline "x" in
  let l := snd (readIdentifier (New src)) in
  let r := peekKeyword "if" l in
  fst r = false
  /\ position (snd r) = position l
  /\ readPosition (snd r) = readPosition l
  /\ ch (snd r) = ch l
  /\ column (snd r) = column l
  /\ line l = 1
  /\ line (snd r) = 2
  /\ fst <$> NextToken (New src) = Some (token.mkToken token.END "end" 5 3).
Proof. vm_compute. repeat split; reflexivity. Qed.

Lemma scan_readPosition cond pre :
  (forall x, readPosition (pre x) = readPosition x) ->
  forall fuel l, readPosition l <= readPosition (scan cond pre fuel l).
Proof.
  intros Hrp. induction fuel as [|n IH]; intros l; cbn [scan].
  - destruct (cond (ch l)); lia.
  - destruct (cond (ch l)); [|lia].
    specialize (IH (readChar (pre l))).
    assert (E : readPosition (readChar (pre l)) = readPosition l + 1)
      by (unfold readChar; cbn [readPosition]; rewrite Hrp; reflexivity).
    lia.
Qed.

Lemma scan_step cond pre :
  (forall x, readPosition (pre x) = readPosition x) ->
  forall fuel l, cond (ch l) = true ->
    readPosition l + 1 <= readPosition (scan cond pre (S fuel) l).
Proof.
  intros Hrp fuel l Hc. cbn [scan]. rewrite Hc.
  pose proof (scan_readPosition cond pre Hrp fuel (readChar (pre l))) as H.
  assert (E : readPosition (readChar (pre l)) = readPosition l + 1)
    by (unfold readChar; cbn [readPosition]; rewrite Hrp; reflexivity).
  lia.
Qed.

Lemma bump_line_readPosition x : readPosition (bump_line x) = readPosition x.
Proof. unfold bump_line. destruct (Ascii.eqb (ch x) newline); reflexivity. Qed.

Lemma NextToken_from_at_end fuel l :
  ch l = NUL -> is_Some (NextToken_from fuel l).
Proof.
  intros H.
  assert (E : skipWhitespace l = l).
  { unfold skipWhitespace, scan_fuel. cbn [scan]. rewrite H. reflexivity. }
  destruct fuel; cbn [NextToken_from]; rewrite E, H; cbn; eauto.
Qed.

(** The lexer always delivers a token: the fuel of [NextToken] is enough. *)
Lemma NextToken_from_total : forall fuel l,
  (Z.to_nat (len (input l) - readPosition l) < fuel)%nat ->
  is_Some (NextToken_from fuel l).
Proof.
  induction fuel as [|f IH]; intros l Hf; [lia|].
  cbn [NextToken_from].
  set (l1 := skipWhitespace l).
  assert (R1 : readPosition l <= readPosition l1).
  { apply scan_readPosition. apply bump_line_readPosition. }
  assert (I1 : input l1 = input l).
  { apply scan_input. apply bump_line_input. }
  destruct (Ascii.eqb (ch l1) NUL); [eauto|].
  destruct (Ascii.eqb (ch l1) hash) eqn:Eh.
  - apply Ascii.eqb_eq in Eh.
    unfold readComment. cbn [snd]. unfold scan_fuel.
    set (k := Z.to_nat (len (input l1) - readPosition l1)).
    destruct (Z_le_gt_dec (len (input l1)) (readPosition l1)) as [Hle|Hgt].
    + apply NextToken_from_at_end.
      assert (C : in_comment (ch l1) = true) by (rewrite Eh; reflexivity).
      assert (E : ch (readChar (no_pre l1)) = NUL)
        by (apply readChar_past_end; exact Hle).
      cbn [scan]. rewrite C.
      destruct k; cbn [scan]; rewrite E; change (in_comment NUL) with false;
        cbv iota; exact E.
    + apply IH.
      assert (C : in_comment (ch l1) = true) by (rewrite Eh; reflexivity).
      pose proof (scan_step in_comment no_pre (fun _ => eq_refl) k l1 C) as S1.
      rewrite scan_input by reflexivity. rewrite I1 in *. lia.
  - destruct (Ascii.eqb (ch l1) dquote).
    { destruct (readString l1). eauto. }
    destruct (IsLetter (ch l1)).
    { destruct (readIdentifier l1) as [ident l2].
      destruct (multiWord ident l2); eauto. }
    destruct (IsDigit (ch l1)); eauto.
Qed.

Lemma NextToken_total l : 0 <= readPosition l -> is_Some (NextToken l).
Proof.
  intros H. apply NextToken_from_total.
  assert (0 <= len (input l)) by (unfold len; lia).
  unfold len in *. lia.
Qed.

End LexerFacts.

(** ** [strconv] *)

Section StrconvFacts.
Import host strconv.

Lemma digitLoop_dot base base0 s :
  contains_dot s = true ->
  forall n us, exists e, digitLoop base base0 s n us = inl e.
Proof.
  induction s as [|c s IH]; simpl; [discriminate|].
  intros H n us.
  destruct (Ascii.eqb c dot) eqn:Ec.
  - apply Ascii.eqb_eq in Ec. subst c. simpl. eauto.
  - simpl in H. specialize (IH H).
    destruct (Ascii.eqb c underscore && base0); [apply IH|].
    destruct (digitVal c); [|eauto].
    destruct (base <=? z); [eauto|].
    destruct ((2 ^ 64 - 1) / base + 1 <=? n); [eauto|].
    destruct (2 ^ 64 - 1 <? n * base + z); [eauto|]. apply IH.
Qed.

Lemma ParseUint_dot s :
  contains_dot s = true -> exists e, ParseUint s = inl e.
Proof.
  destruct s as [|c0 rest]; [discriminate|]. intros H.
  unfold ParseUint.
  set (bd := if code c0 =? 48 then _ else _).
  assert (D : contains_dot (snd bd) = true).
  { subst bd. destruct (code c0 =? 48) eqn:E0; [|exact H].
    assert (N0 : Ascii.eqb c0 dot = false).
    { destruct (Ascii.eqb c0 dot) eqn:Ed; [|reflexivity].
      apply Ascii.eqb_eq in Ed. subst c0. discriminate. }
    simpl in H. rewrite N0 in H. simpl in H.
    destruct rest as [|c1 rest']; [discriminate|].
    assert (K : forall k, (lower c1 =? k) = true -> lower dot <> k ->
                          contains_dot rest' = true).
    { intros k Hk Hn. simpl in H. destruct (Ascii.eqb c1 dot) eqn:Ed; [|exact H].
      apply Ascii.eqb_eq in Ed. subst c1. apply Z.eqb_eq in Hk. congruence. }
    destruct ((3 <=? len (String c0 (String c1 rest'))) && (lower c1 =? 98)) eqn:E1.
    { apply andb_true_iff in E1 as [_ E1]. simpl. eapply K; [exact E1|]. discriminate. }
    destruct ((3 <=? len (String c0 (String c1 rest'))) && (lower c1 =? 111)) eqn:E2.
    { apply andb_true_iff in E2 as [_ E2]. simpl. eapply K; [exact E2|]. discriminate. }
    destruct ((3 <=? len (String c0 (String c1 rest'))) && (lower c1 =? 120)) eqn:E3.
    { apply andb_true_iff in E3 as [_ E3]. simpl. eapply K; [exact E3|]. discriminate. }
    exact H. }
  destruct bd as [base digits]. simpl in D.
  destruct (digitLoop_dot base true digits D 0 false) as [e He]. rewrite He. eauto.
Qed.

(** No text with a decimal point is an integer for [ParseInt]. *)
Lemma ParseInt_rejects_dot s :
  contains_dot s = true -> exists msg, ParseInt s = ParseError msg.
Proof.
  destruct s as [|c rest]; [discriminate|]. intros H.
  unfold ParseInt.
  assert (D : contains_dot (if is_sign c then rest else String c rest) = true).
  { destruct (is_sign c) eqn:Es; [|exact H].
    simpl in H. destruct (Ascii.eqb c dot) eqn:Ed; [|exact H].
    apply Ascii.eqb_eq in Ed. subst c. discriminate. }
  destruct (ParseUint_dot _ D) as [e He]. rewrite He. eauto.
Qed.

End StrconvFacts.

(** ** The parser *)

Section ParserTriples.
Import host parser logic.

Lemma ok_ret {A : Type} (Q : A -> Prop) (a : A) : Q a -> ok Q (ret a).
Proof. intros HQ p a' p' Hp H. inversion H; subst. auto. Qed.

Lemma ok_bind {A B : Type} (Q1 : A -> Prop) (Q2 : B -> Prop) (m : P A)
    (k : A -> P B) :
  ok Q1 m -> (forall a, Q1 a -> ok Q2 (k a)) -> ok Q2 (m ≫= k).
Proof.
  intros Hm Hk p b p' Hp H. unfold mbind, P_bind, bind in H.
  destruct (m p) as [[a p1]|] eqn:E; [|discriminate].
  destruct (Hm _ _ _ Hp E) as [Ha Hp1]. exact (Hk a Ha _ _ _ Hp1 H).
Qed.

Lemma ok_stop {A : Type} (Q : A -> Prop) : ok Q stop.
Proof. intros p a p' _ H. discriminate. Qed.

Lemma ok_get : ok registered get.
Proof. intros p a p' Hp H. inversion H; subst. auto. Qed.

Lemma ok_nextToken : ok (fun _ => True) nextToken.
Proof.
  intros p a p' Hp H. unfold nextToken in H.
  destruct (lexer.NextToken (l p)) as [[tok l']|]; inversion H; subst.
  split; [exact I|]. exact Hp.
Qed.

Lemma ok_addError msg : ok (fun _ => True) (addError msg).
Proof. intros p a p' Hp H. inversion H; subst. split; [exact I|exact Hp]. Qed.

Lemma ok_peekError t : ok (fun _ => True) (peekError t).
Proof.
  unfold peekError. eapply ok_bind; [apply ok_get|]. intros; apply ok_addError.
Qed.

Lemma ok_noPrefixParseFnError t : ok (fun _ => True) (noPrefixParseFnError t).
Proof.
  unfold noPrefixParseFnError. eapply ok_bind; [apply ok_get|].
  intros; apply ok_addError.
Qed.

Lemma ok_expectPeek t : ok (fun _ => True) (expectPeek t).
Proof.
  unfold expectPeek. eapply ok_bind; [apply ok_get|]. intros p _.
  destruct (peekTokenIs p t).
  - eapply ok_bind; [apply ok_nextToken|]. intros; apply ok_ret; exact I.
  - eapply ok_bind; [apply ok_peekError|]. intros; apply ok_ret; exact I.
Qed.

(** The prefix table, entry by entry. *)
Lemma prefixTable_list :
  map_to_list prefixTable =
  [ (token.GETITEMATINDEX, fn_parseGetItemAtIndexPrefix);
    (token.STRING, fn_parseStringLiteral);
    (token.CONVERTTOSTRING, fn_parseConvertToStringExpression);
    (token.CONVERTTONUMBER, fn_parseConvertToNumberExpression);
    (token.ISDEFINED, fn_parseIsDefinedExpression);
    (token.IDENT, fn_parseIdentifier);
    (token.NUMBER, fn_parseIntegerLiteral);
    (token.FUNCTION, fn_parseFunctionStatement);
    (token.FALSE, fn_parseBoolean);
    (token.LIST, fn_parseListLiteral);
    (token.TRUE, fn_parseBoolean) ].
Proof. vm_compute. reflexivity. Qed.

Lemma prefixTable_entries t fn :
  prefixTable !! t = Some fn -> spec.builds_produced fn = true.
Proof.
  intros H.
  pose proof (proj2 (elem_of_map_to_list prefixTable t fn) H) as E.
  rewrite prefixTable_list in E.
  repeat (apply elem_of_cons in E as [E|E]; [inversion E; reflexivity|]).
  apply elem_of_nil in E. destruct E.
Qed.

Lemma prefixTable_NUMBER :
  prefixTable !! token.NUMBER = Some fn_parseIntegerLiteral.
Proof. vm_compute. reflexivity. Qed.

Lemma prefixTable_CALL : prefixTable !! token.CALL = None.
Proof. vm_compute. reflexivity. Qed.

Lemma registerParseFunctions_registered p :
  statementParseFns p = ∅ -> registered (registerParseFunctions p).
Proof.
  intros H. destruct p; simpl in H; subst.
  repeat split; vm_compute; reflexivity.
Qed.

Lemma New_registered lx p : New lx = Some p -> registered p.
Proof.
  unfold New. intros H.
  set (p0 := registerParseFunctions _) in H.
  assert (R : registered p0)
    by (apply registerParseFunctions_registered; reflexivity).
  clearbody p0.
  destruct ((nextToken;; nextToken) p0) as [[u p1]|] eqn:E; [|discriminate].
  inversion H; subst.
  assert (O : ok (fun _ : unit => True) (nextToken;; nextToken)).
  { eapply ok_bind; [apply ok_nextToken|]. intros; apply ok_nextToken. }
  apply (O _ _ _ R E).
Qed.

End ParserTriples.

Create HintDb okdb.

(** Every node that a method builds satisfies [Pb], whenever [Pb] holds of
    the node kinds that the registered methods build; [parseStatement_] and
    [parseExpression_] are assumed to do so already. *)
Section ParserMethods.
Import host parser logic.

Variable Pb : ast.Expression -> bool.
Hypothesis Pb_produced : forall e, spec.produced e = true -> Pb e = true.

Variable ParseInt : string -> parsed Z.
Variable ParseFloat : string -> parsed float.
Variable parseStatement_ : P (option ast.Statement).
Variable parseExpression_ : Z -> P ast.Expression.
Variable fuel : nat.
Hypothesis IHs : ok (Qos Pb) parseStatement_.
Hypothesis IHe : forall prec, ok (Qe Pb) (parseExpression_ prec).

#[local] Hint Resolve ok_get ok_nextToken ok_expectPeek ok_addError
  ok_noPrefixParseFnError IHe IHs : okdb.

Ltac sub := solve [ eauto 3 with okdb nocore ].

Ltac close :=
  cbv beta delta [Qe Qs Qos Qss Qb Qes] in *;
  cbn [ast.every_expr ast.every_stmt ast.every_block ast.every_elseif forallb];
  repeat match goal with
         | H : _ = true |- _ => rewrite H
         end;
  rewrite ?Pb_produced by reflexivity;
  try reflexivity; try exact I.

Ltac go :=
  repeat first
    [ apply ok_stop
    | solve [sub]
    | apply ok_ret; close
    | eapply ok_bind; [ solve [sub] | intros ? ? ]
    | match goal with
      | |- ok _ (if ?b then _ else _) => destruct b
      | |- ok _ (match ?x with _ => _ end) => destruct x eqn:?
      end ].

Lemma ok_parseLetStatement : ok (Qos Pb) (parseLetStatement parseExpression_).
Proof using IHe. unfold parseLetStatement. go. Qed.

Lemma ok_parseReturnStatement :
  ok (Qos Pb) (parseReturnStatement parseExpression_).
Proof using IHe. unfold parseReturnStatement. go. Qed.

Lemma ok_parseExpressionStatement :
  ok (Qs Pb) (parseExpressionStatement parseExpression_).
Proof using IHe. unfold parseExpressionStatement. go. Qed.

Lemma ok_parseIdentifier : ok (Qe Pb) parseIdentifier.
Proof using Pb_produced. unfold parseIdentifier. go. Qed.

Lemma ok_parseIntegerLiteral : ok (Qe Pb) (parseIntegerLiteral ParseInt).
Proof using Pb_produced. unfold parseIntegerLiteral. go. Qed.

Lemma ok_parseStringLiteralStruct :
  ok (fun _ => True) parseStringLiteralStruct.
Proof. unfold parseStringLiteralStruct. go. Qed.
#[local] Hint Resolve ok_parseStringLiteralStruct : okdb.

Lemma ok_parseStringLiteral : ok (Qe Pb) parseStringLiteral.
Proof using Pb_produced. unfold parseStringLiteral. go. Qed.

Lemma ok_parseBoolean : ok (Qe Pb) parseBoolean.
Proof using Pb_produced. unfold parseBoolean. go. Qed.

Lemma ok_parseGroupedExpression :
  ok (Qe Pb) (parseGroupedExpression parseExpression_).
Proof using IHe. unfold parseGroupedExpression. go. Qed.

Lemma Qss_appendStmt acc stmt :
  Qss Pb acc -> Qos Pb stmt -> Qss Pb (appendStmt acc stmt).
Proof.
  unfold Qss, Qos, Qs, appendStmt. intros Ha Hs. destruct stmt; [|exact Ha].
  rewrite forallb_app, Ha. simpl. rewrite Hs. reflexivity.
Qed.

Lemma ok_blockLoop n : forall acc,
  Qss Pb acc -> ok (Qss Pb) (blockLoop parseStatement_ n acc).
Proof using IHs.
  induction n as [|n IH]; intros acc Hacc; simpl.
  - eapply ok_bind; [apply ok_get|]. intros p Hp.
    destruct (blockEnds p); [apply ok_ret; exact Hacc|apply ok_stop].
  - eapply ok_bind; [apply ok_get|]. intros p Hp.
    destruct (blockEnds p); [apply ok_ret; exact Hacc|].
    eapply ok_bind; [apply IHs|]. intros stmt Hs.
    eapply ok_bind; [apply ok_nextToken|]. intros _ _.
    apply IH. apply Qss_appendStmt; assumption.
Qed.

Lemma ok_parseBlockStatement :
  ok (Qb Pb) (parseBlockStatement parseStatement_ fuel).
Proof using IHs.
  unfold parseBlockStatement.
  eapply ok_bind; [apply ok_get|]. intros p Hp.
  eapply ok_bind; [apply ok_nextToken|]. intros _ _.
  eapply ok_bind; [apply ok_blockLoop; reflexivity|]. intros ss Hss.
  apply ok_ret. exact Hss.
Qed.
#[local] Hint Resolve ok_parseBlockStatement : okdb.

Lemma ok_elseifLoop n : forall acc,
  forallb (ast.every_elseif Pb) acc = true ->
  ok (fun o => match o with
               | Some bs => forallb (ast.every_elseif Pb) bs = true
               | None => True
               end)
     (elseifLoop parseStatement_ parseExpression_ fuel n acc).
Proof using IHs IHe.
  induction n as [|n IH]; intros acc Hacc; simpl.
  - eapply ok_bind; [apply ok_get|]. intros p Hp.
    destruct (peekTokenIs p token.ELSEIF); [apply ok_stop|apply ok_ret; exact Hacc].
  - eapply ok_bind; [apply ok_get|]. intros p Hp.
    destruct (peekTokenIs p token.ELSEIF); [|apply ok_ret; exact Hacc].
    eapply ok_bind; [apply ok_nextToken|]. intros _ _.
    eapply ok_bind; [apply IHe|]. intros c Hc.
    eapply ok_bind; [apply ok_expectPeek|]. intros b _.
    destruct b; simpl; [|apply ok_ret; exact I].
    eapply ok_bind; [apply ok_parseBlockStatement|]. intros blk Hb.
    apply IH. rewrite forallb_app, Hacc. simpl.
    unfold Qe, Qb in *. rewrite Hc, Hb. reflexivity.
Qed.

Lemma ok_parseIfStatement :
  ok (Qos Pb) (parseIfStatement parseStatement_ parseExpression_ fuel).
Proof using IHs IHe.
  unfold parseIfStatement.
  eapply ok_bind; [apply ok_get|]. intros p Hp.
  eapply ok_bind; [apply ok_nextToken|]. intros _ _.
  eapply ok_bind; [apply IHe|]. intros c Hc.
  eapply ok_bind; [apply ok_expectPeek|]. intros b _.
  destruct b; simpl; [|apply ok_ret; exact I].
  eapply ok_bind; [apply ok_parseBlockStatement|]. intros thenB Ht.
  eapply ok_bind; [apply ok_elseifLoop; reflexivity|]. intros [eifs|] He;
    [|apply ok_ret; exact I].
  eapply ok_bind; [apply ok_get|]. intros p1 Hp1.
  eapply ok_bind.
  { instantiate (1 := fun o => match o with
                               | Some blk => Qb Pb blk
                               | None => True
                               end).
    destruct (peekTokenIs p1 token.ELSE).
    - eapply ok_bind; [apply ok_nextToken|]. intros _ _.
      eapply ok_bind; [apply ok_parseBlockStatement|]. intros blk Hb.
      apply ok_ret. exact Hb.
    - apply ok_ret. exact I. }
  intros elseB Hel.
  eapply ok_bind; [apply ok_expectPeek|]. intros b _.
  destruct b; simpl; [|apply ok_ret; exact I].
  apply ok_ret. unfold Qos, Qs, Qe, Qb in *. simpl.
  rewrite Hc, Ht, He. destruct elseB; [rewrite Hel|]; reflexivity.
Qed.

Lemma ok_parseWhileStatement :
  ok (Qos Pb) (parseWhileStatement parseStatement_ parseExpression_ fuel).
Proof using IHs IHe. unfold parseWhileStatement. go. Qed.

Lemma ok_parseForEachStatement :
  ok (Qos Pb) (parseForEachStatement parseStatement_ parseExpression_ fuel).
Proof using IHs IHe. unfold parseForEachStatement. go. Qed.

Lemma ok_paramLoop n : forall acc, ok (fun _ => True) (paramLoop n acc).
Proof.
  induction n as [|n IH]; intros acc; simpl.
  - go.
  - eapply ok_bind; [apply ok_get|]. intros p Hp.
    destruct (peekTokenIs p token.IDENT); [|apply ok_ret; exact I].
    eapply ok_bind; [apply ok_nextToken|]. intros _ _.
    eapply ok_bind; [apply ok_get|]. intros p' Hp'. apply IH.
Qed.
#[local] Hint Resolve ok_paramLoop : okdb.

Lemma ok_parseFunctionParameters :
  ok (fun _ => True) (parseFunctionParameters fuel).
Proof. unfold parseFunctionParameters. go. Qed.
#[local] Hint Resolve ok_parseFunctionParameters : okdb.

Lemma ok_parseFunctionStatement :
  ok (Qe Pb) (parseFunctionStatement parseStatement_ fuel).
Proof using IHs Pb_produced.
  unfold parseFunctionStatement.
  eapply ok_bind; [apply ok_get|]. intros p Hp.
  eapply ok_bind.
  { instantiate (1 := fun _ => True). destruct (peekTokenIs p token.IDENT); go. }
  intros params _. go.
Qed.

Lemma ok_argLoop n : forall acc,
  Qes Pb acc -> ok (Qes Pb) (argLoop parseExpression_ n acc).
Proof using IHe.
  induction n as [|n IH]; intros acc Hacc; simpl.
  - eapply ok_bind; [apply ok_get|]. intros p Hp.
    destruct (startsArgument p); [apply ok_stop|apply ok_ret; exact Hacc].
  - eapply ok_bind; [apply ok_get|]. intros p Hp.
    destruct (startsArgument p); [|apply ok_ret; exact Hacc].
    eapply ok_bind; [apply ok_nextToken|]. intros _ _.
    eapply ok_bind; [apply IHe|]. intros e He.
    apply IH. unfold Qes, Qe in *. rewrite forallb_app, Hacc. simpl.
    rewrite He. reflexivity.
Qed.

Lemma ok_parseListLiteral : ok (Qe Pb) (parseListLiteral parseExpression_ fuel).
Proof using IHe Pb_produced.
  unfold parseListLiteral.
  eapply ok_bind; [apply ok_get|]. intros p Hp.
  destruct (peekTokenIs p token.END); [go|].
  eapply ok_bind; [apply ok_nextToken|]. intros _ _.
  eapply ok_bind; [apply IHe|]. intros e He.
  eapply ok_bind; [apply ok_argLoop|].
  { unfold Qes, Qe in *. simpl. rewrite He. reflexivity. }
  intros es Hes. go.
Qed.

Lemma ok_parsePrintStatement :
  ok (Qos Pb) (parsePrintStatement parseExpression_).
Proof using IHe. unfold parsePrintStatement. go. Qed.

Lemma ok_parseInputStatement : ok (Qos Pb) parseInputStatement.
Proof. unfold parseInputStatement. go. Qed.

Lemma ok_parseIsDefinedExpression : ok (Qe Pb) parseIsDefinedExpression.
Proof using Pb_produced. unfold parseIsDefinedExpression. go. Qed.

Lemma ok_parseExitStatement :
  ok (Qos Pb) (parseExitStatement parseExpression_).
Proof using IHe Pb_produced. unfold parseExitStatement. go. Qed.

Lemma ok_parseConvertToNumberExpression :
  ok (Qe Pb) (parseConvertToNumberExpression parseExpression_).
Proof using IHe Pb_produced. unfold parseConvertToNumberExpression. go. Qed.

Lemma ok_parseConvertToStringExpression :
  ok (Qe Pb) (parseConvertToStringExpression parseExpression_).
Proof using IHe Pb_produced. unfold parseConvertToStringExpression. go. Qed.

Lemma ok_parseGetItemAtIndexPrefix :
  ok (Qe Pb) (parseGetItemAtIndexPrefix parseExpression_).
Proof using IHe Pb_produced. unfold parseGetItemAtIndexPrefix. go. Qed.

Lemma ok_callPrefix fn :
  spec.builds_produced fn = true ->
  ok (Qe Pb)
    (callPrefix ParseInt ParseFloat parseStatement_ parseExpression_ fuel fn).
Proof using IHs IHe Pb_produced.
  destruct fn; simpl; try discriminate; intros _;
    auto using ok_parseIdentifier, ok_parseIntegerLiteral,
      ok_parseStringLiteral, ok_parseBoolean, ok_parseGroupedExpression,
      ok_parseFunctionStatement, ok_parseListLiteral,
      ok_parseGetItemAtIndexPrefix, ok_parseIsDefinedExpression,
      ok_parseConvertToNumberExpression, ok_parseConvertToStringExpression.
Qed.

Lemma ok_callStatement fn :
  ok (Qos Pb) (callStatement parseStatement_ parseExpression_ fuel fn).
Proof using IHs IHe Pb_produced.
  destruct fn; simpl;
    auto using ok_parseLetStatement, ok_parseIfStatement,
      ok_parsePrintStatement, ok_parseWhileStatement,
      ok_parseForEachStatement, ok_parseReturnStatement,
      ok_parseExitStatement, ok_parseInputStatement.
Qed.

Lemma ok_parseExpression_body prec :
  ok (Qe Pb)
    (parseExpression_body ParseInt ParseFloat parseStatement_
       parseExpression_ fuel prec).
Proof using IHs IHe Pb_produced.
  unfold parseExpression_body.
  eapply ok_bind; [apply ok_get|]. intros p [Hp _].
  rewrite Hp.
  destruct (prefixTable !! token.Type_ (curToken p)) as [fn|] eqn:E.
  - eapply ok_bind; [apply ok_callPrefix; eapply prefixTable_entries; exact E|].
    intros e He. apply ok_ret. exact He.
  - go.
Qed.

Lemma ok_parseStatement_body :
  ok (Qos Pb) (parseStatement_body parseStatement_ parseExpression_ fuel).
Proof using IHs IHe Pb_produced.
  unfold parseStatement_body.
  eapply ok_bind; [apply ok_get|]. intros p Hp.
  destruct (statementParseFns p !! token.Type_ (curToken p)) as [fn|].
  - apply ok_callStatement.
  - eapply ok_bind; [apply ok_parseExpressionStatement|]. intros s Hs.
    apply ok_ret. exact Hs.
Qed.

End ParserMethods.

Section ParserRecursion.
Import host parser logic.

Variable Pb : ast.Expression -> bool.
Hypothesis Pb_produced : forall e, spec.produced e = true -> Pb e = true.
Variable ParseInt : string -> parsed Z.
Variable ParseFloat : string -> parsed float.

Lemma ok_parse fuel :
  ok (Qos Pb) (parseStatement ParseInt ParseFloat fuel)
  /\ forall prec, ok (Qe Pb) (parseExpression ParseInt ParseFloat fuel prec).
Proof using Pb_produced.
  induction fuel as [|n [IHs IHe]]; simpl.
  - split; [|intros prec]; apply ok_stop.
  - split; [|intros prec].
    + apply ok_parseStatement_body; assumption.
    + apply ok_parseExpression_body; assumption.
Qed.

Lemma ok_programLoop fuel n : forall acc,
  Qss Pb acc -> ok (Qss Pb) (programLoop ParseInt ParseFloat fuel n acc).
Proof using Pb_produced.
  induction n as [|n IH]; intros acc Hacc; simpl.
  - eapply ok_bind; [apply ok_get|]. intros p Hp.
    destruct (curTokenIs p token.EOF); [apply ok_ret; exact Hacc|apply ok_stop].
  - eapply ok_bind; [apply ok_get|]. intros p Hp.
    destruct (curTokenIs p token.EOF); [apply ok_ret; exact Hacc|].
    eapply ok_bind; [apply ok_parse|]. intros stmt Hs.
    eapply ok_bind; [apply ok_nextToken|]. intros _ _.
    apply IH. apply Qss_appendStmt; assumption.
Qed.

(** Whatever the source text, every expression of the parsed program is of
    a kind that the registered methods build. *)
Lemma parse_every fuel src program errs :
  driver.parse ParseInt ParseFloat fuel src = Some (program, errs) ->
  ast.every_program Pb program = true.
Proof using Pb_produced.
  unfold driver.parse. intros H.
  destruct (New (lexer.New src)) as [p0|] eqn:HN; [|discriminate].
  destruct (ParseProgram ParseInt ParseFloat fuel p0) as [[pr p']|] eqn:HP;
    [|discriminate].
  inversion H; subst. apply New_registered in HN.
  assert (O : ok (fun pr => ast.every_program Pb pr = true)
                (ParseProgram ParseInt ParseFloat fuel)).
  { unfold ParseProgram. eapply ok_bind; [apply ok_programLoop; reflexivity|].
    intros ss Hss. apply ok_ret. exact Hss. }
  apply (O _ _ _ HN HP).
Qed.

End ParserRecursion.

Section ParserClaims.
Import host parser.

Variable ParseInt : string -> parsed Z.
Variable ParseFloat : string -> parsed float.

(** On a token without prefix method [parseExpression] records the
    diagnostic and returns nil, leaving the token where it is. *)
Lemma parseExpression_unregistered fuel prec p :
  registered p ->
  prefixTable !! token.Type_ (curToken p) = None ->
  parseExpression ParseInt ParseFloat (S fuel) prec p
  = Some (ast.NilExpression,
          set_errors
            (errors p ++
             ["no prefix parse function for " +:+ token.Type_ (curToken p)
              +:+ " found at line " +:+ itoa (token.Line (curToken p))
              +:+ ", column " +:+ itoa (token.Column (curToken p))]) p).
Proof.
  intros (Hp & _) Hn. cbn [parseExpression].
  unfold parseExpression_body, mbind, P_bind, bind, get.
  rewrite Hp, Hn. reflexivity.
Qed.

Lemma binary_operators_unregistered t :
  In t spec.binary_operators ->
  prefixTable !! t = None /\ statementTable !! t = None
  /\ String.eqb t token.EOF = false.
Proof.
  intros H.
  repeat (destruct H as [<-|H];
          [split; [|split]; vm_compute; reflexivity|]).
  destruct H.
Qed.

(** C2 (as amended).  [parseInfixExpression] builds an InfixExpression from
    the operator token and parses the right side at the operator's
    precedence, but nothing calls it: the infix table of the parser is
    empty, [parseExpression] returns what the prefix method of the current
    token returns, whatever the precedence, and no program that the parser
    returns holds an InfixExpression.  None of the twelve kinds of binary
    operator tokens has a prefix or a statement method: where such a token
    is the current one, [parseStatement] reads no token, returns an
    expression statement whose expression is nil and adds the diagnostic
    [no prefix parse function for ... found at line ..., column ...] of
    that token; the loop of [ParseProgram] appends that statement and goes
    on behind the token with a statement of its own. *)
Theorem C2_parseExpression_is_prefix_only :
  (forall pE left p,
     parseInfixExpression pE left p =
     match nextToken p with
     | Some (_, p1) =>
         match pE (curPrecedence p) p1 with
         | Some (rhs, p2) =>
             Some (ast.InfixExpression (curToken p) left
                     (token.Literal (curToken p)) rhs, p2)
         | None => None
         end
     | None => None
     end)
  /\ (forall p, registered p -> infixParseFns p = ∅)
  /\ (forall fuel prec prec' p,
        parseExpression ParseInt ParseFloat fuel prec p
        = parseExpression ParseInt ParseFloat fuel prec' p)
  /\ (forall fuel prec p fn,
        prefixParseFns p !! token.Type_ (curToken p) = Some fn ->
        parseExpression ParseInt ParseFloat (S fuel) prec p
        = callPrefix ParseInt ParseFloat (parseStatement ParseInt ParseFloat fuel)
            (parseExpression ParseInt ParseFloat fuel) fuel fn p)
  /\ (forall fuel src program errs,
        driver.parse ParseInt ParseFloat fuel src = Some (program, errs) ->
        ast.every_program spec.not_infix program = true)
  /\ (forall t,
        In t spec.binary_operators ->
        prefixTable !! t = None /\ statementTable !! t = None)
  /\ (forall fuel p,
        registered p ->
        In (token.Type_ (curToken p)) spec.binary_operators ->
        parseStatement ParseInt ParseFloat (S (S fuel)) p
        = Some (Some (ast.ExpressionStatement (curToken p) ast.NilExpression),
                set_errors
                  (errors p ++ [spec.no_prefix_message (curToken p)]) p))
  /\ (forall fuel n acc p,
        registered p ->
        In (token.Type_ (curToken p)) spec.binary_operators ->
        programLoop ParseInt ParseFloat (S (S fuel)) (S n) acc p
        = (nextToken;;
           programLoop ParseInt ParseFloat (S (S fuel)) n
             (acc ++ [ast.ExpressionStatement (curToken p)
                        ast.NilExpression]))
            (set_errors
               (errors p ++ [spec.no_prefix_message (curToken p)]) p)).
Proof.
  assert (S : forall fuel p,
            registered p ->
            In (token.Type_ (curToken p)) spec.binary_operators ->
            parseStatement ParseInt ParseFloat (S (S fuel)) p
            = Some (Some (ast.ExpressionStatement (curToken p)
                            ast.NilExpression),
                    set_errors
                      (errors p ++ [spec.no_prefix_message (curToken p)])
                      p)).
  { intros fuel p R Hin.
    destruct (binary_operators_unregistered _ Hin) as (Hp & Hs & _).
    change (parseStatement ParseInt ParseFloat (S (S fuel)))
      with (parseStatement_body (parseStatement ParseInt ParseFloat (S fuel))
              (parseExpression ParseInt ParseFloat (S fuel)) (S fuel)).
    unfold parseStatement_body, parseExpressionStatement.
    unfold mbind at 1. unfold P_bind, bind at 1. unfold get at 1.
    destruct R as (Rp & Ri & Rs). rewrite Rs, Hs.
    unfold mbind, P_bind, bind, get.
    rewrite (parseExpression_unregistered fuel LOWEST p
               (conj Rp (conj Ri Rs)) Hp).
    reflexivity. }
  split; [|split; [|split; [|split; [|split; [|split; [|split]]]]]].
  - intros pE left p. unfold parseInfixExpression, mbind, P_bind, bind, get.
    destruct (nextToken p) as [[u p1]|]; [|reflexivity].
    destruct (pE (curPrecedence p) p1) as [[r p2]|]; reflexivity.
  - intros p (_ & H & _). exact H.
  - intros fuel prec prec' p. destruct fuel; reflexivity.
  - intros fuel prec p fn Hfn. cbn [parseExpression].
    unfold parseExpression_body, mbind, P_bind, bind, get. rewrite Hfn.
    destruct (callPrefix _ _ _ _ _ fn p) as [[e q]|]; reflexivity.
  - intros fuel src program errs. apply parse_every.
    intros e He. destruct e; try reflexivity; discriminate.
  - intros t Hin. destruct (binary_operators_unregistered t Hin) as (A & B & _).
    split; assumption.
  - exact S.
  - intros fuel n acc p R Hin.
    destruct (binary_operators_unregistered _ Hin) as (_ & _ & He).
    cbn [programLoop].
    unfold mbind at 1. unfold P_bind, bind at 1. unfold get at 1.
    unfold curTokenIs. rewrite He.
    unfold mbind at 1. unfold P_bind, bind at 1.
    rewrite (S fuel p R Hin). reflexivity.
Qed.

(** C10.  In the tables of the parser a NUMBER token is parsed by
    [parseIntegerLiteral] and no token by [parseFloatLiteral]: on a NUMBER
    token [parseExpression] returns the IntegerLiteral of the value that
    integer parsing gives.  As integer parsing rejects any text with a
    decimal point, [parseExpression] on such a NUMBER token records the
    diagnostic [could not parse ... as integer] and returns nil; and no
    program that the parser returns holds a FloatLiteral. *)
Theorem C10_number_tokens_parse_as_integers :
  (forall s, contains_dot s = true -> exists msg, ParseInt s = ParseError msg) ->
  prefixTable !! token.NUMBER = Some fn_parseIntegerLiteral
  /\ (forall t, prefixTable !! t = Some fn_parseFloatLiteral -> False)
  /\ (forall fuel prec p value,
        registered p ->
        token.Type_ (curToken p) = token.NUMBER ->
        ParseInt (token.Literal (curToken p)) = Parsed value ->
        parseExpression ParseInt ParseFloat (S fuel) prec p
        = Some (ast.IntegerLiteral (curToken p) value, p))
  /\ (forall fuel prec p,
        registered p ->
        token.Type_ (curToken p) = token.NUMBER ->
        contains_dot (token.Literal (curToken p)) = true ->
        parseExpression ParseInt ParseFloat (S fuel) prec p
        = Some (ast.NilExpression,
                set_errors
                  (errors p ++
                   ["could not parse " +:+ quote (token.Literal (curToken p))
                    +:+ " as integer at line "
                    +:+ itoa (token.Line (curToken p)) +:+ ", column "
                    +:+ itoa (token.Column (curToken p))]) p))
  /\ (forall fuel src program errs,
        driver.parse ParseInt ParseFloat fuel src = Some (program, errs) ->
        ast.every_program spec.not_float program = true).
Proof.
  intros HPI. split; [|split; [|split; [|split]]].
  - apply prefixTable_NUMBER.
  - intros t H. apply prefixTable_entries in H. discriminate.
  - intros fuel prec p value (Hp & _) Ht Hv.
    cbn [parseExpression]. unfold parseExpression_body, mbind, P_bind, bind, get.
    rewrite Hp, Ht, prefixTable_NUMBER. cbn [callPrefix].
    unfold parseIntegerLiteral, mbind, P_bind, bind, get.
    rewrite Hv. reflexivity.
  - intros fuel prec p (Hp & _) Ht Hd.
    cbn [parseExpression]. unfold parseExpression_body, mbind, P_bind, bind, get.
    rewrite Hp, Ht, prefixTable_NUMBER. cbn [callPrefix].
    unfold parseIntegerLiteral, mbind, P_bind, bind, get.
    destruct (HPI _ Hd) as [msg ->]. reflexivity.
  - intros fuel src program errs. apply parse_every.
    intros e He. destruct e; try reflexivity; discriminate.
Qed.

End ParserClaims.

Create HintDb okmdb.

(** ** The evaluator: well-formed values *)

Section EvalTriples.
Import host object interpreter logic.

Lemma okM_ret {A : Type} (Q : A -> Prop) (a : A) : Q a -> okM Q (ret a).
Proof. intros HQ st a' st' Hs H. inversion H; subst. auto. Qed.

Lemma okM_bind {A B : Type} (Q1 : A -> Prop) (Q2 : B -> Prop) (m : M A)
    (k : A -> M B) :
  okM Q1 m -> (forall a, Q1 a -> okM Q2 (k a)) -> okM Q2 (m ≫= k).
Proof.
  intros Hm Hk st b st' Hs H. unfold mbind, M_bind, bind in H.
  destruct (m st) as [a st1| | |] eqn:E; try discriminate.
  destruct (Hm _ _ _ Hs E) as [Ha Hs1]. exact (Hk a Ha _ _ _ Hs1 H).
Qed.

Lemma okM_weaken {A : Type} (Q Q' : A -> Prop) (m : M A) :
  okM Q m -> (forall a, Q a -> Q' a) -> okM Q' m.
Proof. intros H HQ st a st' Hs E. destruct (H _ _ _ Hs E). auto. Qed.

Lemma okM_panic {A : Type} (Q : A -> Prop) msg : okM Q (panic msg).
Proof. intros st a st' _ H. discriminate. Qed.

Lemma okM_out_of_fuel {A : Type} (Q : A -> Prop) : okM Q out_of_fuel.
Proof. intros st a st' _ H. discriminate. Qed.

Lemma okM_os_Exit {A : Type} (Q : A -> Prop) code : okM Q (os_Exit code).
Proof. intros st a st' _ H. discriminate. Qed.

Lemma okM_alloc (Q : Object -> Prop) mk : (forall a, Q (mk a)) -> okM Q (alloc mk).
Proof. intros HQ st a st' Hs H. inversion H; subst. split; [apply HQ|exact Hs]. Qed.

Lemma okM_NewError msg : okM (fun v => wf v = true) (NewError msg).
Proof. apply okM_alloc. reflexivity. Qed.

Lemma okM_newInteger v : okM (fun v => wf v = true) (newInteger v).
Proof. apply okM_alloc. reflexivity. Qed.
Lemma okM_newFloat v : okM (fun v => wf v = true) (newFloat v).
Proof. apply okM_alloc. reflexivity. Qed.
Lemma okM_newString v : okM (fun v => wf v = true) (newString v).
Proof. apply okM_alloc. reflexivity. Qed.

Lemma okM_Print s : okM (fun _ => True) (Print s).
Proof. intros st a st' Hs H. inversion H; subst. split; [exact I|exact Hs]. Qed.

Lemma okM_Println s : okM (fun _ => True) (Println s).
Proof. apply okM_Print. Qed.

Lemma okM_Scanln : okM (fun _ => True) Scanln.
Proof.
  intros st a st' Hs H. unfold Scanln in H.
  destruct (stdin st); inversion H; subst; split; auto.
Qed.

Lemma okM_NewEnclosedEnvironment outer :
  okM (fun _ => True) (NewEnclosedEnvironment outer).
Proof.
  intros st a st' Hs H. inversion H; subst. split; [exact I|].
  intros e frame name v He Hv. cbn [envs] in He.
  apply lookup_app_Some in He as [He|[_ He]].
  - eapply Hs; eauto.
  - destruct (e - length (envs st))%nat; simpl in He; [|destruct n; discriminate].
    inversion He; subst. simpl in Hv. rewrite lookup_empty in Hv. discriminate.
Qed.

Lemma okM_NewEnvironment : okM (fun _ => True) NewEnvironment.
Proof.
  intros st a st' Hs H. inversion H; subst. split; [exact I|].
  intros e frame name v He Hv. cbn [envs] in He.
  apply lookup_app_Some in He as [He|[_ He]].
  - eapply Hs; eauto.
  - destruct (e - length (envs st))%nat; simpl in He; [|destruct n; discriminate].
    inversion He; subst. simpl in Hv. rewrite lookup_empty in Hv. discriminate.
Qed.

Lemma okM_Get_from fuel : forall e name,
  okM (fun r => snd r = true -> wf (fst r) = true) (Get_from fuel e name).
Proof.
  induction fuel as [|n IH]; intros e name st a st' Hs H; simpl in H.
  - destruct (envs st !! e) as [frame|] eqn:Ef; [|discriminate].
    destruct (store frame !! name) as [obj|] eqn:Eo.
    + inversion H; subst. split; [|exact Hs]. intros _. eapply Hs; eauto.
    + destruct (outer frame); [discriminate|]. inversion H; subst.
      split; [discriminate|exact Hs].
  - destruct (envs st !! e) as [frame|] eqn:Ef; [|discriminate].
    destruct (store frame !! name) as [obj|] eqn:Eo.
    + inversion H; subst. split; [|exact Hs]. intros _. eapply Hs; eauto.
    + destruct (outer frame).
      * eapply IH; eauto.
      * inversion H; subst. split; [discriminate|exact Hs].
Qed.

Lemma okM_Get e name :
  okM (fun r => snd r = true -> wf (fst r) = true) (Get e name).
Proof. intros st a st' Hs H. eapply okM_Get_from; eauto. Qed.

Lemma okM_Set_ e name val :
  wf val = true -> okM (fun _ => True) (Set_ e name val).
Proof.
  intros Hv st a st' Hs H. unfold Set_ in H.
  destruct (envs st !! e) as [frame|] eqn:Ef; [|discriminate].
  inversion H; subst. split; [exact I|].
  intros e' frame' name' v' He' Hv'. cbn [envs] in He'.
  destruct (decide (e = e')) as [->|Hne].
  - rewrite list_lookup_insert_eq in He' by (eapply lookup_lt_Some; eauto).
    inversion He'; subst. simpl in Hv'.
    destruct (decide (name = name')) as [->|Hn].
    + rewrite lookup_insert_eq in Hv'. inversion Hv'; subst. exact Hv.
    + rewrite lookup_insert_ne in Hv' by assumption. eapply Hs; eauto.
  - rewrite list_lookup_insert_ne in He' by assumption. eapply Hs; eauto.
Qed.

Lemma okM_TypeOf o : okM (fun _ => True) (TypeOf o).
Proof. unfold TypeOf. destruct (Type_ o); [apply okM_ret; exact I|apply okM_panic]. Qed.

Lemma okM_InspectOf o : okM (fun _ => True) (InspectOf o).
Proof. unfold InspectOf. destruct (Inspect o); [apply okM_ret; exact I|apply okM_panic]. Qed.

Lemma okM_asInteger o : okM (fun _ => True) (asInteger o).
Proof. destruct o; simpl; first [apply okM_ret; exact I|apply okM_panic]. Qed.
Lemma okM_asFloat o : okM (fun _ => True) (asFloat o).
Proof. destruct o; simpl; first [apply okM_ret; exact I|apply okM_panic]. Qed.
Lemma okM_asString o : okM (fun _ => True) (asString o).
Proof. destruct o; simpl; first [apply okM_ret; exact I|apply okM_panic]. Qed.
Lemma okM_asBoolean o : okM (fun _ => True) (asBoolean o).
Proof. destruct o; simpl; first [apply okM_ret; exact I|apply okM_panic]. Qed.

Lemma okM_hasTypes a ta b tb : okM (fun _ => True) (hasTypes a ta b tb).
Proof.
  unfold hasTypes. eapply okM_bind; [apply okM_TypeOf|]. intros t _.
  destruct (String.eqb t ta); [|apply okM_ret; exact I].
  eapply okM_bind; [apply okM_TypeOf|]. intros; apply okM_ret; exact I.
Qed.

Lemma wf_nativeBool b : wf (nativeBoolToBooleanObject b) = true.
Proof. destruct b; reflexivity. Qed.

Lemma wf_evalNot o : wf (evalNotOperatorExpression o) = true.
Proof.
  unfold evalNotOperatorExpression.
  destruct (same o TRUE), (same o FALSE), (same o NULL); reflexivity.
Qed.

#[local] Hint Resolve okM_NewError okM_newInteger okM_newFloat okM_newString
  okM_Print okM_Println okM_Scanln okM_NewEnclosedEnvironment okM_Get
  okM_TypeOf okM_InspectOf okM_asInteger okM_asFloat okM_asString
  okM_asBoolean okM_hasTypes : okmdb.

Ltac subM := solve [ eauto 3 with okmdb nocore ].

Ltac closeM :=
  cbn [wf];
  repeat match goal with
         | H : wf _ = true |- _ => rewrite H
         end;
  rewrite ?wf_nativeBool, ?wf_evalNot;
  try reflexivity; try exact I; try assumption.

Ltac goM :=
  repeat first
    [ apply okM_panic | apply okM_out_of_fuel | apply okM_os_Exit
    | solve [subM]
    | apply okM_ret; closeM
    | eapply okM_bind; [ solve [subM] | intros ? ? ]
    | eapply (okM_bind (fun _ => True)); [ solve [goM] | intros ? ? ]
    | match goal with
      | |- okM _ (if ?b then _ else _) => destruct b eqn:?
      | |- okM _ (match ?x with _ => _ end) => destruct x eqn:?
      end ].

Lemma okM_typeMismatch op l r : okM Qv (typeMismatch op l r).
Proof. unfold typeMismatch. goM. Qed.
#[local] Hint Resolve okM_typeMismatch : okmdb.

Lemma okM_numericCases l r ints floats otherwise :
  (forall a b, okM Qv (ints a b)) -> (forall a b, okM Qv (floats a b)) ->
  okM Qv otherwise -> okM Qv (numericCases l r ints floats otherwise).
Proof. intros Hi Hf Ho. unfold numericCases. goM. Qed.

Lemma okM_evalAdd op l r : okM Qv (evalAddInfixExpression op l r).
Proof. apply okM_numericCases; intros; goM. Qed.
Lemma okM_evalSubtract op l r : okM Qv (evalSubtractInfixExpression op l r).
Proof. apply okM_numericCases; intros; goM. Qed.
Lemma okM_evalMultiply op l r : okM Qv (evalMultiplyInfixExpression op l r).
Proof. apply okM_numericCases; intros; goM. Qed.
Lemma okM_divisorIsZero r : okM (fun _ => True) (divisorIsZero r).
Proof. unfold divisorIsZero. goM. Qed.
#[local] Hint Resolve okM_divisorIsZero : okmdb.
Lemma okM_evalDivide op l r : okM Qv (evalDivideInfixExpression op l r).
Proof.
  unfold evalDivideInfixExpression.
  eapply okM_bind; [apply okM_divisorIsZero|]. intros z _.
  destruct z; [apply okM_NewError|]. apply okM_numericCases; intros; goM.
Qed.
Lemma okM_evalEquals op l r : okM Qv (evalEqualsInfixExpression op l r).
Proof. apply okM_numericCases; intros; unfold Qv; goM. Qed.
#[local] Hint Resolve okM_evalEquals : okmdb.
Lemma okM_evalNotEquals op l r : okM Qv (evalNotEqualsInfixExpression op l r).
Proof. unfold evalNotEqualsInfixExpression, Qv. goM. Qed.
Lemma okM_evalGreaterThan op l r : okM Qv (evalGreaterThanInfixExpression op l r).
Proof. apply okM_numericCases; intros; unfold Qv; goM. Qed.
Lemma okM_evalLessThan op l r : okM Qv (evalLessThanInfixExpression op l r).
Proof. apply okM_numericCases; intros; unfold Qv; goM. Qed.
Lemma okM_evalGreaterOrEqual op l r : okM Qv (evalGreaterOrEqualInfixExpression op l r).
Proof. apply okM_numericCases; intros; unfold Qv; goM. Qed.
Lemma okM_evalLessOrEqual op l r : okM Qv (evalLessOrEqualInfixExpression op l r).
Proof. apply okM_numericCases; intros; unfold Qv; goM. Qed.
Lemma okM_evalAnd op l r : okM Qv (evalAndInfixExpression op l r).
Proof. unfold evalAndInfixExpression, Qv. goM. Qed.
Lemma okM_evalOr op l r : okM Qv (evalOrInfixExpression op l r).
Proof. unfold evalOrInfixExpression, Qv. goM. Qed.

Lemma okM_evalIdentifier node env : okM Qv (evalIdentifier node env).
Proof.
  unfold evalIdentifier. eapply okM_bind; [apply okM_Get|]. intros [val ok] H.
  destruct ok; [apply okM_ret; apply H; reflexivity|apply okM_NewError].
Qed.

Lemma okM_evalIsDefinedExpression ident env :
  okM Qv (evalIsDefinedExpression ident env).
Proof.
  unfold evalIsDefinedExpression. eapply okM_bind; [apply okM_Get|].
  intros [val ok] H. apply okM_ret. apply wf_nativeBool.
Qed.

Lemma okM_evalInputStatement prompt : okM Qv (evalInputStatement prompt).
Proof. unfold evalInputStatement. destruct prompt; goM. Qed.

Variable PF : string -> parsed float.
Variable Eval_ : ast.Node -> envptr -> M Object.
Variable fuel : nat.
Hypothesis IH : forall node env, okM (Qnode node) (Eval_ node env).

Lemma IHe e env : okM Qv (Eval_ (ast.ExpressionNode e) env).
Proof using IH. exact (IH (ast.ExpressionNode e) env). Qed.

Lemma IHs s env : okM wf_res (Eval_ (ast.StatementNode s) env).
Proof using IH. exact (IH (ast.StatementNode s) env). Qed.

#[local] Hint Resolve IHe IHs : okmdb.

Lemma okM_evalProgram_loop stmts : forall env result,
  wf_res result -> okM wf_res (evalProgram_loop Eval_ stmts env result).
Proof using IH.
  induction stmts as [|s rest IHl]; intros env result Hr; simpl.
  - apply okM_ret. exact Hr.
  - eapply okM_bind; [apply IHs|]. intros r Hres.
    assert (W : r <> nil -> wf r = true) by (destruct Hres; congruence).
    destruct r; try (apply IHl; exact Hres).
    + apply okM_ret. right. apply W. discriminate.
    + apply okM_ret. right. reflexivity.
Qed.

Lemma okM_evalBlockStatement_loop stmts : forall env result,
  wf_res result -> okM wf_res (evalBlockStatement_loop Eval_ stmts env result).
Proof using IH.
  induction stmts as [|s rest IHl]; intros env result Hr; simpl.
  - apply okM_ret. exact Hr.
  - eapply okM_bind; [apply IHs|]. intros r Hres.
    destruct (isReturnValue r || isError r); [apply okM_ret; exact Hres|].
    apply IHl. exact Hres.
Qed.

Lemma okM_evalBlock block env : okM wf_res (evalBlock Eval_ block env).
Proof using IH. apply IHs. Qed.
#[local] Hint Resolve okM_evalBlock : okmdb.

Lemma Qv_wf_res v : Qv v -> wf_res v.
Proof. intros H. right. exact H. Qed.

Lemma okM_evalPrefixExpression op right env :
  okM Qv (evalPrefixExpression Eval_ op right env).
Proof using IH. unfold evalPrefixExpression, Qv. goM. Qed.

Lemma okM_evalInfixExpression l op r env :
  okM Qv (evalInfixExpression Eval_ l op r env).
Proof using IH.
  unfold evalInfixExpression.
  eapply okM_bind; [apply IHe|]. intros lv Hl.
  destruct (isError lv); [apply okM_ret; exact Hl|].
  eapply okM_bind; [apply IHe|]. intros rv Hr.
  destruct (isError rv); [apply okM_ret; exact Hr|].
  repeat match goal with
         | |- okM _ (if ?b then _ else _) => destruct b
         end;
    auto using okM_evalAdd, okM_evalSubtract, okM_evalMultiply, okM_evalDivide,
      okM_evalEquals, okM_evalNotEquals, okM_evalGreaterThan, okM_evalLessThan,
      okM_evalGreaterOrEqual, okM_evalLessOrEqual, okM_evalAnd, okM_evalOr.
  unfold Qv. goM.
Qed.

Lemma okM_evalElseIfBlocks blocks : forall elseBlock env,
  okM wf_res (evalElseIfBlocks Eval_ blocks elseBlock env).
Proof using IH.
  induction blocks as [|[cond blk] rest IHl]; intros elseBlock env; simpl.
  - destruct elseBlock; [apply okM_evalBlock|apply okM_ret; right; reflexivity].
  - eapply okM_bind; [apply IHe|]. intros c Hc.
    destruct (isError c); [apply okM_ret; right; exact Hc|].
    destruct (isTruthy c); [apply okM_evalBlock|apply IHl].
Qed.

Lemma okM_evalIfStatement cond thenBlock elseIfBlocks elseBlock env :
  okM wf_res (evalIfStatement Eval_ cond thenBlock elseIfBlocks elseBlock env).
Proof using IH.
  unfold evalIfStatement.
  eapply okM_bind; [apply IHe|]. intros c Hc.
  destruct (isError c); [apply okM_ret; right; exact Hc|].
  destruct (isTruthy c); [apply okM_evalBlock|apply okM_evalElseIfBlocks].
Qed.

Lemma okM_evalWhileStatement_loop n : forall cond body env result,
  wf_res result ->
  okM wf_res (evalWhileStatement_loop Eval_ n cond body env result).
Proof using IH.
  induction n as [|n IHn]; intros cond body env result Hr; simpl.
  - apply okM_out_of_fuel.
  - eapply okM_bind; [apply IHe|]. intros c Hc.
    destruct (isError c); [apply okM_ret; right; exact Hc|].
    destruct (negb (isTruthy c)); [apply okM_ret; exact Hr|].
    eapply okM_bind; [apply okM_evalBlock|]. intros b Hb.
    destruct (isReturnValue b); [apply okM_ret; exact Hb|].
    destruct (isError b); [apply okM_ret; exact Hb|].
    apply IHn. exact Hb.
Qed.

Lemma okM_evalForEachStatement_loop elements : forall variable body env result,
  forallb wf elements = true -> wf_res result ->
  okM wf_res (evalForEachStatement_loop Eval_ elements variable body env result).
Proof using IH.
  induction elements as [|element rest IHl]; intros variable body env result He Hr;
    simpl.
  - apply okM_ret. exact Hr.
  - simpl in He. apply andb_true_iff in He as [He1 He2].
    eapply okM_bind; [apply okM_NewEnclosedEnvironment|]. intros cur _.
    eapply okM_bind; [apply okM_Set_; exact He1|]. intros _ _.
    eapply okM_bind; [apply okM_evalBlock|]. intros b Hb.
    destruct (isReturnValue b); [apply okM_ret; exact Hb|].
    destruct (isError b); [apply okM_ret; exact Hb|].
    apply IHl; assumption.
Qed.

Lemma okM_evalForEachStatement variable iterable body env :
  okM wf_res (evalForEachStatement Eval_ variable iterable body env).
Proof using IH.
  unfold evalForEachStatement.
  eapply okM_bind; [apply IHe|]. intros it Hit.
  destruct (isError it); [apply okM_ret; right; exact Hit|].
  destruct it;
    try (eapply okM_bind; [apply okM_TypeOf|]; intros t _;
         eapply okM_weaken; [apply okM_NewError|apply Qv_wf_res]).
  apply okM_evalForEachStatement_loop; [exact Hit|right; reflexivity].
Qed.

Lemma okM_evalLetStatement name value env :
  okM Qv (evalLetStatement Eval_ name value env).
Proof using IH.
  unfold evalLetStatement.
  eapply okM_bind; [apply IHe|]. intros v Hv.
  destruct (isError v); [apply okM_ret; exact Hv|].
  eapply okM_bind; [apply okM_Set_; exact Hv|]. intros _ _.
  apply okM_ret. exact Hv.
Qed.

Lemma okM_evalReturnStatement returnValue env :
  okM Qv (evalReturnStatement Eval_ returnValue env).
Proof using IH.
  unfold evalReturnStatement.
  eapply okM_bind; [apply IHe|]. intros v Hv.
  destruct (isError v); [apply okM_ret; exact Hv|].
  apply okM_alloc. intros a. exact Hv.
Qed.

Lemma okM_evalPrintStatement value env :
  okM Qv (evalPrintStatement Eval_ value env).
Proof using IH. unfold evalPrintStatement, Qv. goM. Qed.

Lemma okM_evalExpressions exps : forall env results,
  forallb wf results = true ->
  okM (fun rs => forallb wf rs = true) (evalExpressions Eval_ exps env results).
Proof using IH.
  induction exps as [|exp rest IHl]; intros env results Hr; simpl.
  - apply okM_ret. exact Hr.
  - eapply okM_bind; [apply IHe|]. intros v Hv.
    destruct (isError v).
    + apply okM_ret. simpl. unfold Qv in Hv. rewrite Hv. reflexivity.
    + apply IHl. rewrite forallb_app, Hr. simpl. unfold Qv in Hv. rewrite Hv.
      reflexivity.
Qed.

Lemma okM_evalListLiteral elems env : okM Qv (evalListLiteral Eval_ elems env).
Proof using IH.
  unfold evalListLiteral.
  eapply okM_bind; [apply okM_evalExpressions; reflexivity|]. intros es Hes.
  destruct es as [|first rest].
  - apply okM_alloc. intros a. reflexivity.
  - destruct (isError first).
    + apply okM_ret. simpl in Hes. apply andb_true_iff in Hes as [H _]. exact H.
    + apply okM_alloc. intros a. exact Hes.
Qed.

Lemma okM_evalGetItemAtIndexExpression listExp indexExp env :
  okM Qv (evalGetItemAtIndexExpression Eval_ listExp indexExp env).
Proof using IH.
  unfold evalGetItemAtIndexExpression.
  eapply okM_bind; [apply IHe|]. intros lv Hl.
  destruct (isError lv); [apply okM_ret; exact Hl|].
  destruct lv; try solve [unfold Qv; goM].
  eapply okM_bind; [apply IHe|]. intros iv Hi.
  destruct (isError iv); [apply okM_ret; exact Hi|].
  destruct iv; try solve [unfold Qv; goM].
  destruct ((Value <? 0) || (Value >=? Z.of_nat (length Elements)));
    [apply okM_NewError|].
  destruct (Elements !! Z.to_nat Value) as [element|] eqn:E; [|apply okM_panic].
  apply okM_ret. unfold Qv in *. simpl in Hl.
  rewrite forallb_forall in Hl. apply Hl. apply list_elem_of_In.
  eapply list_elem_of_lookup_2. exact E.
Qed.

Lemma okM_exitCode code env : okM (fun _ => True) (exitCode Eval_ code env).
Proof using IH. unfold exitCode. destruct code; goM. Qed.

Lemma okM_evalExitStatement code env : okM Qv (evalExitStatement Eval_ code env).
Proof using IH.
  unfold evalExitStatement. eapply okM_bind; [apply okM_exitCode|].
  intros; apply okM_os_Exit.
Qed.

Lemma okM_evalConvertToNumberExpression exp env :
  okM Qv (evalConvertToNumberExpression PF Eval_ exp env).
Proof using IH.
  unfold evalConvertToNumberExpression.
  eapply okM_bind; [apply IHe|]. intros v Hv.
  destruct (isError v); [apply okM_ret; exact Hv|].
  destruct v; try solve [unfold Qv; goM]; try (apply okM_ret; exact Hv).
Qed.

Lemma okM_evalConvertToStringExpression exp env :
  okM Qv (evalConvertToStringExpression Eval_ exp env).
Proof using IH. unfold evalConvertToStringExpression, Qv. goM. Qed.

Lemma okM_Eval_body node env :
  okM (Qnode node) (Eval_body PF Eval_ fuel node env).
Proof using IH.
  destruct node as [program|stmt|e]; simpl.
  - apply okM_evalProgram_loop. left. reflexivity.
  - destruct stmt.
    + eapply okM_weaken; [apply okM_evalLetStatement|apply Qv_wf_res].
    + eapply okM_weaken; [apply okM_evalReturnStatement|apply Qv_wf_res].
    + eapply okM_weaken; [apply IHe|apply Qv_wf_res].
    + apply okM_evalIfStatement.
    + apply okM_evalBlockStatement_loop. left. reflexivity.
    + apply okM_evalWhileStatement_loop. right. reflexivity.
    + apply okM_evalForEachStatement.
    + eapply okM_weaken; [apply okM_evalPrintStatement|apply Qv_wf_res].
    + eapply okM_weaken; [apply okM_evalInputStatement|apply Qv_wf_res].
    + eapply okM_weaken; [apply okM_evalExitStatement|apply Qv_wf_res].
  - destruct e; simpl;
      auto using okM_evalIdentifier, okM_newInteger, okM_newFloat, okM_newString,
        okM_evalPrefixExpression, okM_evalInfixExpression, okM_evalListLiteral,
        okM_evalGetItemAtIndexExpression, okM_evalIsDefinedExpression,
        okM_evalConvertToNumberExpression, okM_evalConvertToStringExpression,
        okM_NewError.
    apply okM_ret. apply wf_nativeBool.
Qed.

End EvalTriples.

Section EvalInvariant.
Import host object interpreter logic.

(** Every value that [Eval] returns is well formed, and the environments
    stay so. *)
Lemma Eval_wf PF fuel : forall node env,
  okM (Qnode node) (Eval PF fuel node env).
Proof.
  induction fuel as [|n IH]; intros node env; simpl.
  - apply okM_out_of_fuel.
  - apply okM_Eval_body. exact IH.
Qed.


Lemma initial_wf input : wf_state (initial input).
Proof. intros e frame name v H. destruct e; discriminate. Qed.

Lemma wf_canonical v : wf v = true -> spec.canonical v.
Proof.
  destruct v; simpl; try (intros; exact I); intros H; apply Z.eqb_eq in H;
    exact H.
Qed.

End EvalInvariant.

(** ** The evaluator: operators *)

Section OperatorClaims.
Import host object interpreter.

Lemma bind_Done {A B : Type} (m : M A) (k : A -> M B) st a st' :
  m st = Done a st' -> (m ≫= k) st = k a st'.
Proof. intros H. unfold mbind, M_bind, bind. rewrite H. reflexivity. Qed.

(** C3 (the code departs from it).  [divide] returns only when the divisor
    is the Integer 0, with the DivisionByZero error; on every other
    divisor, a non-zero Integer and a Float included, the guard panics on a
    type assertion before any division takes place. *)
Theorem C3_divide_outcomes (operator : string) (left right : Object)
    (st : State) :
  evalDivideInfixExpression operator left right st =
  match right with
  | Integer _ 0 =>
      Done (Error (next st) "Eval: Division by zero error") (spec.bump st)
  | _ => Panic bad_conversion
  end.
Proof.
  destruct right as [|p v|p v|p v|p v|p|p v|p m|p es]; try reflexivity.
  destruct v; reflexivity.
Qed.

(** The host [==] on two floats. *)
Lemma float_eqb_equal a b : PrimFloat.eqb a b = spec.float_equal a b.
Proof.
  unfold spec.float_equal, spec.is_nan, spec.is_zero, spec.same_float.
  rewrite FloatAxioms.eqb_spec. unfold SFeqb, SFcompare.
  destruct (Prim2SF a) as [s|s| |s m e], (Prim2SF b) as [s'|s'| |s' m' e'];
    try reflexivity;
    try (destruct s, s'; reflexivity); try (destruct s; reflexivity).
  destruct s, s'; try reflexivity; cbn [Bool.eqb andb orb negb].
  all: destruct (Z.compare_spec e e') as [->|L|L].
  all: rewrite ?Z.eqb_refl, ?andb_true_r, ?andb_false_r.
  all: try (symmetry; apply andb_false_intro2; apply Z.eqb_neq; lia).
  all: rewrite ?Pos.compare_cont_spec; cbn [Pos.switch_Eq].
  all: destruct (Pos.compare_spec m m') as [->|L|L]; cbn;
    rewrite ?Pos.eqb_refl; try reflexivity;
    symmetry; apply Pos.eqb_neq; lia.
Qed.

(** C4 (as amended).  On operands that are not nil, [equals] is what the
    specification says wherever no float is involved: by value on two
    integers, two strings or two booleans, by identity on any other pair.
    Once a float is involved in a pair of numbers, an Integer operand is
    converted to float64 and the two floats are compared with the host
    [==], which is equality of floating-point arithmetic: a float that is
    not a number equals nothing, the two zeros are equal, and otherwise
    equal floats are the same datum; on two Floats that are not both zero
    and of which the left one is a number this is the structural equality
    of the specification.  Operands of different kinds other than an
    integer with a float are never equal (a list and a string, say), and
    [notequals] is the negation of [equals]. *)
Theorem C4_equals_and_notequals (operator : string) (left right : Object)
    (st : State) :
  left <> nil -> right <> nil ->
  (exists b,
     evalEqualsInfixExpression operator left right st
     = Done (nativeBoolToBooleanObject b) st
     /\ evalNotEqualsInfixExpression operator left right st
        = Done (nativeBoolToBooleanObject (negb b)) st
     /\ (spec.is_Float left || spec.is_Float right = false ->
         b = spec.equals left right)
     /\ (forall x y,
           spec.is_Float left || spec.is_Float right = true ->
           spec.as_float64 left = Some x -> spec.as_float64 right = Some y ->
           b = PrimFloat.eqb x y /\ b = spec.float_equal x y)
     /\ (forall p x q y,
           left = Float p x -> right = Float q y ->
           spec.is_nan x = false -> spec.is_zero x && spec.is_zero y = false ->
           b = spec.equals left right)
     /\ (Type_ left <> Type_ right ->
         (spec.is_Integer left && spec.is_Float right = false) ->
         (spec.is_Float left && spec.is_Integer right = false) ->
         b = false))
  /\ (spec.is_List left && spec.is_String right = true ->
      spec.equals left right = false).
Proof.
  intros Hl Hr.
  assert (E : exists b,
            evalEqualsInfixExpression operator left right st
            = Done (nativeBoolToBooleanObject b) st
            /\ (spec.is_Float left || spec.is_Float right = false ->
                b = spec.equals left right)
            /\ (forall x y,
                  spec.is_Float left || spec.is_Float right = true ->
                  spec.as_float64 left = Some x ->
                  spec.as_float64 right = Some y ->
                  b = PrimFloat.eqb x y)
            /\ (Type_ left <> Type_ right ->
                (spec.is_Integer left && spec.is_Float right = false) ->
                (spec.is_Float left && spec.is_Integer right = false) ->
                b = false)).
  { destruct left, right; try congruence;
      (eexists; split; [reflexivity|]; split; [|split]);
      cbn; try discriminate; try reflexivity; try congruence;
      try (intros x y _ Hx Hy; inversion Hx; inversion Hy; reflexivity);
      try (intros; reflexivity). }
  split.
  - destruct E as (b & E & A & B & C). exists b.
    split; [exact E|]. split; [|split; [exact A|split; [|split]]].
    + unfold evalNotEqualsInfixExpression.
      change (evalEqualsInfixExpression "equals" left right)
        with (evalEqualsInfixExpression operator left right).
      rewrite (bind_Done _ _ _ _ _ E). destruct b; reflexivity.
    + intros x y Hf Hx Hy. rewrite (B x y Hf Hx Hy).
      split; [reflexivity|apply float_eqb_equal].
    + intros p x q y -> -> Hn Hz.
      rewrite (B x y eq_refl eq_refl eq_refl), float_eqb_equal.
      cbn [spec.equals]. unfold spec.float_equal. rewrite Hn, Hz.
      reflexivity.
    + exact C.
  - intros H. destruct left, right; simpl in *; try discriminate; reflexivity.
Qed.

End OperatorClaims.

(** ** The evaluator: statements and expressions *)

Section EvalSteps.
Import host object interpreter logic.

Variable PF : string -> parsed float.

Lemma convert_number_of_string fuel tok e env st p s st1 f :
  Eval PF fuel (ast.ExpressionNode e) env st = Done (String_ p s) st1 ->
  PF s = Parsed f ->
  Eval PF (S fuel) (ast.ExpressionNode (ast.ConvertToNumberExpression tok e))
    env st
  = Done (if contains_dot s then Float (next st1) f
          else Integer (next st1) (int_of_float64 f))
      (spec.bump st1).
Proof.
  intros Hv Hp. cbn [Eval Eval_body].
  unfold evalConvertToNumberExpression. rewrite (bind_Done _ _ _ _ _ Hv).
  cbn [isError]. rewrite Hp. destruct (contains_dot s); reflexivity.
Qed.

Lemma convert_string_of_value fuel tok e env st v st1 text :
  Eval PF fuel (ast.ExpressionNode e) env st = Done v st1 ->
  isError v = false -> Inspect v = Some text ->
  Eval PF (S fuel) (ast.ExpressionNode (ast.ConvertToStringExpression tok e))
    env st
  = Done (String_ (next st1) text) (spec.bump st1).
Proof.
  intros Hv He Ht. cbn [Eval Eval_body].
  unfold evalConvertToStringExpression.
  rewrite (bind_Done _ _ _ _ _ Hv), He. unfold InspectOf. rewrite Ht.
  reflexivity.
Qed.

Lemma string_literal_value fuel tok s env st :
  Eval PF (S fuel)
    (ast.ExpressionNode (ast.StringLiteralExpr (ast.mkStringLiteral tok s)))
    env st
  = Done (String_ (next st) s) (spec.bump st).
Proof. reflexivity. Qed.

End EvalSteps.

Section EvalClaims.
Import host object interpreter logic.

Variable PF : string -> parsed float.
Variable fuel : nat.

(** C5.  On the values that the evaluator creates, truthiness is false on
    Null and on boolean false and true on everything else, the integer 0
    and the empty string included, and [not] yields the boolean opposite of
    truthiness; [and] and [or] combine the truthiness of their operands;
    [if] takes its then-branch, and [while] runs its body, exactly on a
    truthy condition. *)
Theorem C5_truthiness :
  (forall o, spec.canonical o ->
     isTruthy o = spec.truthy o
     /\ evalNotOperatorExpression o = nativeBoolToBooleanObject (spec.not_ o)
     /\ spec.not_ o = negb (spec.truthy o))
  /\ (forall p, isTruthy (Integer p 0) = true /\ isTruthy (String_ p "") = true)
  /\ (forall e env st v st',
        wf_state st ->
        Eval PF fuel (ast.ExpressionNode e) env st = Done v st' ->
        spec.canonical v)
  /\ (forall op l r st,
        spec.canonical l -> spec.canonical r ->
        evalAndInfixExpression op l r st
        = Done (nativeBoolToBooleanObject (spec.truthy l && spec.truthy r)) st
        /\ evalOrInfixExpression op l r st
           = Done (nativeBoolToBooleanObject (spec.truthy l || spec.truthy r))
               st)
  /\ (forall tok cond thenBlock elseIfBlocks elseBlock env st c st1,
        Eval PF fuel (ast.ExpressionNode cond) env st = Done c st1 ->
        isError c = false -> spec.canonical c ->
        Eval PF (S fuel)
          (ast.StatementNode
             (ast.IfStatement tok cond thenBlock elseIfBlocks elseBlock))
          env st
        = if spec.truthy c then
            Eval PF fuel
              (ast.StatementNode (ast.BlockStatementStmt thenBlock)) env st1
          else evalElseIfBlocks (Eval PF fuel) elseIfBlocks elseBlock env st1)
  /\ (forall n cond body env result st c st1,
        Eval PF fuel (ast.ExpressionNode cond) env st = Done c st1 ->
        isError c = false -> spec.canonical c ->
        evalWhileStatement_loop (Eval PF fuel) (S n) cond body env result st
        = if spec.truthy c then
            match Eval PF fuel
                    (ast.StatementNode (ast.BlockStatementStmt body)) env st1
            with
            | Done b st2 =>
                if isReturnValue b || isError b then Done b st2
                else evalWhileStatement_loop (Eval PF fuel) n cond body env
                       b st2
            | Panic msg => Panic msg
            | Exited code st2 => Exited code st2
            | OutOfFuel => OutOfFuel
            end
          else Done result st1).
Proof.
  assert (T : forall o, spec.canonical o -> isTruthy o = spec.truthy o).
  { intros o Ho. destruct o as [|p v|p v|p v|p v|p|p v|p m|p es];
      try reflexivity; simpl in Ho; subst.
    - destruct v; reflexivity.
    - reflexivity. }
  split; [|split; [|split; [|split; [|split]]]].
  - intros o Ho. split; [exact (T o Ho)|]. split.
    + destruct o as [|p v|p v|p v|p v|p|p v|p m|p es]; try reflexivity;
        simpl in Ho; subst.
      * destruct v; reflexivity.
      * reflexivity.
    + destruct o as [|p v|p v|p [|]|p v|p|p v|p m|p es]; reflexivity.
  - intros p. split; reflexivity.
  - intros e env st v st' Hs H.
    destruct (Eval_wf PF fuel (ast.ExpressionNode e) env st v st' Hs H) as [W _].
    apply wf_canonical. exact W.
  - intros op l r st Hl Hr.
    unfold evalAndInfixExpression, evalOrInfixExpression.
    rewrite (T l Hl), (T r Hr). split; reflexivity.
  - intros tok cond thenBlock elseIfBlocks elseBlock env st c st1 Hc He Hcan.
    cbn [Eval Eval_body]. unfold evalIfStatement.
    rewrite (bind_Done _ _ _ _ _ Hc), He, (T c Hcan).
    destruct (spec.truthy c); reflexivity.
  - intros n cond body env result st c st1 Hc He Hcan.
    cbn [evalWhileStatement_loop].
    rewrite (bind_Done _ _ _ _ _ Hc), He, (T c Hcan).
    destruct (spec.truthy c); [|reflexivity]. cbn [negb].
    unfold mbind, M_bind, bind, evalBlock.
    destruct (Eval PF fuel _ env st1) as [b st2| | |]; try reflexivity.
    destruct (isReturnValue b); [reflexivity|].
    destruct (isError b); reflexivity.
Qed.

Lemma Set_in_new_frame name element parent st :
  let st1 := mkState (envs st ++ [mkEnvironment ∅ (Some parent)]) (next st)
               (stdout st) (stdin st) in
  Set_ (length (envs st)) name element st1
  = Done element
      (mkState
         (envs st ++ [mkEnvironment (<[name := element]> ∅) (Some parent)])
         (next st) (stdout st) (stdin st)).
Proof.
  cbv zeta. unfold Set_. cbn [envs next stdout stdin].
  rewrite lookup_app_r by lia. rewrite Nat.sub_diag. cbn [lookup list_lookup].
  cbn [store outer]. f_equal. f_equal.
  rewrite insert_app_r_alt by lia. rewrite Nat.sub_diag. reflexivity.
Qed.

(** C6.  When the iterable evaluates to something that is neither an error
    nor a list, [foreach] yields the TypeMismatch error that names its
    type.  On a list it runs the loop from Null: without elements the loop
    yields the value it has; on an element it allocates a new frame whose
    parent is the environment of the statement and whose only binding is
    the loop variable, bound to that element, whatever earlier iterations
    did; the frame is new and the frames that exist stay as they are; the
    body runs in the new frame; when the body yields an Error or a
    ReturnSignal the loop yields that value at once, without a look at the
    elements that are left, and any other value is what the loop goes on
    with. *)
Theorem C6_foreach tok variable iterable body env st :
  (forall v st1 T,
     Eval PF fuel (ast.ExpressionNode iterable) env st = Done v st1 ->
     spec.is_Error v = false -> spec.is_List v = false ->
     Type_ v = Some T ->
     Eval PF (S fuel)
       (ast.StatementNode (ast.ForEachStatement tok variable iterable body))
       env st
     = Done (Error (next st1)
               ("Eval: 'for each' loop requires a list as iterable, got "
                +:+ T))
         (spec.bump st1))
  /\ (forall p elements st1,
        Eval PF fuel (ast.ExpressionNode iterable) env st
        = Done (List p elements) st1 ->
        Eval PF (S fuel)
          (ast.StatementNode (ast.ForEachStatement tok variable iterable body))
          env st
        = evalForEachStatement_loop (Eval PF fuel) elements variable body env
            NULL st1)
  /\ (forall result st',
        evalForEachStatement_loop (Eval PF fuel) [] variable body env result
          st'
        = Done result st')
  /\ (forall element rest result st',
        let currentEnv := length (envs st') in
        let st_in :=
          mkState
            (envs st' ++
             [mkEnvironment (<[ast.id_Value variable := element]> ∅)
                (Some env)])
            (next st') (stdout st') (stdin st') in
        envs st' !! currentEnv = None
        /\ Get currentEnv (ast.id_Value variable) st_in
           = Done (element, true) st_in
        /\ (forall i frame,
              envs st' !! i = Some frame -> envs st_in !! i = Some frame)
        /\ evalForEachStatement_loop (Eval PF fuel) (element :: rest) variable
             body env result st'
           = match Eval PF fuel
                     (ast.StatementNode (ast.BlockStatementStmt body))
                     currentEnv st_in
             with
             | Done b st2 =>
                 if spec.is_ReturnSignal b || spec.is_Error b then Done b st2
                 else evalForEachStatement_loop (Eval PF fuel) rest variable
                        body env b st2
             | Panic msg => Panic msg
             | Exited code st2 => Exited code st2
             | OutOfFuel => OutOfFuel
             end).
Proof.
  split; [|split; [|split]].
  - intros v st1 T Hv He Hl HT. cbn [Eval Eval_body].
    unfold evalForEachStatement. rewrite (bind_Done _ _ _ _ _ Hv).
    destruct v; try discriminate; simpl in HT; inversion HT; subst;
      reflexivity.
  - intros p elements st1 Hv. cbn [Eval Eval_body].
    unfold evalForEachStatement. rewrite (bind_Done _ _ _ _ _ Hv).
    reflexivity.
  - reflexivity.
  - intros element rest result st'. cbv zeta. split; [|split; [|split]].
    + apply lookup_ge_None. lia.
    + unfold Get. cbn [envs]. rewrite length_app. cbn [length].
      rewrite Nat.add_1_r. cbn [Get_from envs].
      rewrite lookup_app_r by lia. rewrite Nat.sub_diag.
      cbn [lookup list_lookup store]. rewrite lookup_insert_eq. reflexivity.
    + intros i frame Hi. cbn [envs]. apply lookup_app_l_Some. exact Hi.
    + cbn [evalForEachStatement_loop].
      unfold mbind at 1. unfold M_bind, bind at 1.
      unfold NewEnclosedEnvironment.
      unfold mbind at 1. unfold M_bind, bind at 1.
      rewrite Set_in_new_frame.
      unfold mbind, M_bind, bind, evalBlock.
      destruct (Eval PF fuel _ (length (envs st')) _) as [b st2| | |];
        try reflexivity.
      destruct b; reflexivity.
Qed.

(** C7.  [get item at index i from xs]: a value of [xs] that is neither an
    error nor a list gives the TypeMismatch error naming its type; on a
    list, a value of [i] that is neither an error nor an integer gives the
    TypeMismatch error naming its type; an integer below 0 or not below the
    length gives the IndexOutOfBounds error naming the index and the
    length; any other integer gives the element at that position of the
    list, the very object, and allocates nothing. *)
Theorem C7_get_item_at_index tok xs i env st :
  (forall v st1 T,
     Eval PF fuel (ast.ExpressionNode xs) env st = Done v st1 ->
     isError v = false -> spec.is_List v = false -> Type_ v = Some T ->
     Eval PF (S fuel)
       (ast.ExpressionNode (ast.GetItemAtIndexExpression tok xs i)) env st
     = Done (Error (next st1)
               ("Eval: 'get item at index' expected a list, got " +:+ T))
         (spec.bump st1))
  /\ (forall p elems st1 w st2 T,
        Eval PF fuel (ast.ExpressionNode xs) env st = Done (List p elems) st1 ->
        Eval PF fuel (ast.ExpressionNode i) env st1 = Done w st2 ->
        isError w = false -> spec.is_Integer w = false -> Type_ w = Some T ->
        Eval PF (S fuel)
          (ast.ExpressionNode (ast.GetItemAtIndexExpression tok xs i)) env st
        = Done (Error (next st2)
                  ("Eval: 'get item at index' index must be a number, got "
                   +:+ T))
            (spec.bump st2))
  /\ (forall p elems st1 q n st2,
        Eval PF fuel (ast.ExpressionNode xs) env st = Done (List p elems) st1 ->
        Eval PF fuel (ast.ExpressionNode i) env st1
        = Done (Integer q n) st2 ->
        n < 0 \/ Z.of_nat (length elems) <= n ->
        Eval PF (S fuel)
          (ast.ExpressionNode (ast.GetItemAtIndexExpression tok xs i)) env st
        = Done (Error (next st2)
                  ("Eval: Index out of bounds: " +:+ itoa n
                   +:+ ", list length: " +:+ itoa (Z.of_nat (length elems))))
            (spec.bump st2))
  /\ (forall p elems st1 q n st2,
        Eval PF fuel (ast.ExpressionNode xs) env st = Done (List p elems) st1 ->
        Eval PF fuel (ast.ExpressionNode i) env st1
        = Done (Integer q n) st2 ->
        0 <= n < Z.of_nat (length elems) ->
        exists element,
          elems !! Z.to_nat n = Some element
          /\ Eval PF (S fuel)
               (ast.ExpressionNode (ast.GetItemAtIndexExpression tok xs i))
               env st
             = Done element st2).
Proof.
  cbn [Eval Eval_body]. unfold evalGetItemAtIndexExpression.
  split; [|split; [|split]].
  - intros v st1 T Hx He Hl HT. rewrite (bind_Done _ _ _ _ _ Hx), He.
    destruct v; try discriminate; simpl in HT; inversion HT; subst;
      reflexivity.
  - intros p elems st1 w st2 T Hx Hi He Hn HT.
    rewrite (bind_Done _ _ _ _ _ Hx). cbn [isError].
    rewrite (bind_Done _ _ _ _ _ Hi), He.
    destruct w; try discriminate; simpl in HT; inversion HT; subst;
      reflexivity.
  - intros p elems st1 q n st2 Hx Hi Hb.
    rewrite (bind_Done _ _ _ _ _ Hx). cbn [isError].
    rewrite (bind_Done _ _ _ _ _ Hi). cbn [isError].
    assert (E : (n <? 0) || (n >=? Z.of_nat (length elems)) = true).
    { apply orb_true_iff. destruct Hb; [left; lia | right; lia]. }
    rewrite E. reflexivity.
  - intros p elems st1 q n st2 Hx Hi Hb.
    destruct (elems !! Z.to_nat n) as [element|] eqn:El.
    2:{ apply lookup_ge_None in El. lia. }
    exists element. split; [reflexivity|].
    rewrite (bind_Done _ _ _ _ _ Hx). cbn [isError].
    rewrite (bind_Done _ _ _ _ _ Hi). cbn [isError].
    assert (E : (n <? 0) || (n >=? Z.of_nat (length elems)) = false).
    { apply orb_false_iff. split; lia. }
    rewrite E, El. reflexivity.
Qed.

(** C8.  [convert to number] returns an integer or a float as it is, the
    same object; turns a string that parses as a float into a Float when
    its text holds a decimal point and into the Integer that the float
    truncates to when it does not; gives the ConversionError that names the
    text when the string does not parse; and gives the TypeMismatch error
    naming the type on any other value.  [convert to string] makes a string
    of the display rendering.  When ["3.14"] parses as the float nearest to
    it, converting it to a number and back gives ["3.140000"]; when ["3"]
    parses as 3, it gives ["3"]. *)
Theorem C8_convert tok e env st :
  (forall v st1,
     Eval PF fuel (ast.ExpressionNode e) env st = Done v st1 ->
     spec.is_Integer v || spec.is_Float v = true ->
     Eval PF (S fuel)
       (ast.ExpressionNode (ast.ConvertToNumberExpression tok e)) env st
     = Done v st1)
  /\ (forall p s st1 f,
        Eval PF fuel (ast.ExpressionNode e) env st = Done (String_ p s) st1 ->
        PF s = Parsed f ->
        Eval PF (S fuel)
          (ast.ExpressionNode (ast.ConvertToNumberExpression tok e)) env st
        = Done (if contains_dot s then Float (next st1) f
                else Integer (next st1) (int_of_float64 f))
            (spec.bump st1))
  /\ (forall p s st1 err,
        Eval PF fuel (ast.ExpressionNode e) env st = Done (String_ p s) st1 ->
        PF s = ParseError err ->
        Eval PF (S fuel)
          (ast.ExpressionNode (ast.ConvertToNumberExpression tok e)) env st
        = Done (Error (next st1)
                  ("Eval: Cannot convert string '" +:+ s +:+ "' to number: "
                   +:+ err))
            (spec.bump st1))
  /\ (forall v st1 T,
        Eval PF fuel (ast.ExpressionNode e) env st = Done v st1 ->
        isError v = false ->
        spec.is_Integer v || spec.is_Float v || spec.is_String v = false ->
        Type_ v = Some T ->
        Eval PF (S fuel)
          (ast.ExpressionNode (ast.ConvertToNumberExpression tok e)) env st
        = Done (Error (next st1)
                  ("Eval: Cannot convert type " +:+ T +:+ " to number"))
            (spec.bump st1))
  /\ (forall v st1 text,
        Eval PF fuel (ast.ExpressionNode e) env st = Done v st1 ->
        isError v = false -> Inspect v = Some text ->
        Eval PF (S fuel)
          (ast.ExpressionNode (ast.ConvertToStringExpression tok e)) env st
        = Done (String_ (next st1) text) (spec.bump st1))
  /\ (forall p f, Inspect (Float p f) = Some (fmt_f f))
  /\ (forall t1 t2 t3,
        PF "3.14" = Parsed 0x1.91eb851eb851fp+1%float ->
        Eval PF (S (S (S fuel)))
          (ast.ExpressionNode
             (ast.ConvertToStringExpression t1
                (ast.ConvertToNumberExpression t2
                   (ast.StringLiteralExpr (ast.mkStringLiteral t3 "3.14")))))
          env st
        = Done (String_ (next st + 2) "3.140000")
            (spec.bump (spec.bump (spec.bump st))))
  /\ (forall t1 t2 t3,
        PF "3" = Parsed 3%float ->
        Eval PF (S (S fuel))
          (ast.ExpressionNode
             (ast.ConvertToNumberExpression t2
                (ast.StringLiteralExpr (ast.mkStringLiteral t3 "3"))))
          env st
        = Done (Integer (next st + 1) 3) (spec.bump (spec.bump st))
        /\ Eval PF (S (S (S fuel)))
             (ast.ExpressionNode
                (ast.ConvertToStringExpression t1
                   (ast.ConvertToNumberExpression t2
                      (ast.StringLiteralExpr (ast.mkStringLiteral t3 "3")))))
             env st
           = Done (String_ (next st + 2) "3")
               (spec.bump (spec.bump (spec.bump st)))).
Proof.
  split; [|split; [|split; [|split; [|split; [|split; [|split]]]]]].
  - intros v st1 Hv Hk. cbn [Eval Eval_body].
    unfold evalConvertToNumberExpression. rewrite (bind_Done _ _ _ _ _ Hv).
    destruct v; try discriminate; reflexivity.
  - intros p s st1 f Hv Hp. eapply convert_number_of_string; eassumption.
  - intros p s st1 err Hv Hp. cbn [Eval Eval_body].
    unfold evalConvertToNumberExpression. rewrite (bind_Done _ _ _ _ _ Hv).
    cbn [isError]. rewrite Hp. reflexivity.
  - intros v st1 T Hv He Hk HT. cbn [Eval Eval_body].
    unfold evalConvertToNumberExpression. rewrite (bind_Done _ _ _ _ _ Hv), He.
    destruct v; try discriminate; simpl in HT; inversion HT; subst;
      reflexivity.
  - intros v st1 text Hv He Ht. eapply convert_string_of_value; eassumption.
  - reflexivity.
  - intros t1 t2 t3 Hp.
    assert (N : Eval PF (S (S fuel))
                  (ast.ExpressionNode
                     (ast.ConvertToNumberExpression t2
                        (ast.StringLiteralExpr
                           (ast.mkStringLiteral t3 "3.14"))))
                  env st
                = Done (Float (next st + 1) 0x1.91eb851eb851fp+1%float)
                    (spec.bump (spec.bump st))).
    { rewrite (convert_number_of_string PF (S fuel) t2 _ env st (next st) "3.14"
                 (spec.bump st) _ (string_literal_value PF fuel t3 "3.14" env st)
                 Hp).
      reflexivity. }
    assert (R : Inspect (Float (next st + 1) 0x1.91eb851eb851fp+1%float)
                = Some "3.140000") by (vm_compute; reflexivity).
    rewrite (convert_string_of_value PF _ t1 _ env st _ _ _ N eq_refl R).
    unfold spec.bump; cbn [envs next stdout stdin].
    f_equal; f_equal; lia.
  - intros t1 t2 t3 Hp.
    assert (N : Eval PF (S (S fuel))
                  (ast.ExpressionNode
                     (ast.ConvertToNumberExpression t2
                        (ast.StringLiteralExpr (ast.mkStringLiteral t3 "3"))))
                  env st
                = Done (Integer (next st + 1) 3) (spec.bump (spec.bump st))).
    { rewrite (convert_number_of_string PF (S fuel) t2 _ env st (next st) "3"
                 (spec.bump st) _ (string_literal_value PF fuel t3 "3" env st)
                 Hp).
      reflexivity. }
    split; [exact N|].
    assert (R : Inspect (Integer (next st + 1) 3) = Some "3")
      by (vm_compute; reflexivity).
    rewrite (convert_string_of_value PF _ t1 _ env st _ _ _ N eq_refl R).
    unfold spec.bump; cbn [envs next stdout stdin].
    f_equal; f_equal; lia.
Qed.

(** C1 (as amended).  [Eval] has no case for a call expression or a
    function literal, and the run-time objects include no function value:
    evaluating either node yields the error [Node type not handled].  The
    parser registers no method for the [call] token, and no program that
    the parser returns holds a call expression. *)
Theorem C1_calls_are_not_evaluated :
  (forall tok fn args env st,
     Eval PF (S fuel) (ast.ExpressionNode (ast.CallExpression tok fn args))
       env st
     = Done (Error (next st)
               "Eval: Node type not handled: *ast.CallExpression")
         (spec.bump st))
  /\ (forall tok params body env st,
        Eval PF (S fuel)
          (ast.ExpressionNode (ast.FunctionLiteral tok params body)) env st
        = Done (Error (next st)
                  "Eval: Node type not handled: *ast.FunctionLiteral")
            (spec.bump st))
  /\ parser.prefixTable !! token.CALL = None
  /\ (forall ParseInt pfuel src program errs,
        driver.parse ParseInt PF pfuel src = Some (program, errs) ->
        ast.every_program spec.not_call program = true).
Proof.
  split; [|split; [|split]].
  - reflexivity.
  - reflexivity.
  - apply prefixTable_CALL.
  - intros ParseInt pfuel src program errs. apply parse_every.
    intros x Hx. destruct x; try reflexivity; discriminate.
Qed.

End EvalClaims.

(** ** Concrete runs *)

Section Runs.
Import host object interpreter.

(** C1, counterexample.  The program of the claim is rejected by the
    parser, so nothing is evaluated; and the tree that the claim has in
    mind, evaluated directly, yields an error instead of 5. *)
Lemma C1_call_program_yields_no_5 :
  driver.runFile strconv.ParseInt strconv.ParseFloat_decimal 60
    "let f be function a b return add a b end function call f 2 3" []
  = Some
      (inl
         [ "no prefix parse function for ADD found at line 1, column 32";
           "no prefix parse function for ENDFUNCTION found at line 1, column 31";
           "no prefix parse function for CALL found at line 1, column 53";
           "expected next token to be ENDFUNCTION, got EOF instead at line 1, column 63";
           "expected next token to be END, got EOF instead at line 1, column 63";
           "expected next token to be ENDFUNCTION, got EOF instead at line 1, column 64";
           "expected next token to be END, got EOF instead at line 1, column 64" ])
  /\ (let t := token.mkToken "" "" 0 0 in
      let var := fun x => ast.IdentifierExpr (ast.mkIdentifier t x) in
      let program :=
        ast.mkProgram
          [ ast.LetStatement t (ast.mkIdentifier t "f")
              (ast.FunctionLiteral t
                 [ast.mkIdentifier t "a"; ast.mkIdentifier t "b"]
                 (ast.mkBlockStatement t
                    [ast.ReturnStatement t
                       (ast.InfixExpression t (var "a") "add" (var "b"))]));
            ast.ExpressionStatement t
              (ast.CallExpression t (var "f")
                 [ast.IntegerLiteral t 2; ast.IntegerLiteral t 3]) ] in
      (env ← NewEnvironment;
       Eval strconv.ParseFloat_decimal 10 (ast.ProgramNode program) env)
        (initial [])
      = Done (Error 3 "Eval: Node type not handled: *ast.FunctionLiteral")
          (mkState [mkEnvironment ∅ None] 4 [] [])).
Proof. split; vm_compute; reflexivity. Qed.

Lemma C1_witness :
  exists program errs,
    driver.parse strconv.ParseInt strconv.ParseFloat_decimal 60
      "let f be function a b return add a b end function call f 2 3"
    = Some (program, errs)
    /\ ast.every_program spec.not_call program = true.
Proof.
  eexists. eexists. split; [vm_compute; reflexivity|].
  eapply (proj2 (proj2 (proj2
            (C1_calls_are_not_evaluated strconv.ParseFloat_decimal 0%nat)))
            strconv.ParseInt 60%nat
            "let f be function a b return add a b end function call f 2 3").
  vm_compute. reflexivity.
Defined.

(** C2, counterexample.  The tokens [1 add 2] become three expression
    statements, the middle one nil with a diagnostic, and no
    InfixExpression. *)
Lemma C2_infix_tokens_build_no_infix :
  driver.parse strconv.ParseInt strconv.ParseFloat_decimal 20 "1 add 2"
  = Some
      (ast.mkProgram
         [ ast.ExpressionStatement (token.mkToken token.NUMBER "1" 1 3)
             (ast.IntegerLiteral (token.mkToken token.NUMBER "1" 1 3) 1);
           ast.ExpressionStatement (token.mkToken token.ADD "add" 1 5)
             ast.NilExpression;
           ast.ExpressionStatement (token.mkToken token.NUMBER "2" 1 9)
             (ast.IntegerLiteral (token.mkToken token.NUMBER "2" 1 9) 2) ],
       ["no prefix parse function for ADD found at line 1, column 5"]).
Proof. vm_compute. reflexivity. Qed.

Lemma C2_witness :
  (exists program errs,
     driver.parse strconv.ParseInt strconv.ParseFloat_decimal 20 "1 add 2"
     = Some (program, errs)
     /\ ast.every_program spec.not_infix program = true)
  /\ (exists p,
        parser.New (lexer.New "add 2") = Some p
        /\ parser.curToken p = token.mkToken token.ADD "add" 1 3
        /\ parser.parseStatement strconv.ParseInt strconv.ParseFloat_decimal
             2 p
           = Some (Some (ast.ExpressionStatement (parser.curToken p)
                           ast.NilExpression),
                   parser.set_errors
                     (parser.errors p
                      ++ ["no prefix parse function for ADD found at line 1, column 3"])
                     p)).
Proof.
  split.
  - eexists. eexists. split; [vm_compute; reflexivity|].
    eapply (proj1 (proj2 (proj2 (proj2 (proj2
              (C2_parseExpression_is_prefix_only strconv.ParseInt
                 strconv.ParseFloat_decimal)))))
              20%nat "1 add 2").
    vm_compute. reflexivity.
  - destruct (parser.New (lexer.New "add 2")) as [p|] eqn:E.
    + assert (C : Some (parser.curToken p)
                  = Some (token.mkToken token.ADD "add" 1 3)).
      { change (Some (parser.curToken p))
          with (option_map parser.curToken (Some p)).
        rewrite <- E. vm_compute. reflexivity. }
      inversion C as [C']. exists p. split; [reflexivity|].
      split; [reflexivity|].
      pose proof (proj1 (proj2 (proj2 (proj2 (proj2 (proj2 (proj2
                    (C2_parseExpression_is_prefix_only strconv.ParseInt
                       strconv.ParseFloat_decimal)))))))
                    O p (New_registered _ _ E)) as H.
      rewrite C' in H |- *. apply H. vm_compute. tauto.
    + exfalso. vm_compute in E. discriminate E.
Defined.

(** C3 at the failing input: [6 divide 3] panics. *)
Example divide_six_by_three_panics :
  let t := token.mkToken "" "" 0 0 in
  (env ← NewEnvironment;
   Eval strconv.ParseFloat_decimal 5
     (ast.ExpressionNode
        (ast.InfixExpression t (ast.IntegerLiteral t 6) "divide"
           (ast.IntegerLiteral t 3)))
     env)
    (initial [])
  = Panic bad_conversion.
Proof. vm_compute. reflexivity. Qed.

Lemma C4_witness :
  evalEqualsInfixExpression "equals" (List 5 []) (String_ 6 "a") (initial [])
  = Done FALSE (initial [])
  /\ evalNotEqualsInfixExpression "notequals" (List 5 []) (String_ 6 "a")
       (initial [])
     = Done TRUE (initial []).
Proof.
  destruct (proj1 (C4_equals_and_notequals "equals" (List 5 [])
                     (String_ 6 "a") (initial [])
                     ltac:(discriminate) ltac:(discriminate)))
    as (b & A & _ & _ & _ & _ & F).
  destruct (proj1 (C4_equals_and_notequals "notequals" (List 5 [])
                     (String_ 6 "a") (initial [])
                     ltac:(discriminate) ltac:(discriminate)))
    as (b' & _ & B & _ & _ & _ & F').
  rewrite (F ltac:(discriminate) eq_refl eq_refl) in A.
  rewrite (F' ltac:(discriminate) eq_refl eq_refl) in B.
  split; [exact A|exact B].
Defined.

(** C4, counterexample.  The integer 9007199254740993 and the float
    9007199254740992 are different numbers and [equals] answers TRUE, as
    [float64] of the integer is that float; a float that is not a number
    is the same datum as itself and [equals] answers FALSE. *)
Lemma C4_equals_is_the_host_comparison_of_floats :
  spec.equals (Integer 3 9007199254740993) (Float 4 9007199254740992%float)
  = false
  /\ evalEqualsInfixExpression "equals" (Integer 3 9007199254740993)
       (Float 4 9007199254740992%float) (initial [])
     = Done TRUE (initial [])
  /\ spec.equals (Float 3 nan) (Float 3 nan) = true
  /\ evalEqualsInfixExpression "equals" (Float 3 nan) (Float 3 nan)
       (initial [])
     = Done FALSE (initial []).
Proof. repeat split; vm_compute; reflexivity. Qed.

Lemma C5_witness :
  isTruthy FALSE = false /\ isTruthy NULL = false
  /\ evalNotOperatorExpression NULL = TRUE.
Proof.
  destruct (proj1 (C5_truthiness strconv.ParseFloat_decimal 0%nat) FALSE eq_refl)
    as (A & _).
  destruct (proj1 (C5_truthiness strconv.ParseFloat_decimal 0%nat) NULL eq_refl)
    as (B & C & _).
  split; [exact A|]. split; [exact B|exact C].
Defined.

Lemma C6_witness :
  let t := token.mkToken "" "" 0 0 in
  let x := ast.mkIdentifier t "x" in
  Eval strconv.ParseFloat_decimal 2
    (ast.StatementNode
       (ast.ForEachStatement t x (ast.IntegerLiteral t 7)
          (ast.mkBlockStatement t [])))
    O (initial [])
  = Done (Error 4 "Eval: 'for each' loop requires a list as iterable, got INTEGER")
      (mkState [] 5 [] [])
  /\ evalForEachStatement_loop (Eval strconv.ParseFloat_decimal 3)
       [Integer 5 1; Integer 6 2] x
       (ast.mkBlockStatement t
          [ ast.PrintStatement t (ast.IdentifierExpr x);
            ast.ReturnStatement t (ast.IdentifierExpr x) ])
       O NULL (mkState [mkEnvironment ∅ None] 7 [] [])
     = Done (ReturnValue 7 (Integer 5 1))
         (mkState
            [ mkEnvironment ∅ None;
              mkEnvironment (<["x" := Integer 5 1]> ∅) (Some O) ]
            8 ["1" +:+ String newline ""] []).
Proof.
  cbv zeta. split.
  - apply (proj1 (C6_foreach strconv.ParseFloat_decimal 1%nat
                    (token.mkToken "" "" 0 0)
                    (ast.mkIdentifier (token.mkToken "" "" 0 0) "x")
                    (ast.IntegerLiteral (token.mkToken "" "" 0 0) 7)
                    (ast.mkBlockStatement (token.mkToken "" "" 0 0) [])
                    O (initial []))
             (Integer 3 7) (mkState [] 4 [] []) INTEGER_OBJ);
      reflexivity.
  - pose proof (proj2 (proj2 (proj2
                  (C6_foreach strconv.ParseFloat_decimal 3%nat
                     (token.mkToken "" "" 0 0)
                     (ast.mkIdentifier (token.mkToken "" "" 0 0) "x")
                     (ast.IntegerLiteral (token.mkToken "" "" 0 0) 7)
                     (ast.mkBlockStatement (token.mkToken "" "" 0 0)
                        [ ast.PrintStatement (token.mkToken "" "" 0 0)
                            (ast.IdentifierExpr
                               (ast.mkIdentifier (token.mkToken "" "" 0 0)
                                  "x"));
                          ast.ReturnStatement (token.mkToken "" "" 0 0)
                            (ast.IdentifierExpr
                               (ast.mkIdentifier (token.mkToken "" "" 0 0)
                                  "x")) ])
                     O (initial []))))
                  (Integer 5 1) [Integer 6 2] NULL
                  (mkState [mkEnvironment ∅ None] 7 [] [])) as H.
    cbv zeta in H. destruct H as (_ & _ & _ & E).
    rewrite E. vm_compute. reflexivity.
Defined.

(** The loop variable is bound anew for every element: the body prints it
    and rebinds it to 9, and the next iteration prints the next element. *)
Example foreach_rebinding_does_not_leak :
  let t := token.mkToken "" "" 0 0 in
  let x := ast.mkIdentifier t "x" in
  let r :=
    (env ← NewEnvironment;
     Eval strconv.ParseFloat_decimal 10
       (ast.StatementNode
          (ast.ForEachStatement t x
             (ast.ListLiteral t
                [ast.IntegerLiteral t 1; ast.IntegerLiteral t 2;
                 ast.IntegerLiteral t 3])
             (ast.mkBlockStatement t
                [ ast.PrintStatement t (ast.IdentifierExpr x);
                  ast.LetStatement t x (ast.IntegerLiteral t 9) ])))
       env)
      (initial []) in
  match r with
  | Done v st =>
      v = Integer 9 9
      /\ stdout st
         = [ "1" +:+ String newline ""; "2" +:+ String newline "";
             "3" +:+ String newline "" ]
  | _ => False
  end.
Proof. vm_compute. split; reflexivity. Qed.

Lemma C7_witness :
  let t := token.mkToken "" "" 0 0 in
  let xs :=
    ast.ListLiteral t
      [ast.IntegerLiteral t 1; ast.IntegerLiteral t 2; ast.IntegerLiteral t 3]
  in
  Eval strconv.ParseFloat_decimal 3
    (ast.ExpressionNode
       (ast.GetItemAtIndexExpression t xs (ast.IntegerLiteral t 5)))
    O (initial [])
  = Done (Error 8 "Eval: Index out of bounds: 5, list length: 3")
      (mkState [] 9 [] []).
Proof.
  cbv zeta.
  apply (proj1 (proj2 (proj2
           (C7_get_item_at_index strconv.ParseFloat_decimal 2%nat
              (token.mkToken "" "" 0 0)
              (ast.ListLiteral (token.mkToken "" "" 0 0)
                 [ast.IntegerLiteral (token.mkToken "" "" 0 0) 1;
                  ast.IntegerLiteral (token.mkToken "" "" 0 0) 2;
                  ast.IntegerLiteral (token.mkToken "" "" 0 0) 3])
              (ast.IntegerLiteral (token.mkToken "" "" 0 0) 5)
              O (initial []))))
           6 [Integer 3 1; Integer 4 2; Integer 5 3] (mkState [] 7 [] [])
           7 5 (mkState [] 8 [] []));
    [reflexivity|reflexivity|right; vm_compute; discriminate].
Defined.

Lemma C8_witness :
  let t := token.mkToken "" "" 0 0 in
  Eval strconv.ParseFloat_decimal 3
    (ast.ExpressionNode
       (ast.ConvertToStringExpression t
          (ast.ConvertToNumberExpression t
             (ast.StringLiteralExpr (ast.mkStringLiteral t "3.14")))))
    O (initial [])
  = Done (String_ 5 "3.140000") (mkState [] 6 [] []).
Proof.
  cbv zeta.
  apply (proj1 (proj2 (proj2 (proj2 (proj2 (proj2 (proj2
           (C8_convert strconv.ParseFloat_decimal 0%nat
              (token.mkToken "" "" 0 0) ast.NilExpression O (initial []))))))))
           (token.mkToken "" "" 0 0) (token.mkToken "" "" 0 0)
           (token.mkToken "" "" 0 0)).
  vm_compute. reflexivity.
Defined.

Lemma C10_witness :
  exists p,
    parser.New (lexer.New "3.14") = Some p
    /\ parser.parseExpression strconv.ParseInt strconv.ParseFloat_decimal 1
         parser.LOWEST p
       = Some (ast.NilExpression,
               parser.set_errors
                 [ "could not parse " +:+ quote "3.14"
                   +:+ " as integer at line 1, column 3" ] p).
Proof.
  destruct (parser.New (lexer.New "3.14")) as [p|] eqn:E;
    [|vm_compute in E; discriminate].
  exists p. split; [reflexivity|].
  assert (C : parser.curToken p = token.mkToken token.NUMBER "3.14" 1 3
              /\ parser.errors p = []).
  { vm_compute in E. inversion E; subst. split; reflexivity. }
  destruct C as [C1 C2].
  rewrite (proj1 (proj2 (proj2 (proj2
             (C10_number_tokens_parse_as_integers strconv.ParseInt
                strconv.ParseFloat_decimal ParseInt_rejects_dot))))
             0%nat parser.LOWEST p (New_registered _ _ E)).
  - rewrite C1, C2. reflexivity.
  - rewrite C1. reflexivity.
  - rewrite C1. reflexivity.
Defined.

End Runs.

(** ** The lexer: what a call of [NextToken] consumes *)

(** Walks through the branches of [multiWord], recording for every peek
    and every identifier read the fact that [K] and [R] give about it. *)
Ltac step_multiWord K R :=
  repeat match goal with
  | |- context [lexer.peekKeyword ?k ?x] =>
      let b := fresh "b" in let y := fresh "l" in let E := fresh "E" in
      pose proof (K k x) as E;
      destruct (lexer.peekKeyword k x) as [b y]; cbn [snd] in E; destruct b
  | |- context [lexer.readIdentifier ?x] =>
      let s := fresh "s" in let y := fresh "l" in let E := fresh "E" in
      pose proof (R x) as E;
      destruct (lexer.readIdentifier x) as [s y]; cbn [snd] in E
  end.

Ltac split_multiWord ident :=
  unfold lexer.multiWord, lexer.word;
  repeat match goal with
  | |- context [String.eqb ident ?s] => destruct (String.eqb ident s)
  end.


Section LexerProgress.
Import host lexer lexing.

Lemma scan_errors cond pre fuel : forall l,
  (forall x, errors (pre x) = errors x) ->
  errors (scan cond pre fuel l) = errors l.
Proof.
  induction fuel as [|n IH]; intros l Hpre; simpl.
  - destruct (cond (ch l)); reflexivity.
  - destruct (cond (ch l)); [|reflexivity].
    rewrite IH by assumption. simpl. apply Hpre.
Qed.

Lemma bump_line_errors l : errors (bump_line l) = errors l.
Proof. unfold bump_line. destruct (Ascii.eqb (ch l) newline); reflexivity. Qed.

Lemma keeps_refl l : keeps l l.
Proof. unfold keeps. repeat split; lia. Qed.

Lemma keeps_trans a b c : keeps a b -> keeps b c -> keeps a c.
Proof.
  unfold keeps. intros (I1 & E1 & R1) (I2 & E2 & R2).
  repeat split; [congruence|congruence|lia].
Qed.

Lemma keeps_scan cond fuel l : keeps l (scan cond no_pre fuel l).
Proof.
  unfold keeps. rewrite scan_input, scan_errors by reflexivity.
  repeat split. apply scan_readPosition. reflexivity.
Qed.

Lemma keeps_skipWhitespace l : keeps l (skipWhitespace l).
Proof.
  unfold keeps, skipWhitespace.
  rewrite scan_input by apply bump_line_input.
  rewrite scan_errors by apply bump_line_errors.
  repeat split. apply scan_readPosition. apply bump_line_readPosition.
Qed.

Lemma keeps_readChar l : keeps l (readChar l).
Proof. unfold keeps, readChar; cbn. repeat split; lia. Qed.

Lemma keeps_readIdentifier l : keeps l (snd (readIdentifier l)).
Proof. apply keeps_scan. Qed.

Lemma keeps_peekKeyword keyword l : keeps l (snd (peekKeyword keyword l)).
Proof.
  destruct (peekKeyword_restores keyword l) as (I & _ & R & _).
  unfold keeps. repeat split; [exact I| |lia].
  unfold peekKeyword; cbn [snd errors].
  rewrite scan_errors by reflexivity.
  unfold skipWhitespace. apply scan_errors, bump_line_errors.
Qed.

Lemma keeps_multiWord ident l tok l' :
  multiWord ident l = Some (tok, l') -> keeps l l'.
Proof.
  split_multiWord ident;
  step_multiWord keeps_peekKeyword keeps_readIdentifier;
  intros H; inversion H; subst;
  repeat (eapply keeps_trans; [eassumption|]); apply keeps_refl.
Qed.

Lemma readChar_readPosition l : readPosition (readChar l) = readPosition l + 1.
Proof. reflexivity. Qed.

Lemma IsLetter_is_ident_byte c : IsLetter c = true -> is_ident_byte c = true.
Proof. intros H. unfold is_ident_byte. rewrite H. reflexivity. Qed.

Lemma IsDigit_is_number_byte c : IsDigit c = true -> is_number_byte c = true.
Proof. intros H. unfold is_number_byte. rewrite H. reflexivity. Qed.

Lemma readIdentifier_step l :
  IsLetter (ch l) = true ->
  readPosition l < readPosition (snd (readIdentifier l)).
Proof.
  intros H. apply IsLetter_is_ident_byte in H.
  unfold readIdentifier, scan_fuel; cbn [snd].
  pose proof (scan_step is_ident_byte no_pre (fun _ => eq_refl)
                (Z.to_nat (len (input l) - readPosition l)) l H).
  lia.
Qed.

Lemma readNumber_step l :
  IsDigit (ch l) = true ->
  readPosition l < readPosition (snd (readNumber l)).
Proof.
  intros H. apply IsDigit_is_number_byte in H.
  unfold readNumber, scan_fuel; cbn [snd].
  pose proof (scan_step is_number_byte no_pre (fun _ => eq_refl)
                (Z.to_nat (len (input l) - readPosition l)) l H).
  lia.
Qed.

Lemma readComment_step l :
  ch l = hash -> readPosition l < readPosition (snd (readComment l)).
Proof.
  intros H.
  assert (C : in_comment (ch l) = true) by (rewrite H; reflexivity).
  unfold readComment, scan_fuel; cbn [snd].
  pose proof (scan_step in_comment no_pre (fun _ => eq_refl)
                (Z.to_nat (len (input l) - readPosition l)) l C).
  lia.
Qed.

(** The branches of [NextToken] other than the comment. *)
Lemma some_snd {A B : Type} (a x : A) (b y : B) :
  Some (a, b) = Some (x, y) -> b = y.
Proof. intros H. inversion H. reflexivity. Qed.

Ltac token_branches l1 :=
  destruct (Ascii.eqb (ch l1) dquote);
  [ unfold readString;
    match goal with
    | |- context [scan in_string no_pre ?n ?x] =>
        pose proof (keeps_scan in_string n x) as (? & ? & ?)
    end;
    intros Hret; apply some_snd in Hret; subst; cbn in *;
    repeat split; try congruence; lia
  | destruct (IsLetter (ch l1)) eqn:El;
    [ pose proof (readIdentifier_step l1 El);
      pose proof (keeps_readIdentifier l1) as (? & ? & ?);
      destruct (readIdentifier l1) as [ident l2]; cbn [snd] in *;
      destruct (multiWord ident l2) as [[tok0 l3]|] eqn:Em;
      [ apply keeps_multiWord in Em as (? & ? & ?) |];
      intros Hret; apply some_snd in Hret; subst;
      repeat split; try congruence; lia
    | destruct (IsDigit (ch l1)) eqn:Ed;
      [ pose proof (readNumber_step l1 Ed);
        unfold readNumber in *; cbn [snd] in *; unfold scan_fuel in *;
        match goal with
        | |- context [scan is_number_byte no_pre ?n ?x] =>
            pose proof (keeps_scan is_number_byte n x) as (? & ? & ?)
        end;
        intros Hret; apply some_snd in Hret; subst;
        repeat split; try congruence; lia
      | intros Hret; apply some_snd in Hret; subst; cbn;
        repeat split; try congruence; lia ] ] ].

(** Whatever [NextToken] returns, it has read at least one byte, and it has
    changed neither the input nor the error list. *)
Lemma NextToken_from_keeps : forall fuel l tok l',
  NextToken_from fuel l = Some (tok, l') ->
  input l' = input l /\ errors l' = errors l
  /\ readPosition l < readPosition l'.
Proof.
  induction fuel as [|f IH]; intros l tok l'; cbn [NextToken_from];
    pose proof (keeps_skipWhitespace l) as (I1 & E1 & R1);
    set (l1 := skipWhitespace l) in *; clearbody l1.
  - destruct (Ascii.eqb (ch l1) NUL);
      [intros H; apply some_snd in H; subst; cbn; repeat split; try assumption; lia|].
    destruct (Ascii.eqb (ch l1) hash); [discriminate|].
    token_branches l1.
  - destruct (Ascii.eqb (ch l1) NUL);
      [intros H; apply some_snd in H; subst; cbn; repeat split; try assumption; lia|].
    destruct (Ascii.eqb (ch l1) hash) eqn:Eh.
    + intros H. apply IH in H as (I2 & E2 & R2).
      apply Ascii.eqb_eq in Eh.
      pose proof (readComment_step l1 Eh).
      unfold readComment in *; cbn [snd] in *.
      pose proof (keeps_scan in_comment (scan_fuel l1) l1) as (I3 & E3 & R3).
      repeat split; [congruence|congruence|lia].
    + token_branches l1.
Qed.

(** X1.  [NextToken] returns a token from every state of the lexer whose read
    position is not negative; the call has read at least one byte, and it has
    changed neither the input nor the list of errors. *)
Theorem NextToken_reads_at_least_one_byte l :
  0 <= readPosition l ->
  exists tok l',
    NextToken l = Some (tok, l')
    /\ readPosition l < readPosition l'
    /\ input l' = input l
    /\ Errors l' = Errors l.
Proof.
  intros H. destruct (NextToken_total l H) as [[tok l'] E].
  exists tok, l'. split; [exact E|].
  apply NextToken_from_keeps in E as (I & Er & R). auto.
Qed.

Lemma NextToken_reads_at_least_one_byte_witness :
  exists tok l',
    NextToken (New "let x") = Some (tok, l')
    /\ readPosition (New "let x") < readPosition l'
    /\ input l' = input (New "let x")
    /\ Errors l' = Errors (New "let x").
Proof.
  apply (NextToken_reads_at_least_one_byte (New "let x")).
  vm_compute. discriminate.
Defined.

End LexerProgress.

(** ** The lexer: kinds of tokens *)

Section LexerKinds.
Import host lexer lexing.

Lemma keywords_list :
  map_to_list token.keywords =
  ltac:(let v := eval vm_compute in (map_to_list token.keywords) in exact v).
Proof. vm_compute. reflexivity. Qed.

(** No keyword stands for an identifier or for a comment. *)
Lemma keywords_kinds ident t :
  token.keywords !! ident = Some t -> t <> token.IDENT /\ t <> token.COMMENT.
Proof.
  intros H.
  pose proof (proj2 (elem_of_map_to_list token.keywords ident t) H) as E.
  rewrite keywords_list in E.
  repeat (apply elem_of_cons in E as [E|E];
          [inversion E; split; discriminate|]).
  apply elem_of_nil in E. destruct E.
Qed.

Lemma LookupIdent_not_COMMENT ident :
  token.LookupIdent ident <> token.COMMENT.
Proof.
  unfold token.LookupIdent.
  destruct (token.keywords !! ident) as [t|] eqn:E; [|discriminate].
  apply (keywords_kinds _ _ E).
Qed.

(** X2.  [LookupIdent] answers IDENT for the words that are not in the keyword
    table, and only for them: no keyword is mapped to IDENT. *)
Theorem LookupIdent_IDENT_iff_no_keyword ident :
  token.LookupIdent ident = token.IDENT <-> token.keywords !! ident = None.
Proof.
  unfold token.LookupIdent.
  destruct (token.keywords !! ident) as [t|] eqn:E.
  - split; [|discriminate]. intros H. destruct (keywords_kinds _ _ E) as [N _].
    contradiction.
  - split; reflexivity.
Qed.

Lemma multiWord_not_COMMENT ident l tok l' :
  multiWord ident l = Some (tok, l') -> token.Type_ tok <> token.COMMENT.
Proof.
  split_multiWord ident;
  step_multiWord keeps_peekKeyword keeps_readIdentifier;
  intros H; inversion H; subst; discriminate.
Qed.

(** Comments are skipped: no token that [NextToken] returns is a COMMENT. *)
Lemma NextToken_from_not_COMMENT : forall fuel l tok l',
  NextToken_from fuel l = Some (tok, l') -> token.Type_ tok <> token.COMMENT.
Proof.
  induction fuel as [|f IH]; intros l tok l'; cbn [NextToken_from];
    set (l1 := skipWhitespace l); clearbody l1.
  all: destruct (Ascii.eqb (ch l1) NUL);
    [intros H; inversion H; subst; discriminate|].
  all: destruct (Ascii.eqb (ch l1) hash); [first [discriminate|apply IH]|].
  all: destruct (Ascii.eqb (ch l1) dquote);
    [unfold readString; intros H; inversion H; subst; discriminate|].
  all: destruct (IsLetter (ch l1));
    [destruct (readIdentifier l1) as [ident l2];
     destruct (multiWord ident l2) as [[tok0 l3]|] eqn:Em;
     intros H; inversion H; subst;
     [eapply multiWord_not_COMMENT; eassumption
     |apply LookupIdent_not_COMMENT]|].
  all: destruct (IsDigit (ch l1));
    [unfold readNumber|]; intros H; inversion H; subst; discriminate.
Qed.

(** X3.  Comments never reach the caller of [NextToken]: whatever token the
    call returns, it is not a COMMENT. *)
Theorem NextToken_skips_comments l tok l' :
  NextToken l = Some (tok, l') -> token.Type_ tok <> token.COMMENT.
Proof. apply NextToken_from_not_COMMENT. Qed.

Lemma NextToken_skips_comments_witness :
  exists tok l',
    NextToken (New ("# note" +:+ String newline "x")) = Some (tok, l')
    /\ token.Literal tok = "x"
    /\ token.Type_ tok <> token.COMMENT.
Proof.
  eexists _, _. split; [vm_compute; reflexivity|].
  split; [reflexivity|].
  eapply (NextToken_skips_comments (New ("# note" +:+ String newline "x"))).
  vm_compute. reflexivity.
Defined.

End LexerKinds.

(** ** The lexer: keyword phrases *)

Section LexerPhrases.
Import host lexer lexing.

Lemma same_place_refl l : same_place l l.
Proof. unfold same_place. repeat split. Qed.

Lemma same_place_trans a b c : same_place a b -> same_place b c -> same_place a c.
Proof.
  unfold same_place. intros (? & ? & ? & ? & ? & ?) (? & ? & ? & ? & ? & ?).
  repeat split; congruence.
Qed.

Lemma same_place_peekKeyword keyword l :
  same_place l (snd (peekKeyword keyword l)).
Proof.
  destruct (peekKeyword_restores keyword l) as (I & P & R & C & Co & _).
  destruct (keeps_peekKeyword keyword l) as (_ & E & _).
  unfold same_place. auto 10.
Qed.

Lemma scan_idle cond pre fuel l : cond (ch l) = false -> scan cond pre fuel l = l.
Proof. intros H. destruct fuel; cbn [scan]; rewrite H; reflexivity. Qed.

Lemma parked_peekKeyword l0 keyword l :
  parked l0 l -> parked l0 (snd (peekKeyword keyword l)).
Proof.
  intros [S N]. split; [|exact N].
  eapply same_place_trans; [exact S|apply same_place_peekKeyword].
Qed.

Lemma parked_readIdentifier l0 l :
  parked l0 l -> parked l0 (snd (readIdentifier l)).
Proof.
  intros [S N]. split; [|exact N].
  unfold readIdentifier; cbn [snd]. rewrite scan_idle; [exact S|].
  destruct S as (_ & _ & _ & C & _). rewrite C. exact N.
Qed.

Lemma parked_multiWord l0 ident l tok l' :
  parked l0 l -> multiWord ident l = Some (tok, l') -> parked l0 l'.
Proof.
  intros Hp. split_multiWord ident;
  step_multiWord (parked_peekKeyword l0) (parked_readIdentifier l0);
  intros H; inversion H; subst;
  repeat match goal with
         | E : ?P -> _, E' : ?P |- _ => specialize (E E')
         end;
  assumption.
Qed.

Lemma IsLetter_no_delimiter c :
  IsLetter c = true ->
  Ascii.eqb c NUL = false /\ Ascii.eqb c hash = false
  /\ Ascii.eqb c dquote = false.
Proof.
  intros H. repeat split.
  all: destruct (Ascii.eqb c _) eqn:E; [|reflexivity].
  all: apply Ascii.eqb_eq in E; subst c; vm_compute in H; discriminate.
Qed.

(** X4.  On a word [NextToken] reads one identifier and no more, whatever
    token it returns: after a keyword phrase of several words ([end function],
    [greater or equal], [get item at index], ...) has been recognised by
    peeking, the lexer still stands right behind the first word, so that the
    later words of the phrase are read again by the next calls. *)
Theorem NextToken_word_reads_one_identifier l tok l' :
  IsLetter (ch (skipWhitespace l)) = true ->
  NextToken l = Some (tok, l') ->
  same_place (snd (readIdentifier (skipWhitespace l))) l'.
Proof.
  intros Hl. unfold NextToken.
  destruct (IsLetter_no_delimiter _ Hl) as (N1 & N2 & N3).
  assert (St : is_ident_byte (ch (snd (readIdentifier (skipWhitespace l)))) = false).
  { unfold readIdentifier; cbn [snd]. apply scan_stops; try reflexivity.
    unfold scan_fuel. lia. }
  cbn [NextToken_from]. rewrite N1, N2, N3, Hl.
  destruct (readIdentifier (skipWhitespace l)) as [ident l2]; cbn [snd] in *.
  destruct (multiWord ident l2) as [[tok0 l3]|] eqn:Em.
  - intros H; inversion H; subst.
    eapply parked_multiWord in Em as [S _]; [exact S|].
    split; [apply same_place_refl|exact St].
  - intros H; inversion H; subst. apply same_place_refl.
Qed.

Lemma NextToken_word_reads_one_identifier_witness :
  exists tok l',
    NextToken (New "end function") = Some (tok, l')
    /\ token.Type_ tok = token.ENDFUNCTION
    /\ token.Literal tok = "end function"
    /\ position l' = 3
    /\ same_place (snd (readIdentifier (skipWhitespace (New "end function"))))
         l'.
Proof.
  eexists _, _. split; [vm_compute; reflexivity|].
  split; [reflexivity|]. split; [reflexivity|]. split; [reflexivity|].
  eapply (NextToken_word_reads_one_identifier (New "end function")).
  - vm_compute. reflexivity.
  - vm_compute. reflexivity.
Defined.

End LexerPhrases.

(** ** The parser: diagnostics *)

Section DiagnosticTriples.
Import host parser diagnostics.

Lemma okE_ret {A : Type} (Q : A -> Prop) (a : A) : Q a -> okE Q (ret a).
Proof. intros HQ p a' p' Hp H. inversion H; subst. auto. Qed.

Lemma prefix_same {A : Type} (x y z : list A) :
  x `prefix_of` y -> y `prefix_of` z -> z = x -> y = x /\ z = y.
Proof.
  intros [k1 ->] [k2 ->] H.
  rewrite <- app_assoc in H.
  assert (L : length (x ++ k1 ++ k2) = length x) by (rewrite H; reflexivity).
  rewrite !length_app in L.
  destruct k1; [|simpl in L; lia]. destruct k2; [|simpl in L; lia].
  rewrite !app_nil_r. auto.
Qed.

Lemma okE_bind {A B : Type} (Q1 : A -> Prop) (Q2 : B -> Prop) (m : P A)
    (k : A -> P B) :
  okE Q1 m -> (forall a, okE (fun b => Q1 a -> Q2 b) (k a)) ->
  okE Q2 (m ≫= k).
Proof.
  intros Hm Hk p b p' Hp H. unfold mbind, P_bind, bind in H.
  destruct (m p) as [[a p1]|] eqn:E; [|discriminate].
  destruct (Hm _ _ _ Hp E) as (Hp1 & Hpre1 & Ha).
  destruct (Hk a _ _ _ Hp1 H) as (Hp2 & Hpre2 & Hb).
  split; [exact Hp2|]. split; [etrans; eassumption|].
  intros Heq. destruct (prefix_same _ _ _ Hpre1 Hpre2 Heq) as [E1 E2]. auto.
Qed.

(** What [get] returns is registered whether or not diagnostics follow. *)
Lemma okE_get {A : Type} (Q : A -> Prop) (k : Parser -> P A) :
  (forall p, registered p -> okE Q (k p)) -> okE Q (get ≫= k).
Proof.
  intros Hk p b p' Hp H. unfold mbind, P_bind, bind, get in H.
  exact (Hk p Hp _ _ _ Hp H).
Qed.

Lemma okE_weaken {A : Type} (Q Q' : A -> Prop) (m : P A) :
  (forall a, Q a -> Q' a) -> okE Q m -> okE Q' m.
Proof.
  intros HQ Hm p a p' Hp H. destruct (Hm _ _ _ Hp H) as (? & ? & ?). auto.
Qed.

Lemma okE_stop {A : Type} (Q : A -> Prop) : okE Q stop.
Proof. intros p a p' _ H. discriminate. Qed.

Lemma okE_nextToken : okE (fun _ => True) nextToken.
Proof.
  intros p a p' Hp H. unfold nextToken in H.
  destruct (lexer.NextToken (l p)) as [[tok l']|]; inversion H; subst.
  cbn. auto.
Qed.

Lemma okE_addError msg : okE (fun _ => False) (addError msg).
Proof.
  intros p a p' Hp H. inversion H; subst. cbn.
  split; [exact Hp|]. split; [apply prefix_app_r; reflexivity|].
  intros E. apply (f_equal (@length _)) in E. rewrite length_app in E.
  simpl in E. lia.
Qed.

Lemma okE_peekError t : okE (fun _ => False) (peekError t).
Proof. unfold peekError. apply okE_get. intros; apply okE_addError. Qed.

Lemma okE_noPrefixParseFnError t :
  okE (fun _ => False) (noPrefixParseFnError t).
Proof. unfold noPrefixParseFnError. apply okE_get. intros; apply okE_addError. Qed.

(** [expectPeek] answers false only together with a diagnostic. *)
Lemma okE_expectPeek t : okE (fun b => b = true) (expectPeek t).
Proof.
  unfold expectPeek. apply okE_get. intros p _.
  destruct (peekTokenIs p t).
  - eapply okE_bind; [apply okE_nextToken|]. intros; apply okE_ret; auto.
  - eapply okE_bind; [apply okE_peekError|]. intros; apply okE_ret.
    intros [].
Qed.

End DiagnosticTriples.

Create HintDb okedb.

(** The closing step of a triple: the facts collected along the way give
    the completeness of the node that is returned. *)
Ltac closeE :=
  cbv beta delta [diagnostics.Ce diagnostics.Cos diagnostics.Css
                  diagnostics.Cb diagnostics.Ces] in *;
  intros;
  try contradiction; try discriminate;
  repeat match goal with
         | H : ?b = true, E : negb ?b = true |- _ =>
             rewrite H in E; discriminate E
         end;
  cbn [shape.complete_expr shape.complete_stmt shape.complete_block
       shape.complete_elseif forallb] in *;
  repeat match goal with
         | H : ?A -> _ |- _ =>
             let HA := fresh in
             assert (HA : A)
               by (repeat match goal with
                          | E : _ = true |- _ => rewrite E
                          end; reflexivity);
             specialize (H HA)
         end;
  repeat match goal with
         | H : _ = true |- _ => rewrite H
         end;
  try reflexivity; try exact I.

Section DiagnosticMethods.
Import host parser diagnostics.

Variable ParseInt : string -> parsed Z.
Variable ParseFloat : string -> parsed float.
Variable parseStatement_ : P (option ast.Statement).
Variable parseExpression_ : Z -> P ast.Expression.
Variable fuel : nat.
Hypothesis IHs : okE Cos parseStatement_.
Hypothesis IHe : forall prec, okE Ce (parseExpression_ prec).

#[local] Hint Resolve okE_nextToken okE_expectPeek okE_addError
  okE_noPrefixParseFnError IHe IHs : okedb.

Ltac subE := solve [ eauto 3 with okedb nocore ].

Ltac goE :=
  repeat first
    [ apply okE_stop
    | solve [subE]
    | solve [eapply okE_weaken; [|subE]; closeE]
    | apply okE_ret; solve [closeE]
    | match goal with
      | |- okE _ (mbind _ get) => apply okE_get; intros ? ?
      end
    | eapply okE_bind; [ solve [subE] | intros ? ]
    | match goal with
      | |- okE _ (if ?b then _ else _) => destruct b eqn:?
      | |- okE _ (match ?x with _ => _ end) => destruct x eqn:?
      end ].

Lemma okE_parseLetStatement : okE Cos (parseLetStatement parseExpression_).
Proof using IHe. unfold parseLetStatement. goE. Qed.

Lemma okE_parseReturnStatement :
  okE Cos (parseReturnStatement parseExpression_).
Proof using IHe. unfold parseReturnStatement. goE. Qed.

Lemma okE_parseExpressionStatement :
  okE (fun s => shape.complete_stmt s = true)
    (parseExpressionStatement parseExpression_).
Proof using IHe. unfold parseExpressionStatement. goE. Qed.

Lemma okE_parseIdentifier : okE Ce parseIdentifier.
Proof. unfold parseIdentifier. goE. Qed.

Lemma okE_parseIntegerLiteral : okE Ce (parseIntegerLiteral ParseInt).
Proof. unfold parseIntegerLiteral. goE. Qed.

Lemma okE_parseStringLiteralStruct :
  okE (fun _ => True) parseStringLiteralStruct.
Proof. unfold parseStringLiteralStruct. goE. Qed.
#[local] Hint Resolve okE_parseStringLiteralStruct : okedb.

Lemma okE_parseStringLiteral : okE Ce parseStringLiteral.
Proof. unfold parseStringLiteral. goE. Qed.

Lemma okE_parseBoolean : okE Ce parseBoolean.
Proof. unfold parseBoolean. goE. Qed.

Lemma okE_parseGroupedExpression :
  okE Ce (parseGroupedExpression parseExpression_).
Proof using IHe. unfold parseGroupedExpression. goE. Qed.

Lemma Css_appendStmt acc stmt :
  Css acc -> Cos stmt -> Css (appendStmt acc stmt).
Proof.
  unfold Css, Cos, appendStmt. intros Ha Hs. destruct stmt; [|exact Ha].
  rewrite forallb_app, Ha. simpl. rewrite Hs. reflexivity.
Qed.

Lemma okE_blockLoop n : forall acc,
  okE (fun ss => Css acc -> Css ss) (blockLoop parseStatement_ n acc).
Proof using IHs.
  induction n as [|n IH]; intros acc; simpl.
  - apply okE_get. intros p Hp.
    destruct (blockEnds p); [apply okE_ret; auto|apply okE_stop].
  - apply okE_get. intros p Hp.
    destruct (blockEnds p); [apply okE_ret; auto|].
    eapply okE_bind; [apply IHs|]. intros stmt.
    eapply okE_bind; [apply okE_nextToken|]. intros ?.
    eapply okE_weaken; [|apply IH]. cbv beta. intros ss H _ Hs Hacc.
    apply H. apply Css_appendStmt; assumption.
Qed.

Lemma okE_parseBlockStatement :
  okE Cb (parseBlockStatement parseStatement_ fuel).
Proof using IHs.
  unfold parseBlockStatement.
  apply okE_get. intros p Hp.
  eapply okE_bind; [apply okE_nextToken|]. intros ?.
  eapply okE_bind; [apply okE_blockLoop|]. intros ss.
  apply okE_ret. intros H _. apply H. reflexivity.
Qed.
#[local] Hint Resolve okE_parseBlockStatement : okedb.

Lemma okE_elseifLoop n : forall acc,
  okE (fun o => forallb shape.complete_elseif acc = true -> Ceifs o)
    (elseifLoop parseStatement_ parseExpression_ fuel n acc).
Proof using IHs IHe.
  induction n as [|n IH]; intros acc; simpl.
  - apply okE_get. intros p Hp.
    destruct (peekTokenIs p token.ELSEIF); [apply okE_stop|apply okE_ret; auto].
  - apply okE_get. intros p Hp.
    destruct (peekTokenIs p token.ELSEIF); [|apply okE_ret; auto].
    eapply okE_bind; [apply okE_nextToken|]. intros ?.
    eapply okE_bind; [apply IHe|]. intros c.
    eapply okE_bind; [apply okE_expectPeek|]. intros b.
    destruct b; simpl; [|apply okE_ret; cbv beta; intros; discriminate].
    eapply okE_bind; [apply okE_parseBlockStatement|]. intros blk.
    eapply okE_weaken; [|apply IH]. cbv beta. intros o H Hb _ Hc _ Hacc.
    apply H. rewrite forallb_app, Hacc. simpl.
    unfold Ce, Cb in *. rewrite Hc, Hb. reflexivity.
Qed.

Lemma okE_parseIfStatement :
  okE Cos (parseIfStatement parseStatement_ parseExpression_ fuel).
Proof using IHs IHe.
  unfold parseIfStatement.
  apply okE_get. intros p Hp.
  eapply okE_bind; [apply okE_nextToken|]. intros ?.
  eapply okE_bind; [apply IHe|]. intros c.
  eapply okE_bind; [apply okE_expectPeek|]. intros b.
  destruct b; simpl; [|apply okE_ret; cbv beta; intros; discriminate].
  eapply okE_bind; [apply okE_parseBlockStatement|]. intros thenB.
  eapply okE_bind; [apply okE_elseifLoop|]. intros [eifs|];
    [|apply okE_ret; cbv beta; intros H; intros; apply H; reflexivity].
  apply okE_get. intros p1 Hp1.
  eapply okE_bind.
  { instantiate (1 := fun o => match o with
                               | Some blk => Cb blk
                               | None => True
                               end).
    destruct (peekTokenIs p1 token.ELSE).
    - eapply okE_bind; [apply okE_nextToken|]. intros ?.
      eapply okE_bind; [apply okE_parseBlockStatement|]. intros blk.
      apply okE_ret. auto.
    - apply okE_ret. exact I. }
  intros elseB.
  eapply okE_bind; [apply okE_expectPeek|]. intros b.
  destruct b; simpl; [|apply okE_ret; cbv beta; intros; discriminate].
  apply okE_ret. cbv beta. intros _ Hel He Ht _ Hc _.
  unfold Ceifs, Cos, Ce, Cb in *. simpl.
  rewrite Hc, Ht, (He eq_refl). destruct elseB; [rewrite Hel|]; reflexivity.
Qed.

Lemma okE_parseWhileStatement :
  okE Cos (parseWhileStatement parseStatement_ parseExpression_ fuel).
Proof using IHs IHe. unfold parseWhileStatement. goE. Qed.

Lemma okE_parseForEachStatement :
  okE Cos (parseForEachStatement parseStatement_ parseExpression_ fuel).
Proof using IHs IHe. unfold parseForEachStatement. goE. Qed.

Lemma okE_paramLoop n : forall acc, okE (fun _ => True) (paramLoop n acc).
Proof.
  induction n as [|n IH]; intros acc; simpl.
  - goE.
  - apply okE_get. intros p Hp.
    destruct (peekTokenIs p token.IDENT); [|apply okE_ret; exact I].
    eapply okE_bind; [apply okE_nextToken|]. intros ?.
    apply okE_get. intros p' Hp'.
    eapply okE_weaken; [|apply IH]. auto.
Qed.
#[local] Hint Resolve okE_paramLoop : okedb.

Lemma okE_parseFunctionParameters :
  okE (fun _ => True) (parseFunctionParameters fuel).
Proof. unfold parseFunctionParameters. goE. Qed.
#[local] Hint Resolve okE_parseFunctionParameters : okedb.

Lemma okE_parseFunctionStatement :
  okE Ce (parseFunctionStatement parseStatement_ fuel).
Proof using IHs.
  unfold parseFunctionStatement.
  apply okE_get. intros p Hp.
  eapply okE_bind.
  { instantiate (1 := fun _ => True). destruct (peekTokenIs p token.IDENT); goE. }
  intros params. goE.
Qed.

Lemma okE_argLoop n : forall acc,
  okE (fun es => Ces acc -> Ces es) (argLoop parseExpression_ n acc).
Proof using IHe.
  induction n as [|n IH]; intros acc; simpl.
  - apply okE_get. intros p Hp.
    destruct (startsArgument p); [apply okE_stop|apply okE_ret; auto].
  - apply okE_get. intros p Hp.
    destruct (startsArgument p); [|apply okE_ret; auto].
    eapply okE_bind; [apply okE_nextToken|]. intros ?.
    eapply okE_bind; [apply IHe|]. intros e.
    eapply okE_weaken; [|apply IH]. cbv beta. intros es H He _ Hacc.
    apply H. unfold Ces, Ce in *. rewrite forallb_app, Hacc. simpl.
    rewrite He. reflexivity.
Qed.

Lemma okE_parseListLiteral : okE Ce (parseListLiteral parseExpression_ fuel).
Proof using IHe.
  unfold parseListLiteral.
  apply okE_get. intros p Hp.
  destruct (peekTokenIs p token.END); [goE|].
  eapply okE_bind; [apply okE_nextToken|]. intros ?.
  eapply okE_bind; [apply IHe|]. intros e.
  eapply okE_bind; [apply okE_argLoop|].
  intros es. apply okE_ret. cbv beta. intros Hes He _.
  unfold Ces, Ce in *. simpl. apply Hes. simpl. rewrite He. reflexivity.
Qed.

Lemma okE_parsePrintStatement :
  okE Cos (parsePrintStatement parseExpression_).
Proof using IHe. unfold parsePrintStatement. goE. Qed.

Lemma okE_parseInputStatement : okE Cos parseInputStatement.
Proof. unfold parseInputStatement. goE. Qed.

Lemma okE_parseIsDefinedExpression : okE Ce parseIsDefinedExpression.
Proof. unfold parseIsDefinedExpression. goE. Qed.

Lemma okE_parseExitStatement :
  okE Cos (parseExitStatement parseExpression_).
Proof using IHe.
  unfold parseExitStatement. apply okE_get. intros p Hp.
  destruct (negb (peekTokenIs p token.END) && negb (peekTokenIs p token.EOF)).
  - eapply okE_bind; [apply okE_nextToken|]. intros ?.
    eapply okE_bind; [apply IHe|]. intros code.
    apply okE_ret. cbv beta. unfold Cos, Ce. intros H _. simpl.
    destruct code; try exact H; reflexivity.
  - apply okE_ret. reflexivity.
Qed.

Lemma okE_parseConvertToNumberExpression :
  okE Ce (parseConvertToNumberExpression parseExpression_).
Proof using IHe. unfold parseConvertToNumberExpression. goE. Qed.

Lemma okE_parseConvertToStringExpression :
  okE Ce (parseConvertToStringExpression parseExpression_).
Proof using IHe. unfold parseConvertToStringExpression. goE. Qed.

Lemma okE_parseGetItemAtIndexPrefix :
  okE Ce (parseGetItemAtIndexPrefix parseExpression_).
Proof using IHe. unfold parseGetItemAtIndexPrefix. goE. Qed.

Lemma okE_callPrefix fn :
  spec.builds_produced fn = true ->
  okE Ce
    (callPrefix ParseInt ParseFloat parseStatement_ parseExpression_ fuel fn).
Proof using IHs IHe.
  destruct fn; simpl; try discriminate; intros _;
    auto using okE_parseIdentifier, okE_parseIntegerLiteral,
      okE_parseStringLiteral, okE_parseBoolean, okE_parseGroupedExpression,
      okE_parseFunctionStatement, okE_parseListLiteral,
      okE_parseGetItemAtIndexPrefix, okE_parseIsDefinedExpression,
      okE_parseConvertToNumberExpression, okE_parseConvertToStringExpression.
Qed.

Lemma okE_callStatement fn :
  okE Cos (callStatement parseStatement_ parseExpression_ fuel fn).
Proof using IHs IHe.
  destruct fn; simpl;
    auto using okE_parseLetStatement, okE_parseIfStatement,
      okE_parsePrintStatement, okE_parseWhileStatement,
      okE_parseForEachStatement, okE_parseReturnStatement,
      okE_parseExitStatement, okE_parseInputStatement.
Qed.

Lemma okE_parseExpression_body prec :
  okE Ce
    (parseExpression_body ParseInt ParseFloat parseStatement_
       parseExpression_ fuel prec).
Proof using IHs IHe.
  unfold parseExpression_body.
  apply okE_get. intros p [Hp _].
  rewrite Hp.
  destruct (prefixTable !! token.Type_ (curToken p)) as [fn|] eqn:E.
  - eapply okE_bind; [apply okE_callPrefix; eapply prefixTable_entries; exact E|].
    intros e. apply okE_ret. auto.
  - goE.
Qed.

Lemma okE_parseStatement_body :
  okE Cos (parseStatement_body parseStatement_ parseExpression_ fuel).
Proof using IHs IHe.
  unfold parseStatement_body.
  apply okE_get. intros p Hp.
  destruct (statementParseFns p !! token.Type_ (curToken p)) as [fn|].
  - apply okE_callStatement.
  - eapply okE_bind; [apply okE_parseExpressionStatement|]. intros s.
    apply okE_ret. auto.
Qed.

End DiagnosticMethods.

Section DiagnosticRecursion.
Import host parser diagnostics.

Variable ParseInt : string -> parsed Z.
Variable ParseFloat : string -> parsed float.

Lemma okE_parse fuel :
  okE Cos (parseStatement ParseInt ParseFloat fuel)
  /\ forall prec, okE Ce (parseExpression ParseInt ParseFloat fuel prec).
Proof.
  induction fuel as [|n [IHs IHe]]; simpl.
  - split; [|intros prec]; apply okE_stop.
  - split; [|intros prec].
    + apply okE_parseStatement_body; assumption.
    + apply okE_parseExpression_body; assumption.
Qed.

Lemma okE_programLoop fuel n : forall acc,
  okE (fun ss => Css acc -> Css ss)
    (programLoop ParseInt ParseFloat fuel n acc).
Proof.
  induction n as [|n IH]; intros acc; simpl.
  - apply okE_get. intros p Hp.
    destruct (curTokenIs p token.EOF); [apply okE_ret; auto|apply okE_stop].
  - apply okE_get. intros p Hp.
    destruct (curTokenIs p token.EOF); [apply okE_ret; auto|].
    eapply okE_bind; [apply okE_parse|]. intros stmt.
    eapply okE_bind; [apply okE_nextToken|]. intros ?.
    eapply okE_weaken; [|apply IH]. cbv beta. intros ss H _ Hs Hacc.
    apply H. apply Css_appendStmt; assumption.
Qed.

Lemma okE_ParseProgram fuel :
  okE (fun pr => shape.complete_program pr = true)
    (ParseProgram ParseInt ParseFloat fuel).
Proof.
  unfold ParseProgram. eapply okE_bind; [apply okE_programLoop|].
  intros ss. apply okE_ret. intros H. apply H. reflexivity.
Qed.

End DiagnosticRecursion.

Section DiagnosticClaims.
Import host parser diagnostics.

Variable ParseInt : string -> parsed Z.
Variable ParseFloat : string -> parsed float.

Lemma nextToken_errors p u p' :
  nextToken p = Some (u, p') -> errors p' = errors p.
Proof.
  unfold nextToken. destruct (lexer.NextToken (l p)) as [[tok l']|];
    [|discriminate].
  intros H. inversion H. reflexivity.
Qed.

Lemma registerParseFunctions_errors p :
  errors (registerParseFunctions p) = errors p.
Proof. reflexivity. Qed.

Lemma two_tokens_errors p0 u p :
  (nextToken;; nextToken) p0 = Some (u, p) -> errors p = errors p0.
Proof.
  unfold mbind, P_bind, bind. intros H.
  destruct (nextToken p0) as [[u1 p1]|] eqn:E1; [|discriminate].
  rewrite (nextToken_errors _ _ _ H), (nextToken_errors _ _ _ E1). reflexivity.
Qed.

(** A new parser has no diagnostics. *)
Lemma New_errors lx p : New lx = Some p -> errors p = [].
Proof.
  unfold New. intros H.
  destruct ((nextToken;; nextToken) _) as [[u p2]|] eqn:E in H; [|discriminate].
  apply two_tokens_errors in E. inversion H; subst. rewrite E.
  apply registerParseFunctions_errors.
Qed.

(** X5.  The parser never drops or rewrites a diagnostic: whatever
    [parseStatement], [parseExpression] or [ParseProgram] do, the diagnostics
    recorded before are a prefix of those recorded after. *)
Theorem parser_diagnostics_only_grow fuel p :
  registered p ->
  (forall stmt p',
     parseStatement ParseInt ParseFloat fuel p = Some (stmt, p') ->
     Errors p `prefix_of` Errors p')
  /\ (forall prec e p',
        parseExpression ParseInt ParseFloat fuel prec p = Some (e, p') ->
        Errors p `prefix_of` Errors p')
  /\ (forall program p',
        ParseProgram ParseInt ParseFloat fuel p = Some (program, p') ->
        Errors p `prefix_of` Errors p').
Proof.
  intros Hp. split; [|split].
  - intros stmt p' H.
    apply (proj1 (okE_parse ParseInt ParseFloat fuel) _ _ _ Hp H).
  - intros prec e p' H.
    apply (proj2 (okE_parse ParseInt ParseFloat fuel) prec _ _ _ Hp H).
  - intros program p' H.
    apply (okE_ParseProgram ParseInt ParseFloat fuel _ _ _ Hp H).
Qed.

Lemma parse_complete fuel src program :
  driver.parse ParseInt ParseFloat fuel src = Some (program, []) ->
  shape.complete_program program = true.
Proof.
  unfold driver.parse. intros H.
  destruct (New (lexer.New src)) as [p0|] eqn:HN; [|discriminate].
  destruct (ParseProgram ParseInt ParseFloat fuel p0) as [[pr p']|] eqn:HP;
    [|discriminate].
  pose proof (New_errors _ _ HN) as E0.
  inversion H; subst. apply New_registered in HN.
  apply (okE_ParseProgram ParseInt ParseFloat fuel _ _ _ HN HP).
  unfold Errors in *. congruence.
Qed.

(** X6.  A missing node comes with a diagnostic. When [parseExpression]
    returns without a new diagnostic, its result is not nil and holds no nil
    expression other than the code of an [exit] statement that has none; when
    [parseStatement] returns without a new diagnostic, it returns a statement,
    not nil, and that statement holds no other nil expression either; and a
    source text that is parsed without any diagnostic gives a program of such
    statements. The code of [exit] is left nil, without a diagnostic, when END
    or EOF is the next token. *)
Theorem parse_without_diagnostic_is_complete fuel :
  (forall prec p e p',
     registered p ->
     parseExpression ParseInt ParseFloat fuel prec p = Some (e, p') ->
     Errors p' = Errors p ->
     shape.complete_expr e = true)
  /\ (forall p r p',
        registered p ->
        parseStatement ParseInt ParseFloat fuel p = Some (r, p') ->
        Errors p' = Errors p ->
        exists stmt, r = Some stmt /\ shape.complete_stmt stmt = true)
  /\ (forall src program,
        driver.parse ParseInt ParseFloat fuel src = Some (program, []) ->
        shape.complete_program program = true)
  /\ (forall pE p,
        peekTokenIs p token.END || peekTokenIs p token.EOF = true ->
        parseExitStatement pE p
        = Some (Some (ast.ExitStatement (curToken p) ast.NilExpression), p)).
Proof.
  split; [|split; [|split]].
  - intros prec p e p' Hp H E.
    apply (proj2 (okE_parse ParseInt ParseFloat fuel) prec _ _ _ Hp H). exact E.
  - intros p r p' Hp H E.
    pose proof (proj2 (proj2 (proj1 (okE_parse ParseInt ParseFloat fuel)
                                _ _ _ Hp H)) E) as C.
    destruct r as [stmt|]; [|destruct C]. exists stmt. split; [reflexivity|exact C].
  - intros src program. apply parse_complete.
  - intros pE p H. unfold parseExitStatement, mbind, P_bind, bind, get.
    destruct (peekTokenIs p token.END); [reflexivity|].
    destruct (peekTokenIs p token.EOF); [reflexivity|discriminate].
Qed.

End DiagnosticClaims.

(** ** The parser: where a method stops *)

Section ParserStops.
Import host parser diagnostics.

Lemma bind_Some {A B : Type} (m : P A) (k : A -> P B) p b p' :
  (m ≫= k) p = Some (b, p') ->
  exists a p1, m p = Some (a, p1) /\ k a p1 = Some (b, p').
Proof.
  unfold mbind, P_bind, bind. destruct (m p) as [[a p1]|]; [|discriminate].
  intros H. eauto.
Qed.

Lemma get_Some {B : Type} (k : Parser -> P B) p b p' :
  (get ≫= k) p = Some (b, p') -> k p p = Some (b, p').
Proof. intros H. exact H. Qed.



Section Blocks.

Variable parseStatement_ : P (option ast.Statement).
Variable parseExpression_ : Z -> P ast.Expression.
Variable fuel : nat.





End Blocks.

Section Programs.

Variable ParseInt : string -> parsed Z.
Variable ParseFloat : string -> parsed float.

Lemma programLoop_ends fuel n : forall acc p ss p',
  programLoop ParseInt ParseFloat fuel n acc p = Some (ss, p') ->
  curTokenIs p' token.EOF = true.
Proof.
  induction n as [|n IH]; intros acc p ss p' H; cbn [programLoop] in H;
    apply get_Some in H; destruct (curTokenIs p token.EOF) eqn:Eb.
  - inversion H; subst. exact Eb.
  - discriminate.
  - inversion H; subst. exact Eb.
  - apply bind_Some in H as (stmt & q1 & E1 & H).
    apply bind_Some in H as (u & q2 & E2 & H).
    eapply IH. exact H.
Qed.

(** X8.  [ParseProgram] goes on to the end of the token stream whatever it
    meets: when it returns, the current token is EOF, and the diagnostics
    recorded on the way have not stopped it. *)
Theorem ParseProgram_stops_at_EOF fuel p program p' :
  ParseProgram ParseInt ParseFloat fuel p = Some (program, p') ->
  curTokenIs p' token.EOF = true.
Proof.
  unfold ParseProgram. intros H.
  apply bind_Some in H as (ss & q & E & H). inversion H; subst.
  eapply programLoop_ends. exact E.
Qed.

Lemma prefixTable_NOT : prefixTable !! token.NOT = None.
Proof. vm_compute. reflexivity. Qed.

Lemma prefixTable_ELSEIF : prefixTable !! token.ELSEIF = None.
Proof. vm_compute. reflexivity. Qed.

(** X9.  The prefix operator [not] cannot be parsed: the NOT token has no
    prefix method, so that [parseExpression] on it answers nil with the
    diagnostic [no prefix parse function for NOT], and no program that the
    parser returns holds a PrefixExpression. *)
Theorem not_is_never_parsed :
  prefixTable !! token.NOT = None
  /\ (forall t, prefixTable !! t = Some fn_parsePrefixExpression -> False)
  /\ (forall fuel prec p,
        registered p ->
        token.Type_ (curToken p) = token.NOT ->
        parseExpression ParseInt ParseFloat (S fuel) prec p
        = Some (ast.NilExpression,
                set_errors
                  (errors p ++
                   ["no prefix parse function for NOT found at line "
                    +:+ itoa (token.Line (curToken p)) +:+ ", column "
                    +:+ itoa (token.Column (curToken p))]) p))
  /\ (forall fuel src program errs,
        driver.parse ParseInt ParseFloat fuel src = Some (program, errs) ->
        ast.every_program (fun e => negb (ast.is_PrefixExpression e)) program
        = true).
Proof.
  split; [|split; [|split]].
  - apply prefixTable_NOT.
  - intros t H. apply prefixTable_entries in H. discriminate.
  - intros fuel prec p Hp Ht.
    rewrite parseExpression_unregistered; [|exact Hp|rewrite Ht; apply prefixTable_NOT].
    rewrite Ht. reflexivity.
  - intros fuel src program errs. apply parse_every.
    intros e He. destruct e; try reflexivity; discriminate.
Qed.

(** X10.  An [elseif] branch is never accepted silently. The loop over the
    branches makes ELSEIF the current token and parses the condition from
    there; ELSEIF has no prefix method, so every branch adds the diagnostic
    [no prefix parse function for ELSEIF] to those recorded before. *)
Theorem elseif_is_always_diagnosed fuel n acc p r p' :
  registered p ->
  peekTokenIs p token.ELSEIF = true ->
  elseifLoop (parseStatement ParseInt ParseFloat fuel)
    (parseExpression ParseInt ParseFloat fuel) fuel (S n) acc p
  = Some (r, p') ->
  (Errors p ++
   ["no prefix parse function for ELSEIF found at line "
    +:+ itoa (token.Line (peekToken p)) +:+ ", column "
    +:+ itoa (token.Column (peekToken p))])%list
  `prefix_of` Errors p'.
Proof.
  intros Hp Hpk H. cbn [elseifLoop] in H. apply get_Some in H.
  rewrite Hpk in H.
  apply bind_Some in H as (u & q1 & E1 & H).
  apply bind_Some in H as (cond & q2 & E2 & H).
  assert (R1 : registered q1) by (apply (okE_nextToken _ _ _ Hp E1)).
  assert (C1 : curToken q1 = peekToken p /\ errors q1 = errors p).
  { unfold nextToken in E1.
    destruct (lexer.NextToken (l p)) as [[tok l']|]; inversion E1; subst.
    split; reflexivity. }
  destruct C1 as [C1 C2].
  assert (T : token.Type_ (curToken q1) = token.ELSEIF).
  { rewrite C1. unfold peekTokenIs in Hpk. apply String.eqb_eq in Hpk.
    exact Hpk. }
  destruct fuel as [|f]; [discriminate|].
  rewrite parseExpression_unregistered in E2;
    [|exact R1|rewrite T; apply prefixTable_ELSEIF].
  inversion E2; subst cond q2. clear E2.
  rewrite T, C1, C2 in H.
  set (q2 := set_errors _ q1) in H.
  assert (R2 : registered q2) by exact R1.
  assert (O : okE (fun _ => True)
                (ok ← expectPeek token.THEN;
                 if negb ok then ret None
                 else
                   blk ← parseBlockStatement
                            (parseStatement ParseInt ParseFloat (S f)) (S f);
                   elseifLoop (parseStatement ParseInt ParseFloat (S f))
                     (parseExpression ParseInt ParseFloat (S f)) (S f) n
                     (acc ++ [ast.mkElseIfBlock ast.NilExpression blk]))).
  { destruct (okE_parse ParseInt ParseFloat (S f)) as [IHs IHe].
    eapply okE_bind; [apply okE_expectPeek|]. intros ok.
    destruct ok; cbn [negb]; [|apply okE_ret; auto].
    eapply okE_bind; [apply okE_parseBlockStatement; exact IHs|]. intros blk.
    eapply okE_weaken; [|apply okE_elseifLoop; assumption]. auto. }
  destruct (O _ _ _ R2 H) as (_ & Pre & _). exact Pre.
Qed.

End Programs.

End ParserStops.

Section ParserRuns.
Import host parser.

Lemma parser_diagnostics_only_grow_witness :
  exists p,
    New (lexer.New "let 5 not") = Some p
    /\ (forall stmt p',
          parseStatement strconv.ParseInt strconv.ParseFloat_decimal 5 p
          = Some (stmt, p') ->
          Errors p `prefix_of` Errors p').
Proof.
  destruct (New (lexer.New "let 5 not")) as [p|] eqn:E;
    [|vm_compute in E; discriminate].
  exists p. split; [reflexivity|].
  apply (parser_diagnostics_only_grow strconv.ParseInt
           strconv.ParseFloat_decimal 5%nat p (New_registered _ _ E)).
Defined.

Lemma parse_without_diagnostic_is_complete_witness :
  exists program,
    driver.parse strconv.ParseInt strconv.ParseFloat_decimal 20
      "let x be 5 if x then x end endif exit"
    = Some (program, [])
    /\ shape.complete_program program = true.
Proof.
  eexists. split; [vm_compute; reflexivity|].
  eapply (proj1 (proj2 (proj2
            (parse_without_diagnostic_is_complete strconv.ParseInt
               strconv.ParseFloat_decimal 20%nat)))
            "let x be 5 if x then x end endif exit").
  vm_compute. reflexivity.
Defined.

(** A parse that returns has gone through [New] and [ParseProgram]. *)
Lemma parse_stages ParseInt ParseFloat fuel src :
  driver.parse ParseInt ParseFloat fuel src <> None ->
  exists p program p',
    New (lexer.New src) = Some p
    /\ ParseProgram ParseInt ParseFloat fuel p = Some (program, p').
Proof.
  unfold driver.parse. intros D.
  destruct (New (lexer.New src)) as [p|]; [|contradiction].
  destruct (ParseProgram ParseInt ParseFloat fuel p) as [[program p']|] eqn:E;
    [|contradiction].
  eauto.
Qed.

Lemma ParseProgram_stops_at_EOF_witness :
  exists p program p',
    New (lexer.New "1 add 2") = Some p
    /\ ParseProgram strconv.ParseInt strconv.ParseFloat_decimal 20 p
       = Some (program, p')
    /\ curTokenIs p' token.EOF = true.
Proof.
  destruct (parse_stages strconv.ParseInt strconv.ParseFloat_decimal 20
              "1 add 2" ltac:(vm_compute; discriminate))
    as (p & program & p' & E & E2).
  exists p, program, p'. split; [exact E|]. split; [exact E2|].
  exact (ParseProgram_stops_at_EOF strconv.ParseInt
           strconv.ParseFloat_decimal 20%nat p program p' E2).
Defined.

Lemma elseif_is_always_diagnosed_witness :
  exists p r p',
    New (lexer.New "x elseif y then z end") = Some p
    /\ elseifLoop (parseStatement strconv.ParseInt strconv.ParseFloat_decimal 5)
         (parseExpression strconv.ParseInt strconv.ParseFloat_decimal 5) 5 1
         [] p
       = Some (r, p')
    /\ (Errors p ++
        ["no prefix parse function for ELSEIF found at line "
         +:+ itoa (token.Line (peekToken p)) +:+ ", column "
         +:+ itoa (token.Column (peekToken p))])%list
       `prefix_of` Errors p'.
Proof.
  assert (D : match New (lexer.New "x elseif y then z end") with
              | Some p =>
                  elseifLoop
                    (parseStatement strconv.ParseInt strconv.ParseFloat_decimal 5)
                    (parseExpression strconv.ParseInt
                       strconv.ParseFloat_decimal 5) 5 1 [] p
              | None => None
              end <> None) by (vm_compute; discriminate).
  destruct (New (lexer.New "x elseif y then z end")) as [p|] eqn:E;
    [|contradiction].
  destruct (elseifLoop _ _ _ _ _ p) as [[r p']|] eqn:E2; [|contradiction].
  exists p, r, p'. split; [reflexivity|]. split; [exact E2|].
  apply (elseif_is_always_diagnosed strconv.ParseInt
           strconv.ParseFloat_decimal 5%nat 0%nat [] p r p'
           (New_registered _ _ E)); [|exact E2].
  vm_compute in E. inversion E. reflexivity.
Defined.


(** The form with one closing keyword is rejected. *)
Example while_with_one_endwhile_is_rejected :
  snd <$> driver.parse strconv.ParseInt strconv.ParseFloat_decimal 20
            "while true do x endwhile"
  = Some ["expected next token to be ENDWHILE, got EOF instead at line 1, column 26"].
Proof. vm_compute. reflexivity. Qed.

End ParserRuns.

(** ** The lexer at the end of the input *)

Section LexerEnd.
Import host lexer progress.

Lemma unread_readChar x :
  unread (readChar x) = pred (unread x).
Proof. unfold unread, readChar; cbn [input readPosition]. lia. Qed.

Lemma synced_readChar x : 0 <= readPosition x -> synced (readChar x).
Proof.
  intros H. split; [cbn; lia|].
  rewrite unread_readChar. intros U. apply readChar_past_end.
  unfold unread in U. lia.
Qed.

Lemma synced_scan cond pre fuel : forall x,
  (forall y, readPosition (pre y) = readPosition y) ->
  (forall y, input (pre y) = input y) ->
  synced x -> synced (scan cond pre fuel x).
Proof.
  induction fuel as [|n IH]; intros x Hr Hi S; cbn [scan].
  - destruct (cond (ch x)); exact S.
  - destruct (cond (ch x)); [|exact S].
    apply IH; [exact Hr|exact Hi|].
    apply synced_readChar. rewrite Hr. apply S.
Qed.

Lemma synced_skipWhitespace x : synced x -> synced (skipWhitespace x).
Proof.
  apply synced_scan; [apply bump_line_readPosition|apply bump_line_input].
Qed.

Lemma synced_readIdentifier x : synced x -> synced (snd (readIdentifier x)).
Proof. apply synced_scan; reflexivity. Qed.

Lemma synced_peekKeyword keyword x :
  synced x -> synced (snd (peekKeyword keyword x)).
Proof.
  destruct (peekKeyword_restores keyword x) as (I & _ & R & C & _).
  unfold synced, unread. rewrite I, R, C. auto.
Qed.

Lemma synced_multiWord ident x tok x' :
  multiWord ident x = Some (tok, x') -> synced x -> synced x'.
Proof.
  split_multiWord ident;
  step_multiWord synced_peekKeyword synced_readIdentifier;
  intros H; inversion H; subst; eauto 15.
Qed.

Lemma synced_NextToken_from : forall fuel x tok x',
  NextToken_from fuel x = Some (tok, x') -> synced x -> synced x'.
Proof.
  induction fuel as [|f IH]; intros x tok x' H S;
    apply synced_skipWhitespace in S; cbn [NextToken_from] in H;
    set (x1 := skipWhitespace x) in *; clearbody x1.
  all: destruct (Ascii.eqb (ch x1) NUL);
    [apply some_snd in H; subst; apply synced_readChar, S|].
  all: destruct (Ascii.eqb (ch x1) hash);
    [first [discriminate H
           |eapply IH; [exact H|];
            unfold readComment; cbn [snd]; apply synced_scan; auto]|].
  all: destruct (Ascii.eqb (ch x1) dquote);
    [unfold readString in H; apply some_snd in H; subst;
     apply synced_readChar;
     pose proof (scan_readPosition in_string no_pre (fun _ => eq_refl)
                   (scan_fuel (readChar x1)) (readChar x1));
     cbn [readChar readPosition] in *; destruct S; lia|].
  all: destruct (IsLetter (ch x1));
    [pose proof (synced_readIdentifier x1 S) as S2;
     destruct (readIdentifier x1) as [ident x2]; cbn [snd] in S2;
     destruct (multiWord ident x2) as [[tok0 x3]|] eqn:Em;
     [apply (synced_multiWord _ _ _ _ Em) in S2|];
     apply some_snd in H; subst; exact S2|].
  all: destruct (IsDigit (ch x1));
    [unfold readNumber in H; apply some_snd in H; subst;
     apply synced_scan; auto|].
  all: apply some_snd in H; subst; apply synced_readChar, S.
Qed.

(** Past the end of the input every token is EOF. *)
Lemma NextToken_past_end x tok x' :
  synced x -> unread x = 0%nat -> NextToken x = Some (tok, x') ->
  token.Type_ tok = token.EOF /\ unread x' = 0%nat.
Proof.
  intros [_ S] U H. specialize (S U).
  assert (E : skipWhitespace x = x).
  { unfold skipWhitespace, scan_fuel. cbn [scan]. rewrite S. reflexivity. }
  unfold NextToken in H. cbn [NextToken_from] in H. rewrite E, S in H.
  cbn in H. inversion H; subst. split; [reflexivity|].
  rewrite unread_readChar, U. reflexivity.
Qed.

Lemma synced_New src : synced (lexer.New src).
Proof. apply synced_readChar. cbn. lia. Qed.

(** X11.  Once the input is used up, the lexer answers EOF for ever. A lexer
    made by [New] is and stays in step with its input: whenever its read
    position is past the end, its current byte is NUL. From such a state
    [NextToken] returns an EOF token, and the read position is still past the
    end afterwards. *)
Theorem NextToken_answers_EOF_after_the_end :
  (forall src, synced (lexer.New src))
  /\ (forall x tok x',
        synced x -> NextToken x = Some (tok, x') ->
        synced x'
        /\ (unread x = 0%nat ->
            token.Type_ tok = token.EOF /\ unread x' = 0%nat)).
Proof.
  split; [exact synced_New|].
  intros x tok x' S H. split.
  - exact (synced_NextToken_from _ _ _ _ H S).
  - intros U. exact (NextToken_past_end _ _ _ S U H).
Qed.

End LexerEnd.

(** ** The parser: every method returns *)

Section ParserSteps.
Import host parser progress.

Lemma runs_ret {A : Type} (a : A) p (Q : A -> Parser -> Prop) :
  Q a p -> runs (ret a) p Q.
Proof. intros H. exists a, p. auto. Qed.

Lemma runs_bind {A B : Type} (m : P A) (k : A -> P B) p
    (Q1 : A -> Parser -> Prop) (Q : B -> Parser -> Prop) :
  runs m p Q1 -> (forall a p1, Q1 a p1 -> runs (k a) p1 Q) ->
  runs (m ≫= k) p Q.
Proof.
  intros (a & p1 & E & H1) Hk. destruct (Hk a p1 H1) as (b & p2 & E2 & H2).
  exists b, p2. split; [|exact H2].
  unfold mbind, P_bind, bind. rewrite E. exact E2.
Qed.

Lemma runs_get {B : Type} (k : Parser -> P B) p (Q : B -> Parser -> Prop) :
  runs (k p) p Q -> runs (get ≫= k) p Q.
Proof. intros H. exact H. Qed.

Lemma runs_assoc {A B C : Type} (m : P A) (f : A -> P B) (k : B -> P C) p
    (Q : C -> Parser -> Prop) :
  runs (m ≫= fun a => f a ≫= k) p Q -> runs ((m ≫= f) ≫= k) p Q.
Proof.
  intros (c & p' & E & H). exists c, p'. split; [|exact H].
  revert E. unfold mbind, P_bind, bind. destruct (m p) as [[a p1]|]; auto.
Qed.

Lemma runs_ret_bind {A B : Type} (a : A) (k : A -> P B) p
    (Q : B -> Parser -> Prop) :
  runs (k a) p Q -> runs (ret a ≫= k) p Q.
Proof. intros H. exact H. Qed.

Lemma runs_weaken {A : Type} (m : P A) p (Q Q' : A -> Parser -> Prop) :
  runs m p Q -> (forall a p', Q a p' -> Q' a p') -> runs m p Q'.
Proof. intros (a & p' & E & H) HQ. exists a, p'. auto. Qed.

Lemma within_le b c p : within b p -> (b <= c)%nat -> within c p.
Proof. intros [G H] L. split; [exact G|lia]. Qed.

Lemma live_cur p :
  curTokenIs p token.EOF = false -> (1 <= potential p)%nat.
Proof.
  unfold curTokenIs, potential, live. intros ->.
  destruct (unread (l p)); lia.
Qed.

Lemma live_peek p :
  peekTokenIs p token.EOF = false -> (1 <= potential p)%nat.
Proof.
  unfold peekTokenIs, potential, live. intros ->.
  destruct (unread (l p)); lia.
Qed.

(** [nextToken] lowers the potential, unless it is 0 already. *)
Lemma runs_nextToken b p :
  within b p -> runs nextToken p (fun _ p' => within (pred b) p').
Proof.
  intros [[R Sy] Hb]. pose proof Sy as [S0 _].
  destruct (NextToken_total (l p) S0) as [[tok x'] E].
  pose proof (synced_NextToken_from _ _ _ _ E Sy) as S'.
  pose proof (NextToken_from_keeps _ _ _ _ E) as (I & _ & Rp).
  exists tt. eexists. unfold nextToken. rewrite E. split; [reflexivity|].
  split; [split; [exact R|exact S']|].
  unfold potential in *. cbn [parser.l peekToken curToken].
  destruct (unread (l p)) as [|n] eqn:U.
  - destruct (NextToken_past_end _ _ _ Sy U E) as [T U'].
    rewrite U'. unfold live at 1. rewrite T. cbn.
    revert Hb. unfold live.
    destruct (String.eqb (token.Type_ (peekToken p)) _);
      destruct (String.eqb (token.Type_ (curToken p)) _); lia.
  - assert (L : (unread x' <= n)%nat)
      by (unfold unread in *; rewrite I; lia).
    destruct (unread x') as [|n'] eqn:U'.
    + revert Hb. unfold live. destruct (String.eqb (token.Type_ tok) _);
        destruct (String.eqb (token.Type_ (peekToken p)) _); lia.
    + lia.
Qed.

Lemma runs_addError b msg p :
  within b p -> runs (addError msg) p (fun _ p' => within b p').
Proof. intros W. exists tt. eexists. split; [reflexivity|exact W]. Qed.

Lemma runs_peekError b t p :
  within b p -> runs (peekError t) p (fun _ p' => within b p').
Proof. intros W. unfold peekError. apply runs_get, runs_addError, W. Qed.

Lemma runs_noPrefixParseFnError b t p :
  within b p -> runs (noPrefixParseFnError t) p (fun _ p' => within b p').
Proof.
  intros W. unfold noPrefixParseFnError. apply runs_get, runs_addError, W.
Qed.

(** [expectPeek] lowers the potential when it answers true. *)
Lemma runs_expectPeek b t p :
  within b p ->
  runs (expectPeek t) p
    (fun ok p' => within (if ok : bool then pred b else b) p').
Proof.
  intros W. unfold expectPeek. apply runs_get.
  destruct (peekTokenIs p t).
  - eapply runs_bind; [apply runs_nextToken; exact W|].
    intros [] p1 W1. apply runs_ret. exact W1.
  - eapply runs_bind; [apply runs_peekError; exact W|].
    intros [] p1 W1. apply runs_ret. exact W1.
Qed.

End ParserSteps.

Ltac close_run :=
  cbv beta in *;
  solve [ eapply within_le; [eassumption|lia] ].

Section ParserRuns.
Import host parser progress.

Variable ParseInt : string -> parsed Z.
Variable ParseFloat : string -> parsed float.
Variable parseStatement_ : P (option ast.Statement).
Variable parseExpression_ : Z -> P ast.Expression.
Variable fuel : nat.
Variable k : nat.

Hypothesis HS : forall p b,
  within b p -> (b < k)%nat ->
  runs parseStatement_ p (fun _ p' => within b p').
Hypothesis HE : forall prec p b,
  within b p -> (b < k)%nat ->
  runs (parseExpression_ prec) p (fun _ p' => within b p').
Hypothesis Hfuel : (k <= fuel)%nat.

(** One step of a method: the state after it is within a budget again. *)
Ltac step :=
  match goal with
  | |- runs (mbind _ get) _ _ => apply runs_get; cbv beta zeta
  | W : within ?b ?p |- runs (mbind _ nextToken) ?p _ =>
      eapply runs_bind; [exact (runs_nextToken b p W)|];
      let W' := fresh "W" in intros [] ? W'; cbv beta in W'
  | W : within ?b ?p |- runs (mbind _ (expectPeek ?t)) ?p _ =>
      eapply runs_bind; [exact (runs_expectPeek b t p W)|];
      let W' := fresh "W" in
      intros [|] ? W'; cbv beta iota in W'; cbn [negb]; cbv iota
  | W : within ?b ?p |- runs (mbind _ (parseExpression_ ?prec)) ?p _ =>
      eapply runs_bind; [apply (HE prec p b W); lia|];
      let W' := fresh "W" in intros ? ? W'; cbv beta in W'
  | W : within ?b ?p |- runs (mbind _ parseStatement_) ?p _ =>
      eapply runs_bind; [apply (HS p b W); lia|];
      let W' := fresh "W" in intros ? ? W'; cbv beta in W'
  | W : within ?b ?p |- runs (mbind _ (addError ?m)) ?p _ =>
      eapply runs_bind; [exact (runs_addError b m p W)|];
      let W' := fresh "W" in intros [] ? W'; cbv beta in W'
  | |- runs (mbind _ (mbind _ _)) _ _ => apply runs_assoc; cbv beta
  | |- runs (mbind _ (ret _)) _ _ => apply runs_ret_bind; cbv beta
  | |- runs (mbind _ (if ?c then _ else _)) _ _ => destruct c eqn:?
  | |- runs (if ?c then _ else _) _ _ => destruct c eqn:?
  | |- runs (match ?c with Some _ => _ | None => _ end) _ _ => destruct c
  | |- runs (ret _) _ _ => apply runs_ret; close_run
  end.

Ltac run := repeat step.

(** A sub-method that keeps the budget [c <= b]. *)
Ltac sub lemma :=
  match goal with
  | W : within ?c ?p |- runs (mbind _ _) ?p _ =>
      eapply runs_bind; [eapply lemma; [exact W|lia..]|];
      let W' := fresh "W" in intros ? ? W'; cbv beta in W'
  | W : within ?c ?p |- runs _ ?p _ =>
      eapply runs_weaken; [eapply lemma; [exact W|lia..]|];
      intros; close_run
  end.

Lemma runs_parseLetStatement b p :
  within b p -> (1 <= b <= k)%nat ->
  runs (parseLetStatement parseExpression_) p (fun _ p' => within b p').
Proof. intros W Hb. unfold parseLetStatement. run. Qed.

Lemma runs_parseReturnStatement b p :
  within b p -> (1 <= b <= k)%nat ->
  runs (parseReturnStatement parseExpression_) p (fun _ p' => within b p').
Proof. intros W Hb. unfold parseReturnStatement. run. Qed.

Lemma runs_parseIdentifier b p :
  within b p -> runs parseIdentifier p (fun _ p' => within b p').
Proof. intros W. unfold parseIdentifier. run. Qed.

Lemma runs_parseIntegerLiteral b p :
  within b p ->
  runs (parseIntegerLiteral ParseInt) p (fun _ p' => within b p').
Proof.
  intros W. unfold parseIntegerLiteral. run.
  destruct (ParseInt _); run.
Qed.

Lemma runs_parseFloatLiteral b p :
  within b p ->
  runs (parseFloatLiteral ParseFloat) p (fun _ p' => within b p').
Proof.
  intros W. unfold parseFloatLiteral. run.
  destruct (ParseFloat _); run.
Qed.

Lemma runs_parseStringLiteralStruct b p :
  within b p -> runs parseStringLiteralStruct p (fun _ p' => within b p').
Proof. intros W. unfold parseStringLiteralStruct. run. Qed.

Lemma runs_parseStringLiteral b p :
  within b p -> runs parseStringLiteral p (fun _ p' => within b p').
Proof.
  intros W. unfold parseStringLiteral.
  sub runs_parseStringLiteralStruct. run.
Qed.

Lemma runs_parseBoolean b p :
  within b p -> runs parseBoolean p (fun _ p' => within b p').
Proof. intros W. unfold parseBoolean. run. Qed.

Lemma runs_parsePrefixExpression b p :
  within b p -> (1 <= b <= k)%nat ->
  runs (parsePrefixExpression parseExpression_) p (fun _ p' => within b p').
Proof. intros W Hb. unfold parsePrefixExpression. run. Qed.

Lemma runs_parseGroupedExpression b p :
  within b p -> (1 <= b <= k)%nat ->
  runs (parseGroupedExpression parseExpression_) p (fun _ p' => within b p').
Proof.
  intros W Hb. unfold parseGroupedExpression. run.
  eapply runs_weaken; [apply (HE _ _ _ W0); lia|]. intros; close_run.
Qed.

Lemma blockEnds_live p :
  blockEnds p = false -> (1 <= potential p)%nat.
Proof.
  unfold blockEnds. intros H. apply live_cur.
  destruct (curTokenIs p token.EOF); [|reflexivity].
  rewrite !orb_true_r in H. discriminate.
Qed.

Lemma peek_live p t :
  peekTokenIs p t = true -> String.eqb t token.EOF = false ->
  (1 <= potential p)%nat.
Proof.
  unfold peekTokenIs. intros H Ht. apply String.eqb_eq in H.
  apply live_peek. unfold peekTokenIs. rewrite H. exact Ht.
Qed.

Lemma startsArgument_live p :
  startsArgument p = true -> (1 <= potential p)%nat.
Proof.
  unfold startsArgument. intros H.
  repeat (apply orb_true_iff in H as [H|H]);
    (eapply peek_live; [exact H|reflexivity]).
Qed.

Lemma cur_live p t :
  curTokenIs p t = true -> String.eqb t token.EOF = false ->
  (1 <= potential p)%nat.
Proof.
  unfold curTokenIs. intros H Ht. apply String.eqb_eq in H.
  apply live_cur. unfold curTokenIs. rewrite H. exact Ht.
Qed.

Lemma runs_blockLoop n : forall b p acc,
  within b p -> (b <= n)%nat -> (b <= pred k)%nat ->
  runs (blockLoop parseStatement_ n acc) p (fun _ p' => within b p').
Proof.
  induction n as [|n IH]; intros b p acc W Hn Hk; cbn [blockLoop];
    apply runs_get; destruct (blockEnds p) eqn:Eb; try (run; fail);
    pose proof (blockEnds_live p Eb); pose proof (proj2 W).
  - lia.
  - run. eapply runs_weaken; [apply (IH _ _ _ W1); lia|]. intros; close_run.
Qed.

Lemma runs_parseBlockStatement b p :
  within b p -> (b <= k)%nat ->
  runs (parseBlockStatement parseStatement_ fuel) p
    (fun _ p' => within b p').
Proof.
  intros W Hb. unfold parseBlockStatement. run.
  sub runs_blockLoop. run.
Qed.

Lemma runs_elseifLoop n : forall b p acc,
  within b p -> (b <= n)%nat -> (b <= k)%nat ->
  runs (elseifLoop parseStatement_ parseExpression_ fuel n acc) p
    (fun _ p' => within b p').
Proof.
  induction n as [|n IH]; intros b p acc W Hn Hk; cbn [elseifLoop];
    apply runs_get; destruct (peekTokenIs p token.ELSEIF) eqn:Ep;
    try (run; fail);
    pose proof (peek_live p _ Ep eq_refl); pose proof (proj2 W).
  - lia.
  - run. sub runs_parseBlockStatement.
    eapply runs_weaken; [apply (IH _ _ _ W3); lia|]. intros; close_run.
Qed.

Lemma runs_parseIfStatement b p :
  within b p -> (1 <= b <= k)%nat ->
  runs (parseIfStatement parseStatement_ parseExpression_ fuel) p
    (fun _ p' => within b p').
Proof.
  intros W Hb. unfold parseIfStatement. run.
  sub runs_parseBlockStatement. sub runs_elseifLoop. run.
  sub runs_parseBlockStatement. run.
Qed.

Lemma runs_parseWhileStatement b p :
  within b p -> (1 <= b <= k)%nat ->
  runs (parseWhileStatement parseStatement_ parseExpression_ fuel) p
    (fun _ p' => within b p').
Proof.
  intros W Hb. unfold parseWhileStatement. run.
  sub runs_parseBlockStatement. run.
Qed.

Lemma runs_parseForEachStatement b p :
  within b p -> (1 <= b <= k)%nat ->
  runs (parseForEachStatement parseStatement_ parseExpression_ fuel) p
    (fun _ p' => within b p').
Proof.
  intros W Hb. unfold parseForEachStatement. run.
  sub runs_parseBlockStatement. run.
Qed.

Lemma runs_paramLoop n : forall b p acc,
  within b p -> (b <= n)%nat ->
  runs (paramLoop n acc) p (fun _ p' => within b p').
Proof.
  induction n as [|n IH]; intros b p acc W Hn; cbn [paramLoop];
    apply runs_get; destruct (peekTokenIs p token.IDENT) eqn:Ep;
    try (run; fail);
    pose proof (peek_live p _ Ep eq_refl); pose proof (proj2 W).
  - lia.
  - run. eapply runs_weaken; [apply (IH _ _ _ W0); lia|]. intros; close_run.
Qed.

Lemma runs_parseFunctionParameters b p :
  within b p -> (b <= k)%nat ->
  runs (parseFunctionParameters fuel) p (fun _ p' => within b p').
Proof.
  intros W Hb. unfold parseFunctionParameters. run.
  sub runs_paramLoop.
Qed.

Lemma runs_parseFunctionStatement b p :
  within b p -> (1 <= b <= k)%nat ->
  runs (parseFunctionStatement parseStatement_ fuel) p
    (fun _ p' => within b p').
Proof.
  intros W Hb. unfold parseFunctionStatement. run.
  - sub runs_parseFunctionParameters. sub runs_parseBlockStatement. run.
  - sub runs_parseBlockStatement. run.
Qed.

Lemma runs_argLoop n : forall b p acc,
  within b p -> (b <= n)%nat -> (b <= k)%nat ->
  runs (argLoop parseExpression_ n acc) p (fun _ p' => within b p').
Proof.
  induction n as [|n IH]; intros b p acc W Hn Hk; cbn [argLoop];
    apply runs_get; destruct (startsArgument p) eqn:Ep;
    try (run; fail);
    pose proof (startsArgument_live p Ep); pose proof (proj2 W).
  - lia.
  - run. eapply runs_weaken; [apply (IH _ _ _ W1); lia|]. intros; close_run.
Qed.

Lemma runs_parseListLiteral b p :
  within b p -> (1 <= b <= k)%nat ->
  runs (parseListLiteral parseExpression_ fuel) p (fun _ p' => within b p').
Proof.
  intros W Hb. unfold parseListLiteral. run.
  sub runs_argLoop. run.
Qed.

Lemma runs_parsePrintStatement b p :
  within b p -> (1 <= b <= k)%nat ->
  runs (parsePrintStatement parseExpression_) p (fun _ p' => within b p').
Proof. intros W Hb. unfold parsePrintStatement. run. Qed.

Lemma runs_parseInputStatement b p :
  within b p ->
  runs parseInputStatement p (fun _ p' => within b p').
Proof.
  intros W. unfold parseInputStatement. run.
  sub runs_parseStringLiteralStruct. run.
Qed.

Lemma runs_parseIsDefinedExpression b p :
  within b p ->
  runs parseIsDefinedExpression p (fun _ p' => within b p').
Proof. intros W. unfold parseIsDefinedExpression. run. Qed.

Lemma runs_parseExitStatement b p :
  within b p -> (1 <= b <= k)%nat ->
  runs (parseExitStatement parseExpression_) p (fun _ p' => within b p').
Proof. intros W Hb. unfold parseExitStatement. run. Qed.

Lemma runs_parseConvertToNumberExpression b p :
  within b p -> (1 <= b <= k)%nat ->
  runs (parseConvertToNumberExpression parseExpression_) p
    (fun _ p' => within b p').
Proof. intros W Hb. unfold parseConvertToNumberExpression. run. Qed.

Lemma runs_parseConvertToStringExpression b p :
  within b p -> (1 <= b <= k)%nat ->
  runs (parseConvertToStringExpression parseExpression_) p
    (fun _ p' => within b p').
Proof. intros W Hb. unfold parseConvertToStringExpression. run. Qed.

Lemma runs_parseGetItemAtIndexPrefix b p :
  within b p -> (1 <= b <= k)%nat ->
  runs (parseGetItemAtIndexPrefix parseExpression_) p
    (fun _ p' => within b p').
Proof. intros W Hb. unfold parseGetItemAtIndexPrefix. run. Qed.

Lemma runs_callPrefix fn b p :
  within b p -> (1 <= b <= k)%nat ->
  runs (callPrefix ParseInt ParseFloat parseStatement_ parseExpression_ fuel fn)
    p (fun _ p' => within b p').
Proof.
  intros W Hb. destruct fn; cbn [callPrefix];
    eauto using runs_parseIdentifier, runs_parseIntegerLiteral,
      runs_parseFloatLiteral, runs_parseStringLiteral, runs_parseBoolean,
      runs_parsePrefixExpression, runs_parseGroupedExpression,
      runs_parseFunctionStatement, runs_parseListLiteral,
      runs_parseGetItemAtIndexPrefix, runs_parseIsDefinedExpression,
      runs_parseConvertToNumberExpression,
      runs_parseConvertToStringExpression.
Qed.

Lemma runs_callStatement fn b p :
  within b p -> (1 <= b <= k)%nat ->
  runs (callStatement parseStatement_ parseExpression_ fuel fn) p
    (fun _ p' => within b p').
Proof.
  intros W Hb. destruct fn; cbn [callStatement];
    eauto using runs_parseLetStatement, runs_parseIfStatement,
      runs_parsePrintStatement, runs_parseWhileStatement,
      runs_parseForEachStatement, runs_parseReturnStatement,
      runs_parseExitStatement, runs_parseInputStatement.
Qed.

Lemma prefixTable_EOF : prefixTable !! token.EOF = None.
Proof. vm_compute. reflexivity. Qed.

Lemma statementTable_EOF : statementTable !! token.EOF = None.
Proof. vm_compute. reflexivity. Qed.

Lemma runs_parseExpression_body prec b p :
  within b p -> (b <= k)%nat ->
  runs (parseExpression_body ParseInt ParseFloat parseStatement_
          parseExpression_ fuel prec) p (fun _ p' => within b p').
Proof.
  intros W Hb. unfold parseExpression_body. apply runs_get.
  destruct W as [[R Sy] Hp]. pose proof R as (Rp & _ & _). rewrite Rp.
  destruct (prefixTable !! token.Type_ (curToken p)) as [fn|] eqn:E.
  - assert (L : (1 <= potential p)%nat).
    { apply live_cur. unfold curTokenIs.
      destruct (String.eqb (token.Type_ (curToken p)) token.EOF) eqn:Ee;
        [|reflexivity].
      apply String.eqb_eq in Ee. rewrite Ee, prefixTable_EOF in E.
      discriminate. }
    eapply runs_bind;
      [apply (runs_callPrefix fn b p); [split; [split|]; assumption|lia]|].
    intros e p1 W1. apply runs_ret. exact W1.
  - eapply runs_bind;
      [apply (runs_noPrefixParseFnError b); split; [split|]; assumption|].
    intros [] p1 W1. apply runs_ret. exact W1.
Qed.

Lemma runs_parseStatement_body b p :
  (forall prec q c,
     within c q -> (c <= k)%nat ->
     runs (parseExpression_ prec) q (fun _ p' => within c p')) ->
  within b p -> (b <= k)%nat ->
  runs (parseStatement_body parseStatement_ parseExpression_ fuel) p
    (fun _ p' => within b p').
Proof.
  intros HE' W Hb. unfold parseStatement_body. apply runs_get.
  pose proof W as [[R Sy] Hp]. pose proof R as (_ & _ & Rs). rewrite Rs.
  destruct (statementTable !! token.Type_ (curToken p)) as [fn|] eqn:E.
  - assert (L : (1 <= potential p)%nat).
    { apply live_cur. unfold curTokenIs.
      destruct (String.eqb (token.Type_ (curToken p)) token.EOF) eqn:Ee;
        [|reflexivity].
      apply String.eqb_eq in Ee. rewrite Ee, statementTable_EOF in E.
      discriminate. }
    apply runs_callStatement; [exact W|lia].
  - unfold parseExpressionStatement. apply runs_assoc. apply runs_get.
    apply runs_assoc.
    eapply runs_bind; [apply (HE' _ _ _ W Hb)|].
    intros e p1 W1. cbv beta in W1. apply runs_ret. exact W1.
Qed.

End ParserRuns.

Section ParserTermination.
Import host parser progress.

Variable ParseInt : string -> parsed Z.
Variable ParseFloat : string -> parsed float.

(** With fuel for twice the potential, [parseExpression] and
    [parseStatement] return. *)
Lemma parse_runs k :
  (forall fuel prec p b,
     (2 * k + 1 <= fuel)%nat -> within b p -> (b <= k)%nat ->
     runs (parseExpression ParseInt ParseFloat fuel prec) p
       (fun _ p' => within b p'))
  /\ (forall fuel p b,
        (2 * k + 2 <= fuel)%nat -> within b p -> (b <= k)%nat ->
        runs (parseStatement ParseInt ParseFloat fuel) p
          (fun _ p' => within b p')).
Proof.
  induction k as [|j [IHe IHs]].
  - assert (TE : forall fuel prec p b,
              (1 <= fuel)%nat -> within b p -> (b <= 0)%nat ->
              runs (parseExpression ParseInt ParseFloat fuel prec) p
                (fun _ p' => within b p')).
    { intros [|f] prec p b Hf W Hb; [lia|]. cbn [parseExpression].
      apply (runs_parseExpression_body ParseInt ParseFloat _ _ f 0%nat);
        [intros; lia|intros; lia|lia|exact W|exact Hb]. }
    split; [intros; apply TE; [lia|assumption|assumption]|].
    intros [|f] p b Hf W Hb; [lia|]. cbn [parseStatement].
    apply (runs_parseStatement_body _ _ f 0%nat);
      [intros; lia|intros; lia|lia| |exact W|exact Hb].
    intros prec q c Wq Hc. apply TE; [lia|exact Wq|exact Hc].
  - assert (TE : forall fuel prec p b,
              (2 * S j + 1 <= fuel)%nat -> within b p -> (b <= S j)%nat ->
              runs (parseExpression ParseInt ParseFloat fuel prec) p
                (fun _ p' => within b p')).
    { intros [|f] prec p b Hf W Hb; [lia|]. cbn [parseExpression].
      apply (runs_parseExpression_body ParseInt ParseFloat _ _ f (S j));
        [ intros q c Wq Hc; apply IHs; [lia|exact Wq|lia]
        | intros prec' q c Wq Hc; apply IHe; [lia|exact Wq|lia]
        | lia | exact W | exact Hb ]. }
    split; [exact TE|].
    intros [|f] p b Hf W Hb; [lia|]. cbn [parseStatement].
    apply (runs_parseStatement_body _ _ f (S j));
      [ intros q c Wq Hc; apply IHs; [lia|exact Wq|lia]
      | intros prec' q c Wq Hc; apply IHe; [lia|exact Wq|lia]
      | lia | | exact W | exact Hb ].
    intros prec q c Wq Hc. apply TE; [lia|exact Wq|exact Hc].
Qed.

Lemma runs_programLoop fuel n : forall b p acc,
  within b p -> (b <= n)%nat -> (2 * b + 2 <= fuel)%nat ->
  runs (programLoop ParseInt ParseFloat fuel n acc) p
    (fun _ p' => within b p').
Proof.
  induction n as [|n IH]; intros b p acc W Hn Hf; cbn [programLoop];
    apply runs_get; destruct (curTokenIs p token.EOF) eqn:Ec;
    try (apply runs_ret; exact W);
    pose proof (live_cur p Ec); pose proof (proj2 W); [lia|].
  eapply runs_bind;
    [apply (proj2 (parse_runs b) fuel p b); [lia|exact W|lia]|].
  intros stmt p1 W1. cbv beta in W1.
  eapply runs_bind; [exact (runs_nextToken b p1 W1)|].
  intros [] p2 W2. cbv beta in W2.
  eapply runs_weaken; [apply (IH _ _ _ W2); lia|].
  intros a p' W'. cbv beta in W'. eapply within_le; [exact W'|lia].
Qed.

Lemma runs_ParseProgram fuel b p :
  within b p -> (2 * b + 2 <= fuel)%nat ->
  runs (ParseProgram ParseInt ParseFloat fuel) p (fun _ p' => within b p').
Proof.
  intros W Hf. unfold ParseProgram.
  eapply runs_bind; [apply (runs_programLoop fuel fuel b); [exact W|lia|lia]|].
  intros ss p1 W1. apply runs_ret. exact W1.
Qed.

Lemma live_le t : (live t <= 1)%nat.
Proof. unfold live. destruct (String.eqb _ _); lia. Qed.

(** The parser that [New] makes for a source text of [n] bytes. *)
Lemma runs_New src :
  exists p, New (lexer.New src) = Some p
            /\ within (String.length src + 3) p.
Proof.
  unfold New.
  set (p0 := registerParseFunctions _).
  assert (W0 : within (String.length src + 3) p0).
  { split; [split|].
    - apply registerParseFunctions_registered. reflexivity.
    - apply synced_New.
    - unfold potential. change (l p0) with (lexer.New src).
      assert (U : (unread (lexer.New src) <= String.length src)%nat).
      { unfold lexer.New. rewrite unread_readChar. unfold unread, len.
        cbn [lexer.input lexer.readPosition]. lia. }
      pose proof (live_le (peekToken p0)). pose proof (live_le (curToken p0)).
      destruct (unread (lexer.New src)); lia. }
  clearbody p0.
  destruct (runs_nextToken _ _ W0) as ([] & p1 & E1 & W1).
  destruct (runs_nextToken _ _ W1) as ([] & p2 & E2 & W2).
  exists p2. unfold mbind, P_bind, bind. rewrite E1, E2.
  split; [reflexivity|]. eapply within_le; [exact W2|lia].
Qed.

(** X12.  The parser terminates on every source text: with fuel for [enough
    (len text)] nested calls and loop iterations, twice the length of the text
    and 8, [New] and [ParseProgram] return, and so [runFile] gets through the
    parser. *)
Theorem parser_returns_on_every_text fuel src input :
  (enough (String.length src) <= fuel)%nat ->
  (exists program errs,
     driver.parse ParseInt ParseFloat fuel src = Some (program, errs))
  /\ is_Some (driver.runFile ParseInt ParseFloat fuel src input).
Proof.
  intros Hf. unfold enough in Hf.
  assert (H : exists program errs,
            driver.parse ParseInt ParseFloat fuel src = Some (program, errs)).
  { unfold driver.parse. destruct (runs_New src) as (p & -> & W).
    destruct (runs_ParseProgram fuel _ p W ltac:(lia))
      as (program & p' & -> & _).
    eauto. }
  split; [exact H|]. destruct H as (program & errs & H).
  unfold driver.runFile. rewrite H. destruct errs; eauto.
Qed.

End ParserTermination.

Section TerminationRuns.
Import host.

Lemma parser_returns_on_every_text_witness :
  (exists program errs,
     driver.parse strconv.ParseInt strconv.ParseFloat_decimal 44
       "while x do print x" = Some (program, errs))
  /\ is_Some (driver.runFile strconv.ParseInt strconv.ParseFloat_decimal 44
                "while x do print x" []).
Proof.
  apply (parser_returns_on_every_text strconv.ParseInt
           strconv.ParseFloat_decimal 44 "while x do print x" []).
  unfold progress.enough. cbn. lia.
Defined.

End TerminationRuns.

(** ** The text of a complete tree *)

Section AstText.
Import ast ast_String shape induction.

Lemma cat_is_Some a b : is_Some a -> is_Some b -> is_Some (cat a b).
Proof. intros [x ->] [y ->]. simpl. eauto. Qed.

Lemma concat_is_Some parts : is_Some parts -> is_Some (concat parts).
Proof. intros [x ->]. simpl. eauto. Qed.

Lemma each_is_Some {A : Type} (c : A -> bool) (f : A -> option string) xs :
  Forall (fun x => c x = true -> is_Some (f x)) xs ->
  forallb c xs = true -> is_Some (each f xs).
Proof.
  induction 1 as [|x rest Hx _ IH]; simpl; [eauto|].
  intros H. apply andb_true_iff in H as [H1 H2].
  destruct (Hx H1) as [s ->]. destruct (IH H2) as [ss ->]. eauto.
Qed.

#[local] Hint Resolve cat_is_Some concat_is_Some : core.

Ltac parts :=
  repeat match goal with
         | H : _ && _ = true |- _ => apply andb_true_iff in H as [? ?]
         end;
  repeat first [ apply cat_is_Some | apply concat_is_Some
               | solve [eauto] ].

Lemma complete_has_text :
  (forall e, complete_expr e = true -> is_Some (Expression_String e))
  /\ (forall s, complete_stmt s = true -> is_Some (Statement_String s))
  /\ (forall b, complete_block b = true -> is_Some (BlockStatement_String b))
  /\ (forall i, complete_elseif i = true -> is_Some (ElseIfBlock_String i)).
Proof.
  apply ast_mutind; cbn [complete_expr complete_stmt complete_block
                         complete_elseif Expression_String Statement_String
                         BlockStatement_String ElseIfBlock_String];
    intros; try discriminate; try solve [eauto]; try solve [parts].
  - (* call *)
    match goal with
    | H : _ && _ = true |- _ => apply andb_true_iff in H as [Hf Ha]
    end.
    match goal with
    | H : Forall _ args |- _ => destruct (each_is_Some _ _ _ H Ha) as [ss ->]
    end.
    parts.
  - (* list *)
    match goal with
    | H : Forall _ es, E : forallb _ es = true |- _ =>
        destruct (each_is_Some _ _ _ H E) as [ss ->]
    end.
    eauto.
  - (* expression statement *)
    destruct e; try discriminate; eauto.
  - (* if *)
    repeat match goal with
           | H : _ && _ = true |- _ => apply andb_true_iff in H as [? ?]
           end.
    repeat first [apply cat_is_Some | apply concat_is_Some | solve [eauto]].
    + eapply each_is_Some; eassumption.
    + destruct els; [|eauto]. parts.
  - (* input *)
    destruct p; eauto.
  - (* exit *)
    destruct c; try discriminate; eauto; parts.
  - (* block *)
    parts. eapply (each_is_Some complete_stmt); [|eassumption].
    eapply Forall_impl; [eassumption|]. cbv beta. intros; parts.
Qed.

Lemma complete_program_has_text program :
  complete_program program = true -> is_Some (Program_String program).
Proof.
  unfold complete_program, Program_String. intros H.
  apply concat_is_Some. eapply (each_is_Some complete_stmt); [|exact H].
  apply Forall_forall. intros s _. apply complete_has_text.
Qed.

(** X13.  The text that [runFile] prints of a program before evaluating it
    exists: when a source text is parsed without diagnostics, [String()] of
    the program meets no nil node and so cannot panic. More generally every
    complete tree has a text. *)
Theorem parsed_program_has_text ParseInt ParseFloat fuel src program :
  driver.parse ParseInt ParseFloat fuel src = Some (program, []) ->
  is_Some (Program_String program).
Proof.
  intros H. apply complete_program_has_text.
  eapply parse_complete. exact H.
Qed.

Lemma parsed_program_has_text_witness :
  exists program,
    driver.parse strconv.ParseInt strconv.ParseFloat_decimal 20
      "let x be 5 if x then x end endif"
    = Some (program, [])
    /\ Program_String program
       = Some ("let x be 5if x then {" +:+ String host.newline ""
               +:+ "  x" +:+ String host.newline "" +:+ "}"
               +:+ String host.newline "" +:+ " endif")
    /\ is_Some (Program_String program).
Proof.
  eexists. split; [vm_compute; reflexivity|].
  split; [vm_compute; reflexivity|].
  eapply (parsed_program_has_text strconv.ParseInt strconv.ParseFloat_decimal
            20%nat "let x be 5 if x then x end endif").
  vm_compute. reflexivity.
Defined.

End AstText.

Create HintDb safedb.

(** ** The evaluator: no panic, and what is kept *)

Section SafeTriples.
Import host object interpreter safety induction.

Variable loops : bool.
Variable panics : bool.

Lemma grows_refl t st : grows t st st.
Proof. split; [lia|]. split; [auto|]. split; reflexivity. Qed.

Lemma grows_trans t st1 st2 st3 :
  grows t st1 st2 -> grows t st2 st3 -> grows t st1 st3.
Proof.
  intros (L1 & F1 & O1 & I1) (L2 & F2 & O2 & I2).
  split; [lia|]. split; [|split; etrans; eassumption].
  intros e He Ht. rewrite F2 by (try lia; assumption). apply F1; assumption.
Qed.

Lemma grows_None t st st' : grows None st st' -> grows t st st'.
Proof.
  intros (L & F & OI). split; [exact L|]. split; [|exact OI].
  intros e He _. apply F; [exact He|discriminate].
Qed.

(** Frames allocated in between may change freely. *)
Lemma grows_new t c st1 st2 st3 :
  grows t st1 st2 -> grows (Some c) st2 st3 ->
  (length (envs st1) <= c)%nat -> grows t st1 st3.
Proof.
  intros (L1 & F1 & O1 & I1) (L2 & F2 & O2 & I2) Hc.
  split; [lia|]. split; [|split; etrans; eassumption].
  intros e He Ht. rewrite F2; [apply F1; assumption|lia|].
  intros E. inversion E. lia.
Qed.

Lemma safe_ret {A : Type} t env (Q : A -> Prop) (a : A) :
  Q a -> safe loops panics t env Q (ret a).
Proof. intros HQ st Hi He. cbn. auto using grows_refl. Qed.

Lemma safe_bind {A B : Type} t env (Q1 : A -> Prop) (Q2 : B -> Prop)
    (m : M A) (k : A -> M B) :
  safe loops panics t env Q1 m -> (forall a, Q1 a -> safe loops panics t env Q2 (k a)) ->
  safe loops panics t env Q2 (m ≫= k).
Proof.
  intros Hm Hk st Hi He. unfold mbind, M_bind, bind.
  specialize (Hm st Hi He).
  destruct (m st) as [a st1|msg|code st1|]; try exact Hm.
  destruct Hm as (Ha & Hi1 & G1).
  assert (He1 : (env < length (envs st1))%nat) by (destruct G1; lia).
  specialize (Hk a Ha st1 Hi1 He1).
  destruct (k a st1) as [b st2|msg|code st2|]; try exact Hk.
  destruct Hk as (Hb & Hi2 & G2). eauto using grows_trans.
Qed.

Lemma safe_weaken {A : Type} t env (Q Q' : A -> Prop) (m : M A) :
  safe loops panics t env Q m -> (forall a, Q a -> Q' a) -> safe loops panics t env Q' m.
Proof.
  intros H HQ st Hi He. specialize (H st Hi He).
  destruct (m st); try exact H. destruct H as (? & ? & ?). auto.
Qed.

Lemma safe_touch {A : Type} t env (Q : A -> Prop) (m : M A) :
  safe loops panics None env Q m -> safe loops panics t env Q m.
Proof.
  intros H st Hi He. specialize (H st Hi He).
  destruct (m st); try exact H. destruct H as (? & ? & ?).
  auto using grows_None.
Qed.

Lemma safe_panic {A : Type} t env (Q : A -> Prop) msg :
  panics = true -> safe loops panics t env Q (panic msg).
Proof. intros H st _ _. exact H. Qed.

Lemma safe_os_Exit {A : Type} t env (Q : A -> Prop) code :
  safe loops panics t env Q (os_Exit code).
Proof. intros st _ _. exact I. Qed.

Lemma inv_alloc st n out inp :
  inv st -> inv (mkState (envs st) n out inp).
Proof. intros [Hs L]. split; intros ? ?; cbn [envs]; eauto. Qed.

Lemma grows_same t st n : grows t st (mkState (envs st) n (stdout st) (stdin st)).
Proof. split; [cbn; lia|]. split; [auto|]. split; reflexivity. Qed.

Lemma grows_Print t st s :
  grows t st (mkState (envs st) (next st) (stdout st ++ [s]) (stdin st)).
Proof.
  split; [cbn; lia|]. split; [auto|]. split; [|reflexivity].
  exists [s]. reflexivity.
Qed.

Lemma grows_Scanln t st w rest :
  stdin st = w :: rest ->
  grows t st (mkState (envs st) (next st) (stdout st) rest).
Proof.
  intros E. split; [cbn; lia|]. split; [auto|]. split; [reflexivity|].
  exists [w]. rewrite E. reflexivity.
Qed.

Lemma safe_alloc t env (Q : Object -> Prop) mk :
  (forall a, Q (mk a)) -> safe loops panics t env Q (alloc mk).
Proof.
  intros HQ st Hi He. cbn. auto using inv_alloc, grows_same.
Qed.

Lemma safe_NewError t env msg :
  safe loops panics t env (fun v => value_ok v = true) (NewError msg).
Proof. apply safe_alloc. reflexivity. Qed.

Lemma safe_newInteger t env v :
  safe loops panics t env (fun v => value_ok v = true) (newInteger v).
Proof. apply safe_alloc. reflexivity. Qed.

Lemma safe_newFloat t env v :
  safe loops panics t env (fun v => value_ok v = true) (newFloat v).
Proof. apply safe_alloc. reflexivity. Qed.

Lemma safe_newString t env v :
  safe loops panics t env (fun v => value_ok v = true) (newString v).
Proof. apply safe_alloc. reflexivity. Qed.

Lemma safe_Print t env s : safe loops panics t env (fun _ => True) (Print s).
Proof. intros st Hi He. cbn. auto using inv_alloc, grows_Print. Qed.

Lemma safe_Println t env s : safe loops panics t env (fun _ => True) (Println s).
Proof. apply safe_Print. Qed.

Lemma safe_Scanln t env : safe loops panics t env (fun _ => True) Scanln.
Proof.
  intros st Hi He. unfold Scanln.
  destruct (stdin st) eqn:E; cbn;
    eauto using inv_alloc, grows_Scanln, grows_refl.
Qed.

Lemma Get_from_S n e name st :
  Get_from (S n) e name st =
  match envs st !! e with
  | None => Panic nil_dereference
  | Some frame =>
      match store frame !! name with
      | Some obj => Done (obj, true) st
      | None =>
          match outer frame with
          | None => Done (nil, false) st
          | Some o => Get_from n o name st
          end
      end
  end.
Proof. reflexivity. Qed.

(** The chain of enclosing frames ends before the fuel of [Get] does. *)
Lemma Get_from_total st name : inv st -> forall fuel (e : envptr),
  (e < fuel)%nat -> (e < length (envs st))%nat ->
  exists v ok, Get_from fuel e name st = Done (v, ok) st
               /\ (ok = true -> storable v = true).
Proof.
  intros [Hs L]. induction fuel as [|n IH]; intros e Hf He; [lia|].
  rewrite Get_from_S.
  destruct (envs st !! e) as [frame|] eqn:Ef.
  2:{ apply lookup_ge_None in Ef. lia. }
  destruct (store frame !! name) as [obj|] eqn:Eo.
  - exists obj, true. split; [reflexivity|]. intros _. eapply Hs; eauto.
  - destruct (outer frame) as [o|] eqn:Eout.
    + pose proof (L _ _ _ Ef Eout). apply IH; lia.
    + exists nil, false. split; [reflexivity|discriminate].
Qed.

Lemma safe_Get t env name :
  safe loops panics t env (fun r => snd r = true -> storable (fst r) = true)
    (Get env name).
Proof.
  intros st Hi He. unfold Get.
  destruct (Get_from_total st name Hi (length (envs st)) env He He)
    as (v & ok & -> & H).
  auto using grows_refl.
Qed.

Lemma safe_Set_ env name val :
  storable val = true ->
  safe loops panics (Some env) env (fun _ => True) (Set_ env name val).
Proof.
  intros Hv st [Hs L] He. unfold Set_.
  destruct (envs st !! env) as [frame|] eqn:Ef.
  2:{ apply lookup_ge_None in Ef. lia. }
  split; [exact I|]. split; [split|].
  - intros e' frame' name' v' He' Hv'. cbn [envs] in He'.
    destruct (decide (env = e')) as [<-|Hne].
    + rewrite list_lookup_insert_eq in He' by exact He.
      inversion He'; subst. cbn [store] in Hv'.
      destruct (decide (name = name')) as [->|Hn].
      * rewrite lookup_insert_eq in Hv'. inversion Hv'; subst. exact Hv.
      * rewrite lookup_insert_ne in Hv' by assumption. eapply Hs; eauto.
    + rewrite list_lookup_insert_ne in He' by assumption. eapply Hs; eauto.
  - intros e' frame' o He' Ho. cbn [envs] in He'.
    destruct (decide (env = e')) as [<-|Hne].
    + rewrite list_lookup_insert_eq in He' by exact He.
      inversion He'; subst. cbn [outer] in Ho. eapply L; eauto.
    + rewrite list_lookup_insert_ne in He' by assumption. eapply L; eauto.
  - split; cbn [envs]; [rewrite length_insert; lia|].
    split; [|split; reflexivity].
    intros e' He' Ht. apply list_lookup_insert_ne.
    intros E. apply Ht. rewrite E. reflexivity.
Qed.

Lemma value_ok_Inspect o : value_ok o = true -> is_Some (Inspect o).
Proof.
  induction o as [| | | | | | | |p elems IHelems] using Object_all; simpl;
    intros Hv; try discriminate; eauto.
  assert (A : is_Some
                ((fix all (es : list Object) : option (list string) :=
                    match es with
                    | [] => Some []
                    | e :: rest =>
                        match Inspect e, all rest with
                        | Some x, Some xs => Some (x :: xs)
                        | _, _ => None
                        end
                    end) elems)).
  { induction IHelems as [|x rest Hx _ IH]; [eauto|].
    simpl in Hv. apply andb_true_iff in Hv as [H1 H2].
    apply andb_true_iff in H1 as [H1 _].
    destruct (Hx H1) as [s ->]. destruct (IH H2) as [ss ->]. eauto. }
  destruct A as [ss ->]. eauto.
Qed.

Lemma value_ok_Type o : value_ok o = true -> is_Some (Type_ o).
Proof. destruct o; simpl; intros H; try discriminate; eauto. Qed.

Lemma safe_TypeOf t env o :
  value_ok o = true -> safe loops panics t env (fun _ => True) (TypeOf o).
Proof.
  intros H. unfold TypeOf. destruct (value_ok_Type o H) as [ty ->].
  apply safe_ret. exact I.
Qed.

Lemma safe_InspectOf t env o :
  value_ok o = true -> safe loops panics t env (fun _ => True) (InspectOf o).
Proof.
  intros H. unfold InspectOf. destruct (value_ok_Inspect o H) as [s ->].
  apply safe_ret. exact I.
Qed.

Lemma value_ok_nativeBool b : value_ok (nativeBoolToBooleanObject b) = true.
Proof. destruct b; reflexivity. Qed.

Lemma value_ok_evalNot o : value_ok (evalNotOperatorExpression o) = true.
Proof.
  unfold evalNotOperatorExpression.
  destruct (same o TRUE), (same o FALSE), (same o NULL); reflexivity.
Qed.

Lemma value_ok_result o : value_ok o = true -> result_ok o = true.
Proof. destruct o; simpl; intros H; try discriminate; auto. Qed.

Lemma storable_value_ok o : storable o = true -> value_ok o = true.
Proof. unfold storable. intros H. apply andb_true_iff in H as [H _]. exact H. Qed.

Lemma value_ok_storable o :
  value_ok o = true -> isError o = false -> storable o = true.
Proof. unfold storable. intros -> ->. reflexivity. Qed.

Lemma safe_typeMismatch t env op l r :
  value_ok l = true -> value_ok r = true ->
  safe loops panics t env (fun v => value_ok v = true) (typeMismatch op l r).
Proof.
  intros Hl Hr. unfold typeMismatch.
  eapply safe_bind; [apply safe_TypeOf; exact Hl|]. intros lt _.
  eapply safe_bind; [apply safe_TypeOf; exact Hr|]. intros rt _.
  apply safe_NewError.
Qed.

(** Which branch [numericCases] takes. *)
Lemma numericCases_runs l r ints floats otherwise st :
  value_ok l = true -> value_ok r = true ->
  numericCases l r ints floats otherwise st =
  match l, r with
  | Integer _ a, Integer _ b => ints a b st
  | Float _ a, Float _ b => floats a b st
  | Float _ a, Integer _ b => floats a (float64_of_int b) st
  | Integer _ a, Float _ b => floats (float64_of_int a) b st
  | _, _ => otherwise st
  end.
Proof.
  destruct l, r; simpl; intros; try discriminate; reflexivity.
Qed.

Lemma safe_numericCases t env l r ints floats otherwise :
  value_ok l = true -> value_ok r = true ->
  (forall a b, safe loops panics t env (fun v => value_ok v = true) (ints a b)) ->
  (forall a b, safe loops panics t env (fun v => value_ok v = true) (floats a b)) ->
  safe loops panics t env (fun v => value_ok v = true) otherwise ->
  safe loops panics t env (fun v => value_ok v = true)
    (numericCases l r ints floats otherwise).
Proof.
  intros Hl Hr Hi Hf Ho st Hinv He.
  rewrite numericCases_runs by assumption.
  destruct l, r; first [apply Hi|apply Hf|apply Ho]; assumption.
Qed.

(** A step on two operands whose branch is read off their kinds. *)
Ltac by_kinds l r :=
  let st := fresh "st" in let Hi := fresh "Hi" in let He := fresh "He" in
  intros st Hi He;
  destruct l, r; try discriminate; simpl;
  auto using inv_alloc, grows_same, grows_refl, value_ok_nativeBool,
    value_ok_evalNot.

Lemma safe_evalAdd t env op l r :
  value_ok l = true -> value_ok r = true ->
  safe loops panics t env Qval (evalAddInfixExpression op l r).
Proof.
  intros Hl Hr. apply safe_numericCases; try assumption;
    try (intros; apply safe_alloc; reflexivity).
  by_kinds l r.
Qed.

Lemma safe_evalSubtract t env op l r :
  value_ok l = true -> value_ok r = true ->
  safe loops panics t env Qval (evalSubtractInfixExpression op l r).
Proof.
  intros Hl Hr. apply safe_numericCases; try assumption;
    try (intros; apply safe_alloc; reflexivity).
  apply safe_typeMismatch; assumption.
Qed.

Lemma safe_evalMultiply t env op l r :
  value_ok l = true -> value_ok r = true ->
  safe loops panics t env Qval (evalMultiplyInfixExpression op l r).
Proof.
  intros Hl Hr. apply safe_numericCases; try assumption;
    try (intros; apply safe_alloc; reflexivity).
  apply safe_typeMismatch; assumption.
Qed.

(** [divide] returns only on the Integer divisor 0. *)
Lemma safe_evalDivide t env op l r :
  panics = true ->
  safe loops panics t env Qval (evalDivideInfixExpression op l r).
Proof.
  intros Hp st Hi He.
  unfold evalDivideInfixExpression, divisorIsZero, mbind, M_bind, bind.
  destruct r; cbn; try exact Hp.
  destruct (Value =? 0); cbn; [|exact Hp].
  split; [reflexivity|]. split; [apply inv_alloc; exact Hi|apply grows_same].
Qed.

Lemma safe_evalEquals t env op l r :
  value_ok l = true -> value_ok r = true ->
  safe loops panics t env Qval (evalEqualsInfixExpression op l r).
Proof.
  intros Hl Hr. apply safe_numericCases; try assumption;
    try (intros; apply safe_ret; apply value_ok_nativeBool).
  by_kinds l r.
Qed.

Lemma safe_evalNotEquals t env op l r :
  value_ok l = true -> value_ok r = true ->
  safe loops panics t env Qval (evalNotEqualsInfixExpression op l r).
Proof.
  intros Hl Hr. unfold evalNotEqualsInfixExpression.
  eapply safe_bind; [apply safe_evalEquals; assumption|]. intros v Hv.
  destruct (isError v); apply safe_ret; [exact Hv|apply value_ok_evalNot].
Qed.

Lemma safe_comparison t env op l r ints floats :
  value_ok l = true -> value_ok r = true ->
  safe loops panics t env Qval
    (numericCases l r
       (fun a b => ret (nativeBoolToBooleanObject (ints a b)))
       (fun a b => ret (nativeBoolToBooleanObject (floats a b)))
       (typeMismatch op l r)).
Proof.
  intros Hl Hr. apply safe_numericCases; try assumption;
    try (intros; apply safe_ret; apply value_ok_nativeBool).
  apply safe_typeMismatch; assumption.
Qed.

Lemma safe_evalGreaterThan t env op l r :
  value_ok l = true -> value_ok r = true ->
  safe loops panics t env Qval (evalGreaterThanInfixExpression op l r).
Proof. apply safe_comparison. Qed.

Lemma safe_evalLessThan t env op l r :
  value_ok l = true -> value_ok r = true ->
  safe loops panics t env Qval (evalLessThanInfixExpression op l r).
Proof. apply safe_comparison. Qed.

Lemma safe_evalGreaterOrEqual t env op l r :
  value_ok l = true -> value_ok r = true ->
  safe loops panics t env Qval (evalGreaterOrEqualInfixExpression op l r).
Proof. apply safe_comparison. Qed.

Lemma safe_evalLessOrEqual t env op l r :
  value_ok l = true -> value_ok r = true ->
  safe loops panics t env Qval (evalLessOrEqualInfixExpression op l r).
Proof. apply safe_comparison. Qed.

Lemma safe_evalAnd t env op l r :
  safe loops panics t env Qval (evalAndInfixExpression op l r).
Proof. apply safe_ret. apply value_ok_nativeBool. Qed.

Lemma safe_evalOr t env op l r :
  safe loops panics t env Qval (evalOrInfixExpression op l r).
Proof. apply safe_ret. apply value_ok_nativeBool. Qed.

Lemma safe_evalIdentifier t env node :
  safe loops panics t env Qval (evalIdentifier node env).
Proof.
  unfold evalIdentifier. eapply safe_bind; [apply safe_Get|].
  intros [val ok] H. destruct ok.
  - apply safe_ret. apply storable_value_ok. apply H. reflexivity.
  - apply safe_NewError.
Qed.

Lemma safe_evalIsDefinedExpression t env ident :
  safe loops panics t env Qval (evalIsDefinedExpression ident env).
Proof.
  unfold evalIsDefinedExpression. eapply safe_bind; [apply safe_Get|].
  intros [val ok] H. apply safe_ret. apply value_ok_nativeBool.
Qed.

Lemma safe_evalInputStatement t env prompt :
  safe loops panics t env Qval (evalInputStatement prompt).
Proof.
  unfold evalInputStatement.
  eapply safe_bind.
  { instantiate (1 := fun _ => True).
    destruct prompt; [apply safe_Print|apply safe_ret; exact I]. }
  intros _ _. eapply safe_bind; [apply safe_Scanln|]. intros w _.
  apply safe_newString.
Qed.

End SafeTriples.

Section SafeEval.
Import host object interpreter safety.

Variable loops : bool.
Variable panics : bool.
Variable PF : string -> parsed float.
Variable Eval_ : ast.Node -> envptr -> M Object.
Variable fuel : nat.
Variable good : ast.Node -> Prop.
Hypothesis IH : forall node env,
  good node ->
  safe loops panics (touch_of node env) env (Q_of node) (Eval_ node env).

Lemma safe_touch_of {A : Type} node env (Q : A -> Prop) (m : M A) :
  safe loops panics (touch_of node env) env Q m -> safe loops panics (Some env) env Q m.
Proof.
  destruct node as [p|s|e]; cbn [touch_of]; [auto| |apply safe_touch].
  destruct s; auto using safe_touch.
Qed.

Lemma safe_expr t e env :
  good (ast.ExpressionNode e) ->
  safe loops panics t env Qval (Eval_ (ast.ExpressionNode e) env).
Proof using IH. intros H. apply safe_touch. exact (IH _ env H). Qed.

Lemma safe_stmt s env :
  good (ast.StatementNode s) ->
  safe loops panics (Some env) env Qres (Eval_ (ast.StatementNode s) env).
Proof using IH. intros H. eapply safe_touch_of. exact (IH _ env H). Qed.

Lemma safe_evalBlock block env :
  good (calls.block block) ->
  safe loops panics (Some env) env Qres (evalBlock Eval_ block env).
Proof using IH. apply safe_stmt. Qed.

Lemma program_ok_of_result r :
  result_ok r = true -> isReturnValue r = false -> program_ok r = true.
Proof. destruct r; simpl; intros; try discriminate; auto. Qed.

Lemma safe_evalProgram_loop stmts : forall env result,
  Forall (fun s => good (ast.StatementNode s)) stmts ->
  program_ok result = true ->
  safe loops panics (Some env) env (fun v => program_ok v = true)
    (evalProgram_loop Eval_ stmts env result).
Proof using IH.
  induction stmts as [|s rest IHl]; intros env result Hg Hr; simpl.
  - apply safe_ret. exact Hr.
  - inversion Hg; subst.
    eapply safe_bind; [apply safe_stmt; assumption|]. intros r Hres.
    destruct r as [|p v|p v|p v|p v|p|p v|p m|p es];
      [apply IHl; [assumption|reflexivity]
      |apply IHl; [assumption|exact Hres]..
      | |
      |apply IHl; [assumption|exact Hres]].
    + apply safe_ret. unfold Qres in Hres. simpl in Hres.
      apply storable_value_ok in Hres. destruct v; try discriminate; exact Hres.
    + apply safe_ret. reflexivity.
Qed.

Lemma safe_evalBlockStatement_loop stmts : forall env result,
  Forall (fun s => good (ast.StatementNode s)) stmts ->
  result_ok result = true ->
  safe loops panics (Some env) env Qres
    (evalBlockStatement_loop Eval_ stmts env result).
Proof using IH.
  induction stmts as [|s rest IHl]; intros env result Hg Hr; simpl.
  - apply safe_ret. exact Hr.
  - inversion Hg; subst.
    eapply safe_bind; [apply safe_stmt; assumption|]. intros r Hres.
    destruct (isReturnValue r || isError r); [apply safe_ret; exact Hres|].
    apply IHl; assumption.
Qed.

Lemma safe_evalPrefixExpression t op right env :
  good (ast.ExpressionNode right) ->
  safe loops panics t env Qval (evalPrefixExpression Eval_ op right env).
Proof using IH.
  intros Hg. unfold evalPrefixExpression.
  eapply safe_bind; [apply safe_expr; exact Hg|]. intros v Hv.
  destruct (isError v); [apply safe_ret; exact Hv|].
  destruct (String.eqb op "not"); [apply safe_ret; apply value_ok_evalNot|].
  eapply safe_bind; [apply safe_TypeOf; exact Hv|]. intros ty _.
  apply safe_NewError.
Qed.

Lemma safe_evalInfixExpression t l op r env :
  good (ast.ExpressionNode l) -> good (ast.ExpressionNode r) ->
  panics || negb (String.eqb op "divide") = true ->
  safe loops panics t env Qval (evalInfixExpression Eval_ l op r env).
Proof using IH.
  intros Hl Hr Hd. unfold evalInfixExpression.
  eapply safe_bind; [apply safe_expr; exact Hl|]. intros lv Hlv.
  destruct (isError lv); [apply safe_ret; exact Hlv|].
  eapply safe_bind; [apply safe_expr; exact Hr|]. intros rv Hrv.
  destruct (isError rv); [apply safe_ret; exact Hrv|].
  assert (D : String.eqb op "divide" = true -> panics = true).
  { intros E. rewrite E in Hd. destruct panics; [reflexivity|discriminate]. }
  repeat match goal with
         | |- safe _ _ _ _ _ (if ?b then _ else _) => destruct b eqn:?
         end;
    auto using safe_evalAdd, safe_evalSubtract, safe_evalMultiply,
      safe_evalEquals, safe_evalNotEquals, safe_evalGreaterThan,
      safe_evalLessThan, safe_evalGreaterOrEqual, safe_evalLessOrEqual,
      safe_evalAnd, safe_evalOr, safe_evalDivide.
  eapply safe_bind; [apply safe_TypeOf; exact Hlv|]. intros lt _.
  eapply safe_bind; [apply safe_TypeOf; exact Hrv|]. intros rt _.
  apply safe_NewError.
Qed.

Lemma safe_evalElseIfBlocks blocks : forall elseBlock env,
  Forall (fun b => match b with
                   | ast.mkElseIfBlock c blk =>
                       good (ast.ExpressionNode c) /\ good (calls.block blk)
                   end) blocks ->
  (forall blk, elseBlock = Some blk -> good (calls.block blk)) ->
  safe loops panics (Some env) env Qres
    (evalElseIfBlocks Eval_ blocks elseBlock env).
Proof using IH.
  induction blocks as [|[cond blk] rest IHl]; intros elseBlock env Hg He; simpl.
  - destruct elseBlock; [apply safe_evalBlock; auto|apply safe_ret; reflexivity].
  - inversion Hg as [|? ? Hcb Hrest]; subst. destruct Hcb as [Hc Hb].
    eapply safe_bind; [apply safe_expr; exact Hc|]. intros c Hcv.
    destruct (isError c); [apply safe_ret; apply value_ok_result; exact Hcv|].
    destruct (isTruthy c); [apply safe_evalBlock; exact Hb|apply IHl; assumption].
Qed.

Lemma safe_evalIfStatement cond thenBlock elseIfBlocks elseBlock env :
  good (ast.ExpressionNode cond) -> good (calls.block thenBlock) ->
  Forall (fun b => match b with
                   | ast.mkElseIfBlock c blk =>
                       good (ast.ExpressionNode c) /\ good (calls.block blk)
                   end) elseIfBlocks ->
  (forall blk, elseBlock = Some blk -> good (calls.block blk)) ->
  safe loops panics (Some env) env Qres
    (evalIfStatement Eval_ cond thenBlock elseIfBlocks elseBlock env).
Proof using IH.
  intros Hc Ht Hi He. unfold evalIfStatement.
  eapply safe_bind; [apply safe_expr; exact Hc|]. intros c Hcv.
  destruct (isError c); [apply safe_ret; apply value_ok_result; exact Hcv|].
  destruct (isTruthy c);
    [apply safe_evalBlock; exact Ht|apply safe_evalElseIfBlocks; assumption].
Qed.

Lemma safe_out_of_fuel {A : Type} t env (Q : A -> Prop) :
  loops = true -> safe loops panics t env Q out_of_fuel.
Proof. intros H st _ _. exact H. Qed.

Lemma safe_evalWhileStatement_loop n : forall cond body env result,
  loops = true ->
  good (ast.ExpressionNode cond) -> good (calls.block body) ->
  result_ok result = true ->
  safe loops panics (Some env) env Qres
    (evalWhileStatement_loop Eval_ n cond body env result).
Proof using IH.
  induction n as [|n IHn]; intros cond body env result Hl Hc Hb Hr; simpl.
  - apply safe_out_of_fuel. exact Hl.
  - eapply safe_bind; [apply safe_expr; exact Hc|]. intros c Hcv.
    destruct (isError c); [apply safe_ret; apply value_ok_result; exact Hcv|].
    destruct (negb (isTruthy c)); [apply safe_ret; exact Hr|].
    eapply safe_bind; [apply safe_evalBlock; exact Hb|]. intros b Hbv.
    destruct (isReturnValue b); [apply safe_ret; exact Hbv|].
    destruct (isError b); [apply safe_ret; exact Hbv|].
    apply IHn; assumption.
Qed.

(** The state in which the body of a [for each] loop runs. *)
Lemma inv_enter st env name element :
  inv st -> (env < length (envs st))%nat -> storable element = true ->
  let st_in :=
    mkState
      (envs st ++ [mkEnvironment (<[name := element]> ∅) (Some env)])
      (next st) (stdout st) (stdin st) in
  inv st_in /\ grows None st st_in.
Proof.
  intros [Hs L] He Hv. cbv zeta. split; [split|split; [|split; [|split]]].
  - intros e frame name' v Hf Hn. cbn [envs] in Hf.
    apply lookup_app_Some in Hf as [Hf|[_ Hf]]; [eapply Hs; eauto|].
    destruct (e - length (envs st))%nat; simpl in Hf; [|destruct n; discriminate].
    inversion Hf; subst. cbn [store] in Hn.
    destruct (decide (name = name')) as [->|Hne].
    + rewrite lookup_insert_eq in Hn. inversion Hn; subst. exact Hv.
    + rewrite lookup_insert_ne in Hn by assumption.
      rewrite lookup_empty in Hn. discriminate.
  - intros e frame o Hf Ho. cbn [envs] in Hf.
    apply lookup_app_Some in Hf as [Hf|[Hge Hf]]; [eapply L; eauto|].
    destruct (e - length (envs st))%nat; simpl in Hf; [|destruct n; discriminate].
    inversion Hf; subst. cbn [outer] in Ho. inversion Ho; subst. lia.
  - cbn [envs]. rewrite length_app. lia.
  - intros e Hlt _. cbn [envs]. apply lookup_app_l. exact Hlt.
  - reflexivity.
  - reflexivity.
Qed.

Lemma safe_evalForEachStatement_loop elements :
  forall variable body env result,
    good (calls.block body) ->
    forallb storable elements = true -> result_ok result = true ->
    safe loops panics None env Qres
      (evalForEachStatement_loop Eval_ elements variable body env result).
Proof using IH.
  induction elements as [|element rest IHl];
    intros variable body env result Hb He Hr; simpl.
  - apply safe_ret. exact Hr.
  - simpl in He. apply andb_true_iff in He as [He1 He2].
    intros st Hi Hv.
    unfold mbind at 1. unfold M_bind, bind at 1. unfold NewEnclosedEnvironment.
    unfold mbind at 1. unfold M_bind, bind at 1.
    rewrite Set_in_new_frame.
    destruct (inv_enter st env (ast.id_Value variable) element Hi Hv He1)
      as [Hi1 G1].
    set (st_in := mkState _ _ _ _) in *.
    assert (Hcur : (length (envs st) < length (envs st_in))%nat).
    { subst st_in. cbn [envs]. rewrite length_app. simpl. lia. }
    pose proof (safe_evalBlock body (length (envs st)) Hb st_in Hi1 Hcur) as B.
    unfold mbind, M_bind, bind.
    destruct (evalBlock Eval_ body (length (envs st)) st_in)
      as [b st2|msg|code st2|]; try exact B.
    destruct B as (Hbv & Hi2 & G2).
    assert (G : grows None st st2).
    { eapply grows_new; [exact G1|exact G2|lia]. }
    assert (Hv2 : (env < length (envs st2))%nat) by (destruct G; lia).
    destruct (isReturnValue b); [cbn; auto|].
    destruct (isError b); [cbn; auto|].
    pose proof (IHl variable body env b Hb He2 Hbv st2 Hi2 Hv2) as R.
    destruct (evalForEachStatement_loop Eval_ rest variable body env b st2)
      as [r st3|msg|code st3|]; try exact R.
    destruct R as (Hrv & Hi3 & G3). eauto using grows_trans.
Qed.

Lemma safe_evalForEachStatement variable iterable body env :
  good (ast.ExpressionNode iterable) -> good (calls.block body) ->
  safe loops panics None env Qres
    (evalForEachStatement Eval_ variable iterable body env).
Proof using IH.
  intros Hi Hb. unfold evalForEachStatement.
  eapply safe_bind; [apply safe_expr; exact Hi|]. intros it Hit.
  destruct (isError it); [apply safe_ret; apply value_ok_result; exact Hit|].
  destruct it;
    try (eapply safe_bind; [apply safe_TypeOf; exact Hit|]; intros ty _;
         eapply safe_weaken; [apply safe_NewError|apply value_ok_result]).
  apply safe_evalForEachStatement_loop; [exact Hb|exact Hit|reflexivity].
Qed.

Lemma safe_evalLetStatement name value env :
  good (ast.ExpressionNode value) ->
  safe loops panics (Some env) env Qval (evalLetStatement Eval_ name value env).
Proof using IH.
  intros Hg. unfold evalLetStatement.
  eapply safe_bind; [apply safe_expr; exact Hg|]. intros v Hv.
  destruct (isError v) eqn:E; [apply safe_ret; exact Hv|].
  eapply safe_bind; [apply safe_Set_; apply value_ok_storable; assumption|].
  intros _ _. apply safe_ret. exact Hv.
Qed.

Lemma safe_evalReturnStatement t returnValue env :
  good (ast.ExpressionNode returnValue) ->
  safe loops panics t env Qres (evalReturnStatement Eval_ returnValue env).
Proof using IH.
  intros Hg. unfold evalReturnStatement.
  eapply safe_bind; [apply safe_expr; exact Hg|]. intros v Hv.
  destruct (isError v) eqn:E; [apply safe_ret; apply value_ok_result; exact Hv|].
  apply safe_alloc. intros a. unfold Qres. simpl.
  apply value_ok_storable; assumption.
Qed.

Lemma safe_evalPrintStatement t value env :
  good (ast.ExpressionNode value) ->
  safe loops panics t env Qval (evalPrintStatement Eval_ value env).
Proof using IH.
  intros Hg. unfold evalPrintStatement.
  eapply safe_bind; [apply safe_expr; exact Hg|]. intros v Hv.
  destruct (isError v); [apply safe_ret; exact Hv|].
  eapply safe_bind; [apply safe_InspectOf; exact Hv|]. intros text _.
  eapply safe_bind; [apply safe_Println|]. intros _ _.
  apply safe_ret. reflexivity.
Qed.

Lemma safe_evalExpressions t exps : forall env results,
  Forall (fun e => good (ast.ExpressionNode e)) exps ->
  forallb storable results = true ->
  safe loops panics t env elements_ok (evalExpressions Eval_ exps env results).
Proof using IH.
  induction exps as [|exp rest IHl]; intros env results Hg Hr; simpl.
  - apply safe_ret. left. exact Hr.
  - inversion Hg; subst.
    eapply safe_bind; [apply safe_expr; assumption|]. intros v Hv.
    destruct (isError v) eqn:E.
    + apply safe_ret. right. eauto.
    + apply IHl; [assumption|]. rewrite forallb_app, Hr. simpl.
      rewrite (value_ok_storable v Hv E). reflexivity.
Qed.

Lemma safe_evalListLiteral t elems env :
  Forall (fun e => good (ast.ExpressionNode e)) elems ->
  safe loops panics t env Qval (evalListLiteral Eval_ elems env).
Proof using IH.
  intros Hg. unfold evalListLiteral.
  eapply safe_bind; [apply safe_evalExpressions; [exact Hg|reflexivity]|].
  intros es Hes. destruct es as [|first rest].
  - apply safe_alloc. intros a. reflexivity.
  - destruct (isError first) eqn:E.
    + apply safe_ret. destruct Hes as [Hes|(e & He & _ & Hv)].
      * simpl in Hes. apply andb_true_iff in Hes as [H _].
        apply storable_value_ok. exact H.
      * inversion He; subst. exact Hv.
    + apply safe_alloc. intros a. destruct Hes as [Hes|(e & He & Hee & _)].
      * exact Hes.
      * inversion He; subst. congruence.
Qed.

Lemma safe_evalGetItemAtIndexExpression t listExp indexExp env :
  good (ast.ExpressionNode listExp) -> good (ast.ExpressionNode indexExp) ->
  safe loops panics t env Qval
    (evalGetItemAtIndexExpression Eval_ listExp indexExp env).
Proof using IH.
  intros Hgl Hgi. unfold evalGetItemAtIndexExpression.
  eapply safe_bind; [apply safe_expr; exact Hgl|]. intros lv Hl.
  destruct (isError lv); [apply safe_ret; exact Hl|].
  destruct lv;
    try (eapply safe_bind; [apply safe_TypeOf; exact Hl|]; intros ty _;
         apply safe_NewError).
  eapply safe_bind; [apply safe_expr; exact Hgi|]. intros iv Hi.
  destruct (isError iv); [apply safe_ret; exact Hi|].
  destruct iv;
    try (eapply safe_bind; [apply safe_TypeOf; exact Hi|]; intros ty _;
         apply safe_NewError).
  destruct ((Value <? 0) || (Value >=? Z.of_nat (length Elements))) eqn:Eb;
    [apply safe_NewError|].
  apply orb_false_iff in Eb as [E1 E2].
  destruct (Elements !! Z.to_nat Value) as [element|] eqn:E.
  - apply safe_ret. unfold Qval in *. simpl in Hl.
    rewrite forallb_forall in Hl. apply storable_value_ok. apply Hl.
    apply list_elem_of_In. eapply list_elem_of_lookup_2. exact E.
  - apply lookup_ge_None in E. lia.
Qed.

Lemma safe_exitCode t code env :
  good (ast.ExpressionNode code) ->
  safe loops panics t env (fun _ => True) (exitCode Eval_ code env).
Proof using IH.
  intros Hg. unfold exitCode.
  assert (R : safe loops panics t env (fun _ : Z => True)
                (codeObj ← Eval_ (ast.ExpressionNode code) env;
                 if isError codeObj then
                   text ← InspectOf codeObj; Println text;; ret 1
                 else
                   match codeObj with
                   | Integer _ v => ret v
                   | _ =>
                       ty ← TypeOf codeObj;
                       e ← NewError ("Eval: Exit code must be an integer, got "
                                     +:+ ty);
                       text ← InspectOf e; Println text;; ret 1
                   end)).
  { eapply safe_bind; [apply safe_expr; exact Hg|]. intros v Hv.
    assert (F : forall ty, safe loops panics t env (fun _ : Z => True)
                  (e ← NewError ("Eval: Exit code must be an integer, got "
                                 +:+ ty);
                   text ← InspectOf e; Println text;; ret 1)).
    { intros ty. eapply safe_bind; [apply safe_NewError|]. intros e Hev.
      eapply safe_bind; [apply safe_InspectOf; exact Hev|]. intros text _.
      eapply safe_bind; [apply safe_Println|]. intros _ _.
      apply safe_ret. exact I. }
    destruct (isError v).
    - eapply safe_bind; [apply safe_InspectOf; exact Hv|]. intros text _.
      eapply safe_bind; [apply safe_Println|]. intros _ _.
      apply safe_ret. exact I.
    - destruct v; try (apply safe_ret; exact I);
        (eapply safe_bind; [apply safe_TypeOf; exact Hv|]; intros ty _; apply F). }
  destruct code; try exact R. apply safe_ret. exact I.
Qed.

Lemma safe_evalExitStatement t code env :
  good (ast.ExpressionNode code) ->
  safe loops panics t env Qval (evalExitStatement Eval_ code env).
Proof using IH.
  intros Hg. unfold evalExitStatement.
  eapply safe_bind; [apply safe_exitCode; exact Hg|].
  intros; apply safe_os_Exit.
Qed.

Lemma safe_evalConvertToNumberExpression t exp env :
  good (ast.ExpressionNode exp) ->
  safe loops panics t env Qval (evalConvertToNumberExpression PF Eval_ exp env).
Proof using IH.
  intros Hg. unfold evalConvertToNumberExpression.
  eapply safe_bind; [apply safe_expr; exact Hg|]. intros v Hv.
  destruct (isError v); [apply safe_ret; exact Hv|].
  destruct v; try (apply safe_ret; exact Hv);
    try (eapply safe_bind; [apply safe_TypeOf; exact Hv|]; intros ty _;
         apply safe_NewError).
  destruct (PF Value); [|apply safe_NewError].
  destruct (contains_dot Value); [apply safe_newFloat|apply safe_newInteger].
Qed.

Lemma safe_evalConvertToStringExpression t exp env :
  good (ast.ExpressionNode exp) ->
  safe loops panics t env Qval (evalConvertToStringExpression Eval_ exp env).
Proof using IH.
  intros Hg. unfold evalConvertToStringExpression.
  eapply safe_bind; [apply safe_expr; exact Hg|]. intros v Hv.
  destruct (isError v); [apply safe_ret; exact Hv|].
  eapply safe_bind; [apply safe_InspectOf; exact Hv|]. intros text _.
  apply safe_newString.
Qed.

Lemma Forall_map_inv {A B : Type} (f : A -> B) (P : B -> Prop) xs :
  Forall P (map f xs) -> Forall (fun x => P (f x)) xs.
Proof.
  induction xs as [|x rest IHl]; simpl; intros H; [constructor|].
  inversion H; subst. constructor; auto.
Qed.

Lemma good_elseifs eifs rest :
  Forall good
    (flat_map (fun b => match b with
                        | ast.mkElseIfBlock c' b' =>
                            [ast.ExpressionNode c'; calls.block b']
                        end) eifs ++ rest) ->
  Forall (fun b => match b with
                   | ast.mkElseIfBlock c blk =>
                       good (ast.ExpressionNode c) /\ good (calls.block blk)
                   end) eifs
  /\ Forall good rest.
Proof.
  induction eifs as [|[c blk] more IHl]; simpl; intros H.
  - split; [constructor|exact H].
  - inversion H as [|? ? Hc H']; subst. inversion H' as [|? ? Hb H'']; subst.
    destruct (IHl H'') as [A B]. split; [constructor; auto|exact B].
Qed.

Lemma safe_Eval_body node env :
  Forall good (calls.children node) ->
  calls.allowed loops panics node = true ->
  safe loops panics (touch_of node env) env (Q_of node)
    (Eval_body PF Eval_ fuel node env).
Proof using IH.
  intros Hc Ha. unfold calls.allowed in Ha.
  apply andb_true_iff in Ha as [Hd Hl].
  destruct node as [program|stmt|e]; cbn [Eval_body touch_of Q_of].
  - apply safe_evalProgram_loop; [|reflexivity].
    cbn [calls.children] in Hc. apply Forall_map_inv in Hc. exact Hc.
  - destruct stmt; cbn [calls.children] in Hc.
    + inversion Hc; subst.
      eapply safe_weaken; [apply safe_evalLetStatement; assumption|].
      apply value_ok_result.
    + inversion Hc; subst. apply safe_evalReturnStatement; assumption.
    + inversion Hc; subst.
      eapply safe_weaken; [apply safe_expr; assumption|apply value_ok_result].
    + inversion Hc as [|? ? Hcond Hc1]; subst.
      inversion Hc1 as [|? ? Hthen Hc2]; subst.
      apply good_elseifs in Hc2 as [Heifs Hels].
      apply safe_evalIfStatement; try assumption.
      intros blk ->. inversion Hels; subst. assumption.
    + apply safe_evalBlockStatement_loop; [|reflexivity].
      apply Forall_map_inv in Hc. exact Hc.
    + inversion Hc as [|? ? Hcond Hc1]; subst.
      inversion Hc1 as [|? ? Hbody Hc2]; subst.
      apply safe_evalWhileStatement_loop; try assumption; [|reflexivity].
      cbn [calls.loops] in Hl. destruct loops; [reflexivity|discriminate].
    + inversion Hc as [|? ? Hit Hc1]; subst.
      inversion Hc1 as [|? ? Hbody Hc2]; subst.
      apply safe_evalForEachStatement; assumption.
    + inversion Hc; subst.
      eapply safe_weaken; [apply safe_evalPrintStatement; assumption|].
      apply value_ok_result.
    + eapply safe_weaken; [apply safe_evalInputStatement|].
      apply value_ok_result.
    + inversion Hc; subst.
      eapply safe_weaken; [apply safe_evalExitStatement; assumption|].
      apply value_ok_result.
  - destruct e; cbn [calls.children] in Hc;
      try solve [ apply safe_NewError | apply safe_newInteger
                | apply safe_newFloat | apply safe_newString
                | apply safe_evalIdentifier
                | apply safe_evalIsDefinedExpression ].
    + apply safe_ret. apply value_ok_nativeBool.
    + inversion Hc; subst. apply safe_evalPrefixExpression; assumption.
    + inversion Hc as [|? ? Hl0 Hc1]; subst.
      inversion Hc1 as [|? ? Hr0 Hc2]; subst.
      apply safe_evalInfixExpression; assumption.
    + apply Forall_map_inv in Hc. apply safe_evalListLiteral; exact Hc.
    + inversion Hc as [|? ? Hl0 Hc1]; subst.
      inversion Hc1 as [|? ? Hr0 Hc2]; subst.
      apply safe_evalGetItemAtIndexExpression; assumption.
    + inversion Hc; subst.
      apply safe_evalConvertToNumberExpression; assumption.
    + inversion Hc; subst.
      apply safe_evalConvertToStringExpression; assumption.
Qed.

End SafeEval.

Section SafeRecursion.
Import host object interpreter safety.

Variable loops : bool.
Variable panics : bool.
Variable PF : string -> parsed float.

(** The invariants of evaluation, for every node and every fuel. *)
Lemma Eval_safe : forall fuel node env,
  calls.within (calls.allowed loops panics) fuel node = true ->
  (loops = false -> calls.height fuel node = true) ->
  safe loops panics (touch_of node env) env (Q_of node)
    (Eval PF fuel node env).
Proof.
  induction fuel as [|n IHn]; intros node env Hw Hh.
  - cbn [Eval]. apply safe_out_of_fuel.
    destruct loops; [reflexivity|]. specialize (Hh eq_refl). discriminate.
  - cbn [Eval]. cbn [calls.within] in Hw.
    apply andb_true_iff in Hw as [Ha Hc].
    apply (safe_Eval_body loops panics PF (Eval PF n) n
             (fun c => calls.within (calls.allowed loops panics) n c = true
                       /\ (loops = false -> calls.height n c = true))).
    + intros c env' [Hw' Hh']. apply IHn; assumption.
    + apply Forall_forall. intros c Hin.
      rewrite forallb_forall in Hc. split.
      * apply Hc. apply list_elem_of_In. exact Hin.
      * intros E. specialize (Hh E). cbn [calls.height] in Hh.
        rewrite forallb_forall in Hh. apply Hh. apply list_elem_of_In. exact Hin.
    + exact Ha.
Qed.

End SafeRecursion.

Section SafeClaims.
Import host object interpreter safety.

Variable PF : string -> parsed float.

Lemma within_any n : forall node,
  calls.within (calls.allowed true true) n node = true.
Proof.
  induction n as [|n IHn]; intros node; [reflexivity|].
  cbn [calls.within]. apply andb_true_iff. split; [reflexivity|].
  apply forallb_forall. intros c _. apply IHn.
Qed.

Lemma inv_first_frame input :
  inv (mkState [mkEnvironment ∅ None] first_free [] input).
Proof.
  split.
  - intros e frame name v Hf Hn. destruct e; [|destruct e; discriminate].
    inversion Hf; subst. cbn [store] in Hn. rewrite lookup_empty in Hn.
    discriminate.
  - intros e frame o Hf Ho. destruct e; [|destruct e; discriminate].
    inversion Hf; subst. discriminate.
Qed.

(** X14.  What [Eval] returns and what it leaves in the environments. An
    expression yields a value that is not nil and not a return wrapper, whose
    Booleans and Null are the predefined objects, and that has no Error inside
    a list; a statement may also yield nil, or such a value that is no Error
    in a return wrapper; a program yields no wrapper. No variable is ever
    bound to an Error or to a wrapper, and the frame that encloses a frame is
    an older one. *)
Theorem Eval_keeps_values_in_shape fuel node env st v st' :
  inv st -> (env < length (envs st))%nat ->
  Eval PF fuel node env st = Done v st' ->
  Q_of node v /\ inv st'.
Proof.
  intros Hi He H.
  pose proof (Eval_safe true true PF fuel node env (within_any fuel node)
                ltac:(discriminate) st Hi He) as R.
  rewrite H in R. destruct R as (A & B & _). auto.
Qed.

(** X15.  Evaluation drops no frame; an expression, and the statements
    [return], [print], [input], [exit], [for each] and the expression
    statement, leave every frame that existed as it was ([for each] binds its
    variable and runs its body in frames of its own); [let], [if], [while], a
    block and a program change no frame but the one they are run in. What was
    written to standard output is only added to, and the words left on
    standard input are a tail of those left before. *)
Theorem Eval_changes_its_own_frame_only fuel node env st v st' :
  inv st -> (env < length (envs st))%nat ->
  Eval PF fuel node env st = Done v st' ->
  grows (touch_of node env) st st'.
Proof.
  intros Hi He H.
  pose proof (Eval_safe true true PF fuel node env (within_any fuel node)
                ltac:(discriminate) st Hi He) as R.
  rewrite H in R. destruct R as (_ & _ & G). exact G.
Qed.

End SafeClaims.

Section SafeRuns.
Import host object interpreter safety.

Lemma every_flat_map P eifs :
  forallb (ast.every_elseif P) eifs = true ->
  Forall (fun c => calls.every P c = true)
    (flat_map (fun b => match b with
                        | ast.mkElseIfBlock c' b' =>
                            [ast.ExpressionNode c'; calls.block b']
                        end) eifs).
Proof.
  induction eifs as [|[c b] rest IH]; intros H; cbn [flat_map].
  - apply List.Forall_nil.
  - cbn [forallb ast.every_elseif] in H.
    apply andb_true_iff in H. destruct H as [H Hr].
    apply andb_true_iff in H. destruct H as [Hc Hb].
    cbn [app]. apply List.Forall_cons; [exact Hc|].
    apply List.Forall_cons; [exact Hb|]. apply IH. exact Hr.
Qed.

Lemma every_map {A} P (f : A -> ast.Node) (g : A -> bool) xs :
  (forall x, calls.every P (f x) = g x) ->
  forallb g xs = true ->
  Forall (fun c => calls.every P c = true) (map f xs).
Proof.
  intros Hfg. induction xs as [|x rest IH]; intros H; cbn [map].
  - apply List.Forall_nil.
  - cbn [forallb] in H. apply andb_true_iff in H. destruct H as [Hx Hr].
    apply List.Forall_cons; [rewrite Hfg; exact Hx|apply IH; exact Hr].
Qed.

Lemma every_children P node :
  calls.every P node = true ->
  Forall (fun c => calls.every P c = true) (calls.children node).
Proof.
  intros H. destruct node as [p|s|e]; cbn [calls.children calls.every] in *.
  - apply (every_map P ast.StatementNode (ast.every_stmt P));
      [reflexivity|exact H].
  - destruct s as [t n v|t v|t e|t c th eifs els|b|t c b|t x it b|t v|t n|t c];
      cbn [ast.every_stmt] in H;
      repeat match goal with
             | H : _ && _ = true |- _ =>
                 apply andb_true_iff in H; destruct H
             end;
      repeat (apply List.Forall_cons; [assumption|]);
      try apply List.Forall_nil.
    + apply Forall_app. split; [apply every_flat_map; assumption|].
      destruct els; [apply List.Forall_cons; [assumption|]|];
        apply List.Forall_nil.
    + destruct b as [t ss]. cbn [ast.every_block] in H.
      apply (every_map P ast.StatementNode (ast.every_stmt P));
        [reflexivity|exact H].
  - destruct e; cbn [ast.every_expr] in H;
      repeat match goal with
             | H : _ && _ = true |- _ =>
                 apply andb_true_iff in H; destruct H
             end;
      repeat (apply List.Forall_cons; [assumption|]);
      try apply List.Forall_nil.
    apply (every_map P ast.ExpressionNode (ast.every_expr P));
      [reflexivity|assumption].
Qed.

Lemma no_infix_within n : forall node,
  calls.every spec.not_infix node = true ->
  calls.within (calls.allowed true false) n node = true.
Proof.
  induction n as [|n IHn]; intros node H; [reflexivity|].
  cbn [calls.within]. apply andb_true_iff. split.
  - destruct node as [p|s|e]; try reflexivity.
    destruct e; try reflexivity. discriminate H.
  - apply forallb_forall. intros c Hc. apply IHn.
    pose proof (every_children _ _ H) as F.
    rewrite List.Forall_forall in F. apply F. exact Hc.
Qed.

Lemma within_both n : forall node,
  calls.within (calls.allowed true false) n node = true ->
  calls.within (calls.allowed false true) n node = true ->
  calls.within (calls.allowed false false) n node = true.
Proof.
  induction n as [|n IHn]; intros node A B; [reflexivity|].
  cbn [calls.within] in *.
  apply andb_true_iff in A as [A1 A2]. apply andb_true_iff in B as [B1 B2].
  apply andb_true_iff. split.
  - unfold calls.allowed in *. cbn [orb andb] in *.
    rewrite andb_true_r in A1. rewrite A1, B1. reflexivity.
  - rewrite forallb_forall in A2, B2. apply forallb_forall.
    intros c Hc. apply IHn; [apply A2|apply B2]; exact Hc.
Qed.

Lemma parsed_without_infix ParseInt ParseFloat fuel src program errs n :
  driver.parse ParseInt ParseFloat fuel src = Some (program, errs) ->
  calls.within (calls.allowed true false) n (ast.ProgramNode program) = true.
Proof.
  intros HP. apply no_infix_within. cbn [calls.every].
  eapply (parse_every spec.not_infix); [|exact HP].
  intros e He. destruct e; try reflexivity; discriminate.
Qed.

(** X16.  [Eval] does not panic on a program that the parser has returned
    without a diagnostic, in whatever environment and state earlier
    evaluations have left, which is how the prompt loop runs line after line:
    the parser builds no infix expression, every type assertion is made behind
    a test of the type, no method is called on a nil value and no index leaves
    its list. A result that is not nil has a text for [Inspect], and the state
    left is fit for the next program. *)
Theorem Eval_of_a_parsed_program_never_panics
    ParseInt ParseFloat fuel src program n env st :
  driver.parse ParseInt ParseFloat fuel src = Some (program, []) ->
  inv st -> (env < length (envs st))%nat ->
  match Eval ParseFloat n (ast.ProgramNode program) env st with
  | Done v st' =>
      inv st' /\ (env < length (envs st'))%nat
      /\ (v <> nil -> is_Some (Inspect v))
  | Panic _ => False
  | _ => True
  end.
Proof.
  intros HP Hi He.
  pose proof (Eval_safe true false ParseFloat n (ast.ProgramNode program) env
                (parsed_without_infix _ _ _ _ _ _ n HP) ltac:(discriminate)
                st Hi He) as R.
  destruct (Eval ParseFloat n (ast.ProgramNode program) env st)
    as [v st'|msg|code st'|]; [|discriminate R|exact I|exact I].
  destruct R as (Q & Hi' & G). split; [exact Hi'|].
  split; [destruct G; lia|].
  intros Hv. apply value_ok_Inspect. cbn [Q_of] in Q.
  destruct v; [contradiction|exact Q..].
Qed.

(** X17.  [Eval] ends on a program that the parser has returned without a
    diagnostic and that holds no [while]: given fuel for the nesting of the
    tree it returns or exits. The other loops run over lists that are already
    there, and the chain of enclosing frames is finite. *)
Theorem Eval_of_a_parsed_program_ends_without_while
    ParseInt ParseFloat fuel src program n env st :
  driver.parse ParseInt ParseFloat fuel src = Some (program, []) ->
  calls.within (calls.allowed false true) n (ast.ProgramNode program) = true ->
  calls.height n (ast.ProgramNode program) = true ->
  inv st -> (env < length (envs st))%nat ->
  (exists v st',
     Eval ParseFloat n (ast.ProgramNode program) env st = Done v st')
  \/ (exists code st',
        Eval ParseFloat n (ast.ProgramNode program) env st
        = Exited code st').
Proof.
  intros HP Hw Hh Hi He.
  pose proof (Eval_safe false false ParseFloat n (ast.ProgramNode program)
                env
                (within_both n _ (parsed_without_infix _ _ _ _ _ _ n HP) Hw)
                (fun _ => Hh) st Hi He) as R.
  destruct (Eval ParseFloat n (ast.ProgramNode program) env st)
    as [v st'|msg|code st'|];
    [left; eauto|discriminate|right; eauto|discriminate].
Qed.

(** X18.  [runFile] never panics, whatever the text of the file and the lines
    of input: the parser builds no infix expression, so the one operation of
    [Eval] that can panic, the integer division of [divide], is never reached.
    *)
Theorem runFile_never_panics ParseInt ParseFloat fuel content input r :
  driver.runFile ParseInt ParseFloat fuel content input = Some (inr r) ->
  forall msg, r <> Panic msg.
Proof.
  unfold driver.runFile. intros H msg Hr.
  destruct (driver.parse ParseInt ParseFloat fuel content)
    as [[program errs]|] eqn:HP; [|discriminate H].
  destruct errs; [|discriminate H].
  inversion H as [E]. clear H.
  assert (W : calls.every spec.not_infix (ast.ProgramNode program) = true).
  { eapply (parse_every spec.not_infix); [|exact HP].
    intros e He. destruct e; try reflexivity; discriminate. }
  pose proof (Eval_safe true false ParseFloat fuel (ast.ProgramNode program)
                0%nat (no_infix_within fuel _ W) ltac:(discriminate)
                _ (inv_first_frame input) ltac:(cbn; lia)) as R.
  rewrite Hr in E. unfold NewEnvironment, mbind, M_bind, bind in E.
  cbn in E. unfold envptr in *. rewrite E in R. discriminate R.
Qed.

End SafeRuns.

Section Bindings.
Import host object interpreter.

Variable PF : string -> parsed float.

(** X19.  [let name be value] and the identifier [name]. When the value is an
    Error the statement returns it and binds nothing: the state is the one
    that the evaluation of the value left. Otherwise, evaluated in the same
    frame right after the statement, the identifier [name] yields the very
    value that the statement returned, [is defined name] yields TRUE, and
    neither changes the state. *)
Theorem let_binds_what_the_identifier_reads fuel t name value env st val st' :
  Eval PF (S fuel) (ast.StatementNode (ast.LetStatement t name value)) env st
  = Done val st' ->
  (isError val = true ->
   Eval PF fuel (ast.ExpressionNode value) env st = Done val st')
  /\ (isError val = false ->
      forall fuel' t',
        let ident := ast.mkIdentifier t' (ast.id_Value name) in
        Eval PF (S fuel') (ast.ExpressionNode (ast.IdentifierExpr ident)) env st'
        = Done val st'
        /\ Eval PF (S fuel')
             (ast.ExpressionNode (ast.IsDefinedExpression t' ident)) env st'
           = Done TRUE st').
Proof.
  cbn [Eval Eval_body]. unfold evalLetStatement, mbind, M_bind, bind.
  intros H.
  destruct (Eval PF fuel (ast.ExpressionNode value) env st)
    as [v st1|msg|code st1|] eqn:Ev; try discriminate H.
  destruct (isError v) eqn:Err.
  - inversion H; subst. split; [reflexivity|]. rewrite Err. discriminate.
  - unfold Set_ in H.
    destruct (envs st1 !! env) as [frame|] eqn:Ef; [|discriminate H].
    cbn in H. inversion H; subst val st'. clear H.
    split; [rewrite Err; discriminate|]. intros _ fuel' t'. cbv zeta.
    assert (He : (env < length (envs st1))%nat)
      by (eapply lookup_lt_Some; exact Ef).
    set (st2 := mkState _ _ _ _).
    assert (G : Get env (ast.id_Value name) st2 = Done (v, true) st2).
    { unfold Get. subst st2. cbn [envs]. rewrite length_insert.
      destruct (length (envs st1)) as [|n] eqn:El; [lia|].
      cbn [Get_from envs].
      rewrite list_lookup_insert_eq by lia. cbn [store].
      rewrite lookup_insert_eq. reflexivity. }
    cbn [Eval Eval_body].
    unfold evalIdentifier, evalIsDefinedExpression, mbind, M_bind, bind.
    cbn [ast.id_Value]. rewrite G. split; reflexivity.
Qed.

End Bindings.

Section EvalRuns.
Import host object interpreter safety.

Lemma Eval_keeps_values_in_shape_witness :
  let t := token.mkToken "" "" 0 0 in
  let xs := ast.mkIdentifier t "xs" in
  let node :=
    ast.ProgramNode
      (ast.mkProgram
         [ ast.LetStatement t xs
             (ast.ListLiteral t
                [ast.IntegerLiteral t 1; ast.BooleanLiteral t true]);
           ast.ReturnStatement t (ast.IdentifierExpr xs);
           ast.PrintStatement t (ast.IdentifierExpr xs) ]) in
  exists v st',
    Eval strconv.ParseFloat_decimal 5 node 0%nat
      (mkState [mkEnvironment ∅ None] first_free [] [])
    = Done v st'
    /\ v = List 4 [Integer 3 1; TRUE]
    /\ Q_of node v /\ inv st'.
Proof.
  cbv zeta. eexists _, _. split; [vm_compute; reflexivity|].
  split; [reflexivity|].
  eapply (Eval_keeps_values_in_shape strconv.ParseFloat_decimal 5 _ 0%nat
            (mkState [mkEnvironment ∅ None] first_free [] []));
    [apply inv_first_frame|cbn; lia|vm_compute; reflexivity].
Defined.

Lemma Eval_changes_its_own_frame_only_witness :
  let t := token.mkToken "" "" 0 0 in
  let x := ast.mkIdentifier t "x" in
  let y := ast.mkIdentifier t "y" in
  let node :=
    ast.StatementNode
      (ast.ForEachStatement t x
         (ast.ListLiteral t [ast.IntegerLiteral t 1; ast.IntegerLiteral t 2])
         (ast.mkBlockStatement t
            [ ast.LetStatement t y (ast.IdentifierExpr x);
              ast.PrintStatement t (ast.IdentifierExpr y) ])) in
  let st := mkState [mkEnvironment (<["y" := Integer 9 0]> ∅) None] 10 [] [] in
  exists v st',
    Eval strconv.ParseFloat_decimal 6 node 0%nat st = Done v st'
    /\ length (envs st') = 3%nat
    /\ grows (touch_of node 0%nat) st st'.
Proof.
  cbv zeta. eexists _, _. split; [vm_compute; reflexivity|].
  split; [reflexivity|].
  eapply (Eval_changes_its_own_frame_only strconv.ParseFloat_decimal 6 _
            0%nat);
    [|cbn; lia|vm_compute; reflexivity].
  split.
  - intros e frame name v Hf Hn. destruct e; [|destruct e; discriminate].
    inversion Hf; subst. cbn [store] in Hn.
    destruct (decide (name = "y")) as [->|Hne].
    + rewrite lookup_insert_eq in Hn. inversion Hn. reflexivity.
    + rewrite lookup_insert_ne in Hn by congruence.
      rewrite lookup_empty in Hn. discriminate.
  - intros e frame o Hf Ho. destruct e; [|destruct e; discriminate].
    inversion Hf; subst. discriminate.
Defined.

Lemma Eval_of_a_parsed_program_never_panics_witness :
  exists program,
    driver.parse strconv.ParseInt strconv.ParseFloat_decimal 30
      "let x be 5 x"
    = Some (program, [])
    /\ match
         Eval strconv.ParseFloat_decimal 10 (ast.ProgramNode program) 0%nat
           (mkState [mkEnvironment ∅ None] first_free [] [])
       with
       | Done v st' =>
           inv st' /\ (0 < length (envs st'))%nat
           /\ (v <> nil -> is_Some (Inspect v))
       | Panic _ => False
       | _ => True
       end.
Proof.
  eexists. split; [vm_compute; reflexivity|].
  apply (Eval_of_a_parsed_program_never_panics strconv.ParseInt
           strconv.ParseFloat_decimal 30 "let x be 5 x" _ 10 0%nat
           (mkState [mkEnvironment ∅ None] first_free [] []));
    [vm_compute; reflexivity|apply inv_first_frame|cbn; lia].
Defined.

Lemma Eval_of_a_parsed_program_ends_without_while_witness :
  exists program,
    driver.parse strconv.ParseInt strconv.ParseFloat_decimal 30
      "let x be 5 if x then x end endif"
    = Some (program, [])
    /\ ((exists v st',
           Eval strconv.ParseFloat_decimal 10 (ast.ProgramNode program) 0%nat
             (mkState [mkEnvironment ∅ None] first_free [] [])
           = Done v st')
        \/ (exists code st',
              Eval strconv.ParseFloat_decimal 10 (ast.ProgramNode program)
                0%nat (mkState [mkEnvironment ∅ None] first_free [] [])
              = Exited code st')).
Proof.
  eexists. split; [vm_compute; reflexivity|].
  apply (Eval_of_a_parsed_program_ends_without_while strconv.ParseInt
           strconv.ParseFloat_decimal 30 "let x be 5 if x then x end endif"
           _ 10 0%nat (mkState [mkEnvironment ∅ None] first_free [] []));
    [vm_compute; reflexivity|vm_compute; reflexivity|vm_compute; reflexivity
    |apply inv_first_frame|cbn; lia].
Defined.

Lemma runFile_never_panics_witness :
  exists r,
    driver.runFile strconv.ParseInt strconv.ParseFloat_decimal 30
      "let x be 5 print x" []
    = Some (inr r)
    /\ forall msg, r <> Panic msg.
Proof.
  eexists. split; [vm_compute; reflexivity|].
  eapply (runFile_never_panics strconv.ParseInt strconv.ParseFloat_decimal 30
            "let x be 5 print x" []).
  vm_compute. reflexivity.
Defined.

Lemma let_binds_what_the_identifier_reads_witness :
  let t := token.mkToken "" "" 0 0 in
  let x := ast.mkIdentifier t "x" in
  let st := mkState [mkEnvironment ∅ None] first_free [] [] in
  let st' := mkState [mkEnvironment (<["x" := Integer 3 5]> ∅) None] 4 [] [] in
  Eval strconv.ParseFloat_decimal 2
    (ast.StatementNode (ast.LetStatement t x (ast.IntegerLiteral t 5))) 0%nat st
  = Done (Integer 3 5) st'
  /\ Eval strconv.ParseFloat_decimal 1
       (ast.ExpressionNode (ast.IdentifierExpr x)) 0%nat st'
     = Done (Integer 3 5) st'.
Proof.
  cbv zeta. split; [vm_compute; reflexivity|].
  assert (H : Eval strconv.ParseFloat_decimal 2
                (ast.StatementNode
                   (ast.LetStatement (token.mkToken "" "" 0 0)
                      (ast.mkIdentifier (token.mkToken "" "" 0 0) "x")
                      (ast.IntegerLiteral (token.mkToken "" "" 0 0) 5)))
                0%nat (mkState [mkEnvironment ∅ None] first_free [] [])
              = Done (Integer 3 5)
                  (mkState [mkEnvironment (<["x" := Integer 3 5]> ∅) None]
                     4 [] []))
    by (vm_compute; reflexivity).
  exact (proj1 (proj2 (let_binds_what_the_identifier_reads
                         strconv.ParseFloat_decimal _ _ _ _ _ _ _ _ H)
                  eq_refl 0%nat (token.mkToken "" "" 0 0))).
Defined.

End EvalRuns.
